(** * Validation rule engine of the ThermoCool landing page

    A shallow embedding of [src/scripts/form-validation.js]: the frozen rule
    table [VALIDATION_RULES], the field evaluator [validateField], the form
    evaluator [validateForm] and the early-exit variant [validateFieldsFast],
    together with the part of the ECMAScript string and regular-expression
    semantics these functions rely on. *)

From Stdlib Require Import Ascii.
From stdpp Require Import pretty functions gmap strings list.

Set Default Proof Using "Type".
Set Warnings "-clear-no-such-hyp".
Open Scope N_scope.
Open Scope nat_scope.

(** ** ECMAScript strings

    A string value is a finite sequence of 16-bit code units; [.length] is
    the number of code units. *)

Abbreviation jsstring := (list N).

(** A source literal made of ASCII characters, as a sequence of code units. *)
Fixpoint jstr (s : string) : jsstring :=
  match s with
  | EmptyString => []
  | String a r => Ascii.N_of_ascii a :: jstr r
  end.
Arguments jstr _%_string : simpl never.

(** WhiteSpace and LineTerminator code units: the class [\s] of regular
    expressions and the characters stripped by [String.prototype.trim]. *)
Definition isWhiteSpace (c : N) : bool :=
  ((9 <=? c) && (c <=? 13) || (c =? 32) || (c =? 0xA0) || (c =? 0x1680)
   || (0x2000 <=? c) && (c <=? 0x200A)
   || (c =? 0x2028) || (c =? 0x2029) || (c =? 0x202F) || (c =? 0x205F)
   || (c =? 0x3000) || (c =? 0xFEFF))%N.

Definition isDigit (c : N) : bool := ((48 <=? c) && (c <=? 57))%N.
Definition isUpperAscii (c : N) : bool := ((65 <=? c) && (c <=? 90))%N.
Definition isLowerAscii (c : N) : bool := ((97 <=? c) && (c <=? 122))%N.

(** The word characters of [\b]: [A-Za-z0-9_]. *)
Definition isWordChar (c : N) : bool :=
  isUpperAscii c || isLowerAscii c || isDigit c || (c =? 95)%N.

Fixpoint dropWhile (p : N → bool) (s : jsstring) : jsstring :=
  match s with
  | [] => []
  | c :: r => if p c then dropWhile p r else s
  end.

Fixpoint takeWhile (p : N → bool) (s : jsstring) : jsstring :=
  match s with
  | [] => []
  | c :: r => if p c then c :: takeWhile p r else []
  end.

(** [String.prototype.trim]: white space removed from both ends. *)
Definition trimStart (s : jsstring) : jsstring := dropWhile isWhiteSpace s.
Definition trimEnd (s : jsstring) : jsstring := reverse (dropWhile isWhiteSpace (reverse s)).
Definition trim (s : jsstring) : jsstring := trimEnd (trimStart s).

(** Code points of a string: a high surrogate followed by a low surrogate
    is one code point, every other code unit is a code point of its own. *)
Definition isHighSurrogate (c : N) : bool := ((0xD800 <=? c) && (c <=? 0xDBFF))%N.
Definition isLowSurrogate (c : N) : bool := ((0xDC00 <=? c) && (c <=? 0xDFFF))%N.

Fixpoint codePointCount (s : jsstring) : nat :=
  match s with
  | [] => 0
  | c :: r =>
      match r with
      | d :: r' =>
          if isHighSurrogate c && isLowSurrogate d
          then S (codePointCount r')
          else S (codePointCount r)
      | [] => 1
      end
  end.

(** ** Regular expressions

    The patterns of the module use characters, classes, sequence,
    alternation, greedy repetition, the anchors and the word boundary.
    Groups only delimit alternatives here (no back-references are used), so
    they leave no trace in the syntax tree. *)

Inductive ClassItem :=
| One (c : N)          (* a single character *)
| Range (lo hi : N)    (* lo-hi *)
| Space                (* \s *)
| Digit.               (* \d *)

Inductive Regex :=
| Empty
| Char (c : N)
| Class (items : list ClassItem)     (* [...] *)
| NClass (items : list ClassItem)    (* [^...] *)
| Seq (r1 r2 : Regex)
| Alt (r1 r2 : Regex)                (* r1|r2 *)
| Star (r : Regex)                   (* r*, greedy *)
| Bol                                (* ^ *)
| Eol                                (* $ *)
| WordBoundary.                      (* \b *)

Definition Plus (r : Regex) : Regex := Seq r (Star r).      (* r+ *)
Definition Opt (r : Regex) : Regex := Alt r Empty.          (* r? *)

(** A pattern written as a chain of sequences, and a literal word. *)
Definition seqs (rs : list Regex) : Regex := foldr Seq Empty rs.
Definition word (w : string) : Regex := seqs (Char <$> jstr w).
Arguments word _%_string.

Definition itemMatches (it : ClassItem) (c : N) : bool :=
  match it with
  | One d => (c =? d)%N
  | Range lo hi => ((lo <=? c) && (c <=? hi))%N
  | Space => isWhiteSpace c
  | Digit => isDigit c
  end.

Definition inClass (items : list ClassItem) (c : N) : bool :=
  existsb (λ it, itemMatches it c) items.

(** Case folding of the [i] flag (without [u]): a code unit is compared
    through its upper-case form, and a code unit outside ASCII is never
    identified with an ASCII one. All pattern characters of this module are
    ASCII, so only the ASCII letters are folded. *)
Definition asciiUpper (c : N) : N := if isLowerAscii c then (c - 32)%N else c.
Definition asciiLower (c : N) : N := if isUpperAscii c then (c + 32)%N else c.

Definition canonicalize (ignoreCase : bool) (c : N) : N :=
  if ignoreCase then asciiUpper c else c.

Definition charMatches (ignoreCase : bool) (p c : N) : bool :=
  (canonicalize ignoreCase c =? canonicalize ignoreCase p)%N.

(** A class member [a] with the same canonical form as [c] is [c] itself or
    one of its two case variants. *)
Definition classMatches (ignoreCase : bool) (items : list ClassItem) (c : N) : bool :=
  inClass items c
  || (ignoreCase && (inClass items (asciiUpper c) || inClass items (asciiLower c))).

(** The matcher follows the continuation semantics of the language
    specification. A state is the input split at the current position: the
    consumed part (latest code unit first) and the part still to read. *)
Definition MatchState : Type := jsstring * jsstring.
Definition Continuation : Type := MatchState → option MatchState.
Definition Matcher : Type := Continuation → MatchState → option MatchState.

Definition atBoundary (st : MatchState) : bool :=
  xorb (from_option isWordChar false (head st.1))
       (from_option isWordChar false (head st.2)).

Definition charSetMatcher (p : N → bool) : Matcher := λ k st,
  match st.2 with
  | c :: rest => if p c then k (c :: st.1, rest) else None
  | [] => None
  end.

(** Greedy repetition: one more iteration is tried first, and an iteration
    that consumes nothing is rejected. Each accepted iteration consumes at
    least one code unit, so [n] iterations are enough when [n] is the number
    of code units left. *)
Fixpoint repeatMatcher (body : Matcher) (n : nat) (k : Continuation)
    (st : MatchState) : option MatchState :=
  let again :=
    match n with
    | O => None
    | S n' =>
        body (λ st', if length st'.2 <? length st.2
                     then repeatMatcher body n' k st' else None) st
    end in
  match again with
  | Some e => Some e
  | None => k st
  end.

Fixpoint matcher (ic : bool) (r : Regex) : Matcher :=
  match r with
  | Empty => λ k st, k st
  | Char c => charSetMatcher (charMatches ic c)
  | Class items => charSetMatcher (classMatches ic items)
  | NClass items => charSetMatcher (λ c, negb (classMatches ic items c))
  | Seq r1 r2 => λ k st, matcher ic r1 (matcher ic r2 k) st
  | Alt r1 r2 => λ k st,
      match matcher ic r1 k st with
      | Some e => Some e
      | None => matcher ic r2 k st
      end
  | Star r' => λ k st, repeatMatcher (matcher ic r') (length st.2) k st
  | Bol => λ k st, match st.1 with [] => k st | _ => None end
  | Eol => λ k st, match st.2 with [] => k st | _ => None end
  | WordBoundary => λ k st, if atBoundary st then k st else None
  end.

(** One attempt at the current position; the length of the match. *)
Definition matchHere (ic : bool) (r : Regex) (pre post : jsstring) : option nat :=
  (λ e : MatchState, length post - length e.2) <$> matcher ic r Some (pre, post).

(** The scan of [RegExpBuiltinExec]: positions are tried from left to
    right; the result is the offset of the first match and its length. *)
Fixpoint scan (ic : bool) (r : Regex) (pre post : jsstring) : option (nat * nat) :=
  match matchHere ic r pre post with
  | Some len => Some (0, len)
  | None =>
      match post with
      | [] => None
      | c :: rest => (λ '(i, len), (S i, len)) <$> scan ic r (c :: pre) rest
      end
  end.

(** ** Regular-expression objects and the string methods that take them *)

(** A regular-expression object: the pattern, the [g] and [i] flags and the
    mutable [lastIndex] property. *)
Record RegExp := mkRegExp {
  source : Regex;
  global : bool;
  ignoreCase : bool;
  lastIndex : nat
}.

Definition setLastIndex (R : RegExp) (i : nat) : RegExp :=
  mkRegExp (source R) (global R) (ignoreCase R) i.

(** [RegExpBuiltinExec]: the search starts at [lastIndex] for a global
    object and at 0 otherwise; a global object records where the match
    ended, or 0 when there is none. The result is the index and the length
    of the match. *)
Definition RegExpBuiltinExec (R : RegExp) (S : jsstring)
    : option (nat * nat) * RegExp :=
  let start := if global R then lastIndex R else 0 in
  let failed := if global R then setLastIndex R 0 else R in
  if length S <? start then (None, failed)
  else
    match scan (ignoreCase R) (source R) (reverse (take start S)) (drop start S) with
    | None => (None, failed)
    | Some (i, len) =>
        (Some (start + i, len),
         if global R then setLastIndex R (start + i + len) else R)
    end.

(** [RegExp.prototype.test]: the answer and the object after the call. *)
Definition RegExp_test (R : RegExp) (S : jsstring) : bool * RegExp :=
  let '(r, R') := RegExpBuiltinExec R S in
  (match r with Some _ => true | None => false end, R').

(** [String.prototype.match] and [String.prototype.replace] with a global
    regular expression reset [lastIndex] to 0 and collect every match from
    left to right: after a match the search resumes where it ended (one code
    unit further after an empty match). The two functions below walk the
    string once; [skip] counts the code units of the last match that are
    still to be passed. They compute what the loop of the language
    specification over [RegExpBuiltinExec] computes. *)
Fixpoint matchAll (ic : bool) (r : Regex) (pre post : jsstring) (skip : nat)
    : list jsstring :=
  match skip with
  | S k =>
      match post with
      | [] => []
      | c :: rest => matchAll ic r (c :: pre) rest k
      end
  | O =>
      match matchHere ic r pre post with
      | Some len =>
          take len post ::
          match post with
          | [] => []
          | c :: rest => matchAll ic r (c :: pre) rest (pred len)
          end
      | None =>
          match post with
          | [] => []
          | c :: rest => matchAll ic r (c :: pre) rest 0
          end
      end
  end.

(** [S.match(R)] for a global [R]: [None] stands for [null]. *)
Definition String_match (S : jsstring) (R : RegExp) : option (list jsstring) :=
  match matchAll (ignoreCase R) (source R) [] S 0 with
  | [] => None
  | ms => Some ms
  end.

Fixpoint replaceAll (ic : bool) (r : Regex) (rep : jsstring)
    (pre post : jsstring) (skip : nat) : jsstring :=
  match skip with
  | S k =>
      match post with
      | [] => []
      | c :: rest => replaceAll ic r rep (c :: pre) rest k
      end
  | O =>
      match matchHere ic r pre post with
      | Some len =>
          rep ++
          match post with
          | [] => []
          | c :: rest =>
              (match len with O => [c] | S _ => [] end)
              ++ replaceAll ic r rep (c :: pre) rest (pred len)
          end
      | None =>
          match post with
          | [] => []
          | c :: rest => c :: replaceAll ic r rep (c :: pre) rest 0
          end
      end
  end.

(** [S.replace(R, rep)] for a global [R] and a replacement without [$]. *)
Definition String_replace (S : jsstring) (R : RegExp) (rep : jsstring) : jsstring :=
  replaceAll (ignoreCase R) (source R) rep [] S 0.

(** [S.split(sep)[0]] for a one-character separator. *)
Definition split_first (sep : N) (S : jsstring) : jsstring :=
  takeWhile (λ c, negb (c =? sep)%N) S.

(** [list.includes(x)] on strings. *)
Definition includes (l : list jsstring) (x : jsstring) : bool :=
  bool_decide (x ∈ l).

(** Decimal form of a number in a template literal. *)
Definition numberToString (n : nat) : jsstring := jstr (pretty n).

(** The case conversions of the host are Unicode tables that are no part of
    the repository; they are taken as parameters. *)
Class Host := {
  toLowerCase : jsstring → jsstring;
  toUpperCase : jsstring → jsstring
}.

(** What the proofs below use of [toLowerCase]: converting twice is
    converting once, and a string without white space at its ends stays
    so. *)
Class HostLaws (host : Host) : Prop := {
  toLowerCase_idem : ∀ s, toLowerCase (toLowerCase s) = toLowerCase s;
  toLowerCase_trim : ∀ s, trim s = s → trim (toLowerCase s) = toLowerCase s
}.

(** ** The rule table *)

Definition chr (a : Ascii.ascii) : N := Ascii.N_of_ascii a.
Arguments chr _%_char.

(** A regular-expression literal: evaluating it creates a new object whose
    [lastIndex] is 0. *)
Definition literal (src : Regex) (g i : bool) : RegExp := mkRegExp src g i 0.

(** The declarative properties of a rule. A property the object does not
    have reads as [undefined], here [None]. *)
Record RuleProps := {
  required : option bool;
  minLength : option nat;
  maxLength : option nat;
  pattern : option RegExp;
  message : option jsstring;
  allowedValues : option (list jsstring)
}.

(** A rule: its properties and its two functions. [additionalValidation]
    receives the value and the rule, of which it reads properties only; its
    result is an error message or [null]. *)
Record ValidationRule := {
  props :> RuleProps;
  sanitize : option (jsstring → jsstring);
  additionalValidation : option (jsstring → RuleProps → option jsstring)
}.

Record FieldResult := {
  valid : bool;
  error : option jsstring;
  sanitizedValue : jsstring
}.

(** The result of [validateForm]: the property [valid] holds the local
    variable [isValid], [errors] is a [Map] and [sanitizedData] an object. *)
Record FormResult := {
  isValid : bool;
  errors : gmap jsstring (option jsstring);
  sanitizedData : gmap jsstring jsstring
}.

(** Own properties of an object literal, in the order they are written. *)
Fixpoint getOwn {V} (o : list (jsstring * V)) (key : jsstring) : option V :=
  match o with
  | [] => None
  | (k, v) :: rest => if decide (k = key) then Some v else getOwn rest key
  end.

(** The property names every ordinary object inherits from
    [Object.prototype]; reading one of them on an object literal yields a
    function (or the prototype itself), which is truthy and has none of the
    rule properties. *)
Definition objectPrototypeKeys : list jsstring :=
  jstr <$> ["constructor"; "__defineGetter__"; "__defineSetter__";
            "hasOwnProperty"; "__lookupGetter__"; "__lookupSetter__";
            "isPrototypeOf"; "propertyIsEnumerable"; "toString"; "valueOf";
            "__proto__"; "toLocaleString"]%string.

Definition inheritedObject : ValidationRule :=
  {| props := {| required := None; minLength := None; maxLength := None;
                 pattern := None; message := None; allowedValues := None |};
     sanitize := None;
     additionalValidation := None |}.

Definition namePattern : Regex :=
  seqs [Bol;
        Plus (Class [Range (chr "a") (chr "z"); Range (chr "A") (chr "Z");
                     Space; One (chr "'"); One (chr "-")]);
        Eol].

Definition emailPattern : Regex :=
  let part := Plus (NClass [Space; One (chr "@")]) in
  seqs [Bol; part; Char (chr "@"); part; Char (chr "."); part; Eol].

Definition phonePattern : Regex :=
  seqs [Bol;
        Plus (Class [Digit; Space; One (chr "-"); One (chr "(");
                     One (chr ")"); One (chr "+")]);
        Eol].

Definition whiteSpaceRun : Regex := Plus (Class [Space]).          (* \s+ *)
Definition consecutiveDots : Regex := word "..".                    (* \.\. *)
Definition nonDigit : Regex := NClass [Digit].                      (* \D *)

Definition urlPattern : Regex :=                                    (* https?:\/\/[^\s]+ *)
  seqs [word "http"; Opt (Char (chr "s")); word "://"; Plus (NClass [Space])].
Definition scriptPattern : Regex := word "<script".
Definition spamPattern : Regex :=                 (* \b(viagra|cialis|casino|lottery)\b *)
  seqs [WordBoundary;
        Alt (word "viagra") (Alt (word "cialis") (Alt (word "casino") (word "lottery")));
        WordBoundary].

Definition allowedServices : list jsstring :=
  jstr <$> ["ac-installation"; "ac-repair"; "ac-maintenance";
            "heating-installation"; "heating-repair"; "emergency-service";
            "other"]%string.

(** [value.trim().replace(/\s+/g, ' ')] *)
Definition collapseSanitize (value : jsstring) : jsstring :=
  String_replace (trim value) (literal whiteSpaceRun true false) (jstr " ").

Definition emailCheck (value : jsstring) (_ : RuleProps) : option jsstring :=
  if (RegExp_test (literal consecutiveDots false false) value).1
  then Some (jstr "Email cannot contain consecutive dots")
  else
    let localPart := split_first (chr "@") value in
    if 64 <? length localPart then Some (jstr "Email local part too long")
    else None.

Definition phoneCheck (value : jsstring) (_ : RuleProps) : option jsstring :=
  let digits := String_replace value (literal nonDigit true false) [] in
  if length digits <? 10
  then Some (jstr "Phone number must contain at least 10 digits")
  else if 15 <? length digits
  then Some (jstr "Phone number must not exceed 15 digits")
  else None.

Definition serviceCheck (value : jsstring) (rules : RuleProps) : option jsstring :=
  if negb (includes (default [] (allowedValues rules)) value)
  then Some (jstr "Please select a valid service option")
  else None.

(** The loop over [suspiciousPatterns.slice(1)]: every pattern object is
    tested once, the first hit returns. *)
Fixpoint firstSuspicious (patterns : list RegExp) (value : jsstring) : option jsstring :=
  match patterns with
  | [] => None
  | p :: rest =>
      if (RegExp_test p value).1
      then Some (jstr "Message contains prohibited content")
      else firstSuspicious rest value
  end.

Definition messageCheck (value : jsstring) (_ : RuleProps) : option jsstring :=
  let suspiciousPatterns :=
    [literal urlPattern true true; literal scriptPattern true true;
     literal spamPattern true true] in
  let urlCount :=
    match String_match value (literal urlPattern true true) with
    | Some urls => length urls
    | None => 0
    end in
  if 2 <? urlCount then Some (jstr "Message contains too many links")
  else firstSuspicious (drop 1 suspiciousPatterns) value.

Section Engine.
Context {host : Host}.

Definition nameRule : ValidationRule :=
  {| props := {| required := Some true; minLength := Some 2; maxLength := Some 100;
                 pattern := Some (literal namePattern false false);
                 message := Some (jstr "Please enter a valid name (letters, spaces, hyphens, and apostrophes only)");
                 allowedValues := None |};
     sanitize := Some collapseSanitize;
     additionalValidation := None |}.

Definition emailRule : ValidationRule :=
  {| props := {| required := Some true; minLength := None; maxLength := Some 254;
                 pattern := Some (literal emailPattern false false);
                 message := Some (jstr "Please enter a valid email address");
                 allowedValues := None |};
     sanitize := Some (λ value, toLowerCase (trim value));
     additionalValidation := Some emailCheck |}.

Definition phoneRule : ValidationRule :=
  {| props := {| required := Some true; minLength := Some 10; maxLength := Some 20;
                 pattern := Some (literal phonePattern false false);
                 message := Some (jstr "Please enter a valid phone number");
                 allowedValues := None |};
     sanitize := Some trim;
     additionalValidation := Some phoneCheck |}.

Definition serviceRule : ValidationRule :=
  {| props := {| required := Some true; minLength := None; maxLength := None;
                 pattern := None;
                 message := Some (jstr "Please select a service");
                 allowedValues := Some allowedServices |};
     sanitize := Some trim;
     additionalValidation := Some serviceCheck |}.

Definition messageRule : ValidationRule :=
  {| props := {| required := Some false; minLength := Some 0; maxLength := Some 1000;
                 pattern := None;
                 message := Some (jstr "Message must not exceed 1000 characters");
                 allowedValues := None |};
     sanitize := Some collapseSanitize;
     additionalValidation := Some messageCheck |}.

Definition VALIDATION_RULES : list (jsstring * ValidationRule) :=
  [(jstr "name", nameRule); (jstr "email", emailRule); (jstr "phone", phoneRule);
   (jstr "service", serviceRule); (jstr "message", messageRule)].

(** [VALIDATION_RULES[fieldName]]: an own property, else a property
    inherited from [Object.prototype], else [undefined]. *)
Definition getRules (fieldName : jsstring) : option ValidationRule :=
  match getOwn VALIDATION_RULES fieldName with
  | Some rules => Some rules
  | None =>
      if bool_decide (fieldName ∈ objectPrototypeKeys)
      then Some inheritedObject else None
  end.

(** [formatFieldName]. The evaluator calls it for names of the rule table
    only, which are all own keys of [nameMap]; the fall-back is given for
    the names [nameMap] does not inherit. *)
Definition nameMap : list (jsstring * jsstring) :=
  [(jstr "name", jstr "Name"); (jstr "email", jstr "Email");
   (jstr "phone", jstr "Phone"); (jstr "service", jstr "Service");
   (jstr "message", jstr "Message")].

Definition formatFieldName (fieldName : jsstring) : jsstring :=
  match getOwn nameMap fieldName with
  | Some n => n
  | None => toUpperCase (take 1 fieldName) ++ drop 1 fieldName
  end.

Definition truthy (b : option bool) : bool := default false b.

(** The empty string is the only falsy string. *)
Definition isEmptyString (s : jsstring) : bool :=
  match s with [] => true | _ => false end.

Definition validateField (fieldName value : jsstring) : FieldResult :=
  match getRules fieldName with
  | None => {| valid := true; error := None; sanitizedValue := value |}
  | Some rules =>
      let sanitizedValue :=
        match sanitize rules with
        | Some f => f value
        | None => trim value
        end in
      if truthy (required rules) && isEmptyString sanitizedValue then
        {| valid := false;
           error := Some (formatFieldName fieldName ++ jstr " is required");
           sanitizedValue := sanitizedValue |}
      else if isEmptyString sanitizedValue && negb (truthy (required rules)) then
        {| valid := true; error := None; sanitizedValue := sanitizedValue |}
      else if match minLength rules with
              | Some n => length sanitizedValue <? n
              | None => false
              end then
        {| valid := false;
           error := Some (formatFieldName fieldName ++ jstr " must be at least "
                          ++ numberToString (default 0 (minLength rules))
                          ++ jstr " characters");
           sanitizedValue := sanitizedValue |}
      else if match maxLength rules with
              | Some n => n <? length sanitizedValue
              | None => false
              end then
        {| valid := false;
           error := Some (formatFieldName fieldName ++ jstr " must not exceed "
                          ++ numberToString (default 0 (maxLength rules))
                          ++ jstr " characters");
           sanitizedValue := sanitizedValue |}
      else if match pattern rules with
              | Some re => negb (RegExp_test re sanitizedValue).1
              | None => false
              end then
        {| valid := false; error := message rules; sanitizedValue := sanitizedValue |}
      else
        match
          match additionalValidation rules with
          | Some check => check sanitizedValue rules
          | None => None
          end
        with
        | Some (c :: additionalError) =>
            {| valid := false; error := Some (c :: additionalError);
               sanitizedValue := sanitizedValue |}
        | _ => {| valid := true; error := None; sanitizedValue := sanitizedValue |}
        end
  end.

(** [Object.keys(VALIDATION_RULES)] *)
Definition ruleFields : list jsstring := VALIDATION_RULES.*1.

(** One step of the [forEach] of [validateForm] on its three variables. *)
Definition validateForm_step (formData : gmap jsstring jsstring)
    (acc : FormResult) (fieldName : jsstring) : FormResult :=
  let value := default [] (formData !! fieldName) in
  let result := validateField fieldName value in
  let sanitizedData' := <[fieldName := sanitizedValue result]> (sanitizedData acc) in
  if negb (valid result)
  then {| isValid := false;
          errors := <[fieldName := error result]> (errors acc);
          sanitizedData := sanitizedData' |}
  else {| isValid := isValid acc; errors := errors acc;
          sanitizedData := sanitizedData' |}.

Definition validateForm (formData : gmap jsstring jsstring) : FormResult :=
  foldl (validateForm_step formData)
        {| isValid := true; errors := ∅; sanitizedData := ∅ |}
        ruleFields.

(** [validateFieldsFast] on the entries of [fields], in the order
    [Object.entries] lists them. *)
Fixpoint validateFieldsFast (fields : list (jsstring * jsstring))
    : option (jsstring * FieldResult) :=
  match fields with
  | [] => None
  | (fieldName, value) :: rest =>
      let result := validateField fieldName value in
      if negb (valid result) then Some (fieldName, result)
      else validateFieldsFast rest
  end.

End Engine.

(** A host whose case conversions act on the ASCII letters only. *)
Definition asciiHost : Host :=
  {| toLowerCase := map asciiLower; toUpperCase := map asciiUpper |}.


(** ** The other exported functions *)

(** A value a caller may pass where a string is expected. *)
Inductive JSValue :=
| Undefined
| Null
| Str (s : jsstring)
| NotString.          (* a number, a boolean, an object, ... *)

Definition angleBracket : Regex := Class [One (chr "<"); One (chr ">")].   (* [<>] *)

(** [sanitizeString]; [slice(0, 1000)] keeps the first 1000 code units. *)
Definition sanitizeString (value : JSValue) : jsstring :=
  match value with
  | Str value =>
      take 1000
        (String_replace
           (String_replace (trim value) (literal angleBracket true false) [])
           (literal whiteSpaceRun true false) (jstr " "))
  | _ => []
  end.

Definition isEmpty (value : JSValue) : bool :=
  match value with
  | Null => true
  | Undefined => true
  | Str s => isEmptyString (trim s)
  | NotString => false
  end.

Section Exports.
Context {host : Host}.

Definition validateEmail (email : jsstring) : FieldResult :=
  validateField (jstr "email") email.
Definition validatePhone (phone : jsstring) : FieldResult :=
  validateField (jstr "phone") phone.
Definition validateName (name : jsstring) : FieldResult :=
  validateField (jstr "name") name.
Definition validateService (service : jsstring) : FieldResult :=
  validateField (jstr "service") service.
Definition validateMessage (message : jsstring) : FieldResult :=
  validateField (jstr "message") message.

(** [VALIDATION_RULES[fieldName] || null] *)
Definition getFieldRules (fieldName : jsstring) : option ValidationRule :=
  match getRules fieldName with
  | Some rules => Some rules
  | None => None
  end.

(** [rules ? rules.required : false]; [None] is [undefined], the answer for
    the names inherited from [Object.prototype]. *)
Definition isFieldRequired (fieldName : jsstring) : option bool :=
  match getRules fieldName with
  | Some rules => required rules
  | None => Some false
  end.

(** [Object.keys] lists own keys only, so the lookup in the callback
    always finds a rule. *)
Definition getRequiredFields : list jsstring :=
  List.filter (λ fieldName,
                 match getRules fieldName with
                 | Some rules => truthy (required rules)
                 | None => false
                 end)
              ruleFields.

End Exports.

(** ** The evaluator with the state it can reach

    The pattern objects of the rule table are created once and shared by all
    calls; their [lastIndex] is mutable even though the table is frozen. The
    world holds the [lastIndex] of the pattern object of each rule and what
    was written to the console. *)
Module Stateful.

Record World := {
  lastIndexOf : jsstring → nat;
  console : list jsstring
}.

Definition State (A : Type) : Type := World → A * World.

#[local] Instance state_ret : MRet State := λ A a w, (a, w).
#[local] Instance state_bind : MBind State := λ A B f m w,
  let '(a, w') := m w in f a w'.

Definition console_warn (msg : jsstring) : State unit := λ w,
  (tt, {| lastIndexOf := lastIndexOf w; console := console w ++ [msg] |}).

(** [rules.pattern.test(value)] on the shared object of rule [fieldName]. *)
Definition pattern_test (fieldName : jsstring) (re : RegExp) (value : jsstring)
    : State bool := λ w,
  let '(b, re') := RegExp_test (setLastIndex re (lastIndexOf w fieldName)) value in
  (b, {| lastIndexOf := <[fieldName := lastIndex re']> (lastIndexOf w);
         console := console w |}).

Section Engine.
Context {host : Host}.

Definition validateField (fieldName value : jsstring) : State FieldResult :=
  match getRules fieldName with
  | None =>
      _ ← console_warn (jstr "No validation rules defined for field: " ++ fieldName);
      mret {| valid := true; error := None; sanitizedValue := value |}
  | Some rules =>
      let sanitizedValue :=
        match sanitize rules with
        | Some f => f value
        | None => trim value
        end in
      if truthy (required rules) && isEmptyString sanitizedValue then
        mret {| valid := false;
               error := Some (formatFieldName fieldName ++ jstr " is required");
               sanitizedValue := sanitizedValue |}
      else if isEmptyString sanitizedValue && negb (truthy (required rules)) then
        mret {| valid := true; error := None; sanitizedValue := sanitizedValue |}
      else if match minLength rules with
              | Some n => length sanitizedValue <? n
              | None => false
              end then
        mret {| valid := false;
               error := Some (formatFieldName fieldName ++ jstr " must be at least "
                              ++ numberToString (default 0 (minLength rules))
                              ++ jstr " characters");
               sanitizedValue := sanitizedValue |}
      else if match maxLength rules with
              | Some n => n <? length sanitizedValue
              | None => false
              end then
        mret {| valid := false;
               error := Some (formatFieldName fieldName ++ jstr " must not exceed "
                              ++ numberToString (default 0 (maxLength rules))
                              ++ jstr " characters");
               sanitizedValue := sanitizedValue |}
      else
        mismatch ← match pattern rules with
                   | Some re =>
                       b ← pattern_test fieldName re sanitizedValue; mret (negb b)
                   | None => mret false
                   end;
        if (mismatch : bool) then
          mret {| valid := false; error := message rules;
                 sanitizedValue := sanitizedValue |}
        else
          match
            match additionalValidation rules with
            | Some check => check sanitizedValue rules
            | None => None
            end
          with
          | Some (c :: additionalError) =>
              mret {| valid := false; error := Some (c :: additionalError);
                     sanitizedValue := sanitizedValue |}
          | _ => mret {| valid := true; error := None;
                        sanitizedValue := sanitizedValue |}
          end
  end.

End Engine.
End Stateful.

(** ** The callers of the evaluator, with the same state *)
Module StatefulCallers.

#[local] Existing Instance Stateful.state_ret.
#[local] Existing Instance Stateful.state_bind.

Section Engine.
Context {host : Host}.

(** The [forEach] callback of [validateForm] after its call of
    [validateField]. *)
Definition store (acc : FormResult) (fieldName : jsstring) (result : FieldResult)
    : FormResult :=
  let sanitizedData' := <[fieldName := sanitizedValue result]> (sanitizedData acc) in
  if negb (valid result)
  then {| isValid := false;
          errors := <[fieldName := error result]> (errors acc);
          sanitizedData := sanitizedData' |}
  else {| isValid := isValid acc; errors := errors acc;
          sanitizedData := sanitizedData' |}.

Fixpoint forEach (formData : gmap jsstring jsstring) (keys : list jsstring)
    (acc : FormResult) : Stateful.State FormResult :=
  match keys with
  | [] => mret acc
  | fieldName :: rest =>
      result ← Stateful.validateField fieldName (default [] (formData !! fieldName));
      forEach formData rest (store acc fieldName result)
  end.

Definition validateForm (formData : gmap jsstring jsstring)
    : Stateful.State FormResult :=
  forEach formData ruleFields {| isValid := true; errors := ∅; sanitizedData := ∅ |}.

Fixpoint validateFieldsFast (fields : list (jsstring * jsstring))
    : Stateful.State (option (jsstring * FieldResult)) :=
  match fields with
  | [] => mret None
  | (fieldName, value) :: rest =>
      result ← Stateful.validateField fieldName value;
      if negb (valid result) then mret (Some (fieldName, result))
      else validateFieldsFast rest
  end.

End Engine.
End StatefulCallers.

(** ** The debounced validator

    The function [createDebouncedValidator] returns shares one variable,
    [timeoutId], among all its calls. The timers of the host are part of
    the state: a timer set with [setTimeout] has a positive handle and runs
    its callback once, not before its delay has passed, unless
    [clearTimeout] removes it first. A promise is known by its number in
    the order of creation; the executor of [new Promise] runs at once.

    [validationFn] is any function of the caller. The module's variable is
    out of its reach, but it can call the debounced function while it runs,
    and it can throw instead of returning. *)
Module Debounce.
Section Debounced.
Context {Args Result : Type}.

(** A timer of the host with the callback the module gives it: the
    callback closes over [args] and over [resolve] of its promise. *)
Record Timer := {
  handle : nat;
  due : nat;
  args : Args;
  promise : nat
}.

Record World := {
  now : nat;                          (* the clock, in milliseconds *)
  timers : list Timer;                (* the timers still to run *)
  nextHandle : nat;
  timeoutId : option nat;             (* [None] is [null] *)
  promises : nat;                     (* how many promises were created *)
  resolved : list (nat * Result)      (* the promises resolved, with their values *)
}.

(** One run of [validationFn], as far as the module can tell: the calls of
    the debounced function it makes while it runs, in their order, and how
    it ends. *)
Inductive Outcome :=
| Returns (result : Result)
| Throws.

Record Behaviour := {
  reenters : list Args;
  outcome : Outcome
}.

(** What a run does may depend on the arguments and on the moment. *)
Variable validationFn : Args → World → Behaviour.
Variable delay : option nat.          (* [None]: the argument is left out *)

Definition initial : World :=
  {| now := 0; timers := []; nextHandle := 1; timeoutId := None;
     promises := 0; resolved := [] |}.

Definition clearTimeout (id : nat) (ts : list Timer) : list Timer :=
  filter (λ t, handle t ≠ id) ts.

(** A handle is truthy unless it is [0]. *)
Definition truthyHandle (id : option nat) : bool :=
  match id with
  | Some (S _) => true
  | _ => false
  end.

(** One call of the returned function: the new promise and the world
    after its executor has run. *)
Definition call (a : Args) (w : World) : nat * World :=
  let ts := if truthyHandle (timeoutId w)
            then clearTimeout (default 0 (timeoutId w)) (timers w)
            else timers w in
  let id := nextHandle w in
  (promises w,
   {| now := now w;
      timers := ts ++ [{| handle := id; due := now w + default 300 delay;
                          args := a; promise := promises w |}];
      nextHandle := S id;
      timeoutId := Some id;
      promises := S (promises w);
      resolved := resolved w |}).

(** The callback of timer [t] runs: [validationFn] runs first, with the
    calls it makes; when it throws, the two statements after it are
    skipped. *)
Definition callback (t : Timer) (w : World) : World :=
  let run := validationFn (args t) w in
  let w' := foldl (λ w a, (call a w).2) w (reenters run) in
  match outcome run with
  | Returns result =>
      {| now := now w'; timers := timers w'; nextHandle := nextHandle w';
         timeoutId := None;
         promises := promises w';
         resolved := resolved w' ++ [(promise t, result)] |}
  | Throws => w'
  end.

(** What can happen: the returned function is called, the host runs a
    timer that is due (it leaves the host's table before its callback
    runs), time passes. *)
Inductive Event :=
| Call (a : Args)
| Expire (id : nat)
| Wait (ms : nat).

Definition step (w : World) (e : Event) : option World :=
  match e with
  | Call a => Some (call a w).2
  | Expire id =>
      match list_find (λ t, handle t = id) (timers w) with
      | Some (_, t) =>
          if due t <=? now w
          then Some (callback t
                       {| now := now w; timers := clearTimeout id (timers w);
                          nextHandle := nextHandle w; timeoutId := timeoutId w;
                          promises := promises w; resolved := resolved w |})
          else None
      | None => None
      end
  | Wait ms =>
      Some {| now := now w + ms; timers := timers w; nextHandle := nextHandle w;
              timeoutId := timeoutId w; promises := promises w;
              resolved := resolved w |}
  end.

Fixpoint run (w : World) (es : list Event) : option World :=
  match es with
  | [] => Some w
  | e :: es' =>
      match step w e with
      | Some w' => run w' es'
      | None => None
      end
  end.

End Debounced.
End Debounce.

(** * Vocabulary of the statements

    The definitions below are not part of the program: they name what the
    properties talk about, and give the direct descriptions against which
    the regular-expression machinery is checked. *)

Section Vocabulary.
Context {host : Host}.

(** The value [validateForm] reads for a field, and the result for it. *)
Definition fieldValue (formData : gmap jsstring jsstring) (f : jsstring) : jsstring :=
  default [] (formData !! f).
Definition fieldResult (formData : gmap jsstring jsstring) (f : jsstring) : FieldResult :=
  validateField f (fieldValue formData f).

(** The sanitized value of the evaluator. *)
Definition sanitizeOf (rules : ValidationRule) (raw : jsstring) : jsstring :=
  match sanitize rules with
  | Some f => f raw
  | None => trim raw
  end.

(** The algorithm as the specification words it: after the two cases of an
    empty sanitized value, a list of checks is run in a fixed order on the
    sanitized value, and the first failure is the result. A check yields the
    message of its failure. *)
Definition Check : Type := jsstring → option jsstring.

(** The two length messages. *)
Definition tooShort (f : jsstring) (n : nat) : jsstring :=
  formatFieldName f ++ jstr " must be at least " ++ numberToString n ++ jstr " characters".
Definition tooLong (f : jsstring) (n : nat) : jsstring :=
  formatFieldName f ++ jstr " must not exceed " ++ numberToString n ++ jstr " characters".

Definition minLengthCheck (f : jsstring) (rules : ValidationRule) : Check := λ s,
  match minLength rules with
  | Some n =>
      if length s <? n
      then Some (tooShort f n)
      else None
  | None => None
  end.

Definition maxLengthCheck (f : jsstring) (rules : ValidationRule) : Check := λ s,
  match maxLength rules with
  | Some n =>
      if n <? length s
      then Some (tooLong f n)
      else None
  | None => None
  end.

Definition patternCheck (rules : ValidationRule) : Check := λ s,
  match pattern rules with
  | Some re => if (RegExp_test re s).1 then None else message rules
  | None => None
  end.

Definition customCheck (rules : ValidationRule) : Check := λ s,
  match additionalValidation rules with
  | Some check =>
      match check s rules with
      | Some (c :: e) => Some (c :: e)
      | _ => None
      end
  | None => None
  end.

Fixpoint firstFailure (checks : list Check) (s : jsstring) : option jsstring :=
  match checks with
  | [] => None
  | check :: rest =>
      match check s with
      | Some e => Some e
      | None => firstFailure rest s
      end
  end.

Definition orderedChecks (f : jsstring) (rules : ValidationRule) : list Check :=
  [minLengthCheck f rules; maxLengthCheck f rules; patternCheck rules; customCheck rules].

Definition failure (e : jsstring) (s : jsstring) : FieldResult :=
  {| valid := false; error := Some e; sanitizedValue := s |}.
Definition success (s : jsstring) : FieldResult :=
  {| valid := true; error := None; sanitizedValue := s |}.

Definition evaluateInOrder (f : jsstring) (rules : ValidationRule) (raw : jsstring)
    : FieldResult :=
  let s := sanitizeOf rules raw in
  if isEmptyString s then
    if truthy (required rules)
    then failure (formatFieldName f ++ jstr " is required") s
    else success s
  else
    match firstFailure (orderedChecks f rules) s with
    | Some e => failure e s
    | None => success s
    end.

Definition unknownFieldWarning (fieldName : jsstring) : list jsstring :=
  match getRules fieldName with
  | None => [jstr "No validation rules defined for field: " ++ fieldName]
  | Some _ => []
  end.

(** What [replace(/\s+/g, ' ')] computes, stated directly: every run of
    white space becomes one space. A white-space code unit followed by
    another one is dropped; the last of a run is replaced by a space. *)
Fixpoint collapse (s : jsstring) : jsstring :=
  match s with
  | [] => []
  | c :: r =>
      if isWhiteSpace c then
        match r with
        | d :: _ => if isWhiteSpace d then collapse r else 32%N :: collapse r
        | [] => [32%N]
        end
      else c :: collapse r
  end.

(** Strings without white space at the start, at the end. *)
Definition cleanStart (s : jsstring) : Prop :=
  ∀ c, head s = Some c → isWhiteSpace c = false.
Definition cleanEnd (s : jsstring) : Prop :=
  ∀ c, last s = Some c → isWhiteSpace c = false.

(** Equality up to the case of the ASCII letters. *)
Definition sameIgnoringCase (a b : jsstring) : Prop :=
  asciiLower <$> a = asciiLower <$> b.

#[global] Instance sameIgnoringCase_dec a b : Decision (sameIgnoringCase a b).
Proof. unfold sameIgnoringCase. apply _. Defined.

(** [s] without its prefix [w], when it starts with [w] up to case. *)
Definition afterPrefix (w s : jsstring) : option jsstring :=
  if bool_decide (sameIgnoringCase (take (length w) s) w)
  then Some (drop (length w) s) else None.

(** The prefix test the matcher performs for a chain of characters. *)
Fixpoint stripPrefix (ic : bool) (w s : jsstring) : option jsstring :=
  match w with
  | [] => Some s
  | p :: w' =>
      match s with
      | c :: s' => if charMatches ic p c then stripPrefix ic w' s' else None
      | [] => None
      end
  end.

(** A URL starts where the input reads [http://] or [https://], in any
    letter case, followed by a code unit that is not white space; it extends
    to the next white space. *)
Definition startsUrl (s : jsstring) : bool :=
  existsb (λ scheme, match afterPrefix scheme s with
                     | Some (c :: _) => negb (isWhiteSpace c)
                     | _ => false
                     end)
          [jstr "http://"; jstr "https://"].

(** URLs counted from left to right; [inUrl] tells that the current run of
    non-space code units already belongs to a URL. *)
Fixpoint countUrls (inUrl : bool) (s : jsstring) : nat :=
  match s with
  | [] => 0
  | c :: r =>
      if isWhiteSpace c then countUrls false r
      else if inUrl then countUrls true r
      else if startsUrl s then S (countUrls true r)
      else countUrls false r
  end.

(** The number of URLs of a string; it is the number of its words that hold
    a URL. *)
Definition urlCount (s : jsstring) : nat := countUrls false s.

Definition notWhiteSpace (c : N) : bool := negb (isWhiteSpace c).

(** The words of a string: its maximal runs of code units that are not
    white space; [cur] is the word being read. A word holds a URL when a
    URL starts at one of its positions. *)
Fixpoint wordsFrom (cur s : jsstring) : list jsstring :=
  match s with
  | [] => match cur with [] => [] | _ => [cur] end
  | c :: r =>
      if isWhiteSpace c
      then match cur with [] => wordsFrom [] r | _ => cur :: wordsFrom [] r end
      else wordsFrom (cur ++ [c]) r
  end.

Definition words (s : jsstring) : list jsstring := wordsFrom [] s.

Definition holdsUrl (w : jsstring) : bool :=
  existsb (λ p, startsUrl (drop p w)) (seq 0 (length w)).

(** The end of the URL pattern: [[^\s]+] and nothing after it. *)
Definition urlTail (r : jsstring) : option jsstring :=
  match r with
  | c :: _ => if notWhiteSpace c then Some (dropWhile notWhiteSpace r) else None
  | [] => None
  end.

(** The part of the input left after a match of the URL pattern at the
    current position. *)
Definition urlRest (post : jsstring) : option jsstring :=
  stripPrefix true (jstr "http") post ≫= λ r1,
    match stripPrefix true (jstr "s") r1 ≫= λ r2,
          stripPrefix true (jstr "://") r2 ≫= urlTail with
    | Some e => Some e
    | None => stripPrefix true (jstr "://") r1 ≫= urlTail
    end.

Definition printable (c : N) : Prop := (33 ≤ c ≤ 126)%N.

(** A scheme is followed by a code unit that is not white space. *)
Definition schemeHere (w s : jsstring) : bool :=
  match stripPrefix true w s with
  | Some (c :: _) => notWhiteSpace c
  | _ => false
  end.

(** [s] contains [w] up to the case of letters. *)
Definition containsIgnoringCase (w s : jsstring) : Prop :=
  ∃ pre mid post, s = pre ++ mid ++ post ∧ sameIgnoringCase mid w.

(** [s] contains [w], up to case, as a whole word: no word character
    stands right before or right after it. *)
Definition containsWholeWord (w s : jsstring) : Prop :=
  ∃ pre mid post,
    s = pre ++ mid ++ post ∧ sameIgnoringCase mid w
    ∧ (∀ c, last pre = Some c → isWordChar c = false)
    ∧ (∀ c, head post = Some c → isWordChar c = false).

(** The keywords of the spam pattern. *)
Definition spamWords : list string := ["viagra"; "cialis"; "casino"; "lottery"]%string.

Definition containsSpamWord (s : jsstring) : Prop :=
  ∃ w, w ∈ spamWords ∧ containsWholeWord (jstr w) s.

(** A matcher looks at its continuation only on states at or after the
    current position. *)
Definition forwardOnly (m : Matcher) : Prop :=
  ∀ k k' st,
    (∀ st', length st'.2 ≤ length st.2 → k st' = k' st') → m k st = m k' st.

(** The loop that [String.prototype.match] and [String.prototype.replace]
    run on a global object, as the language specification writes it: [exec]
    is called on the object until it fails, and [lastIndex] is advanced by
    hand after an empty match. The results are the index and the length of
    each match. *)
Fixpoint execAll (fuel : nat) (R : RegExp) (str : jsstring) : list (nat * nat) :=
  match fuel with
  | O => []
  | S fuel' =>
      match RegExpBuiltinExec R str with
      | (None, _) => []
      | (Some (i, len), R') =>
          (i, len) ::
          execAll fuel'
                  (match len with
                   | O => setLastIndex R' (S (lastIndex R'))
                   | S _ => R'
                   end) str
      end
  end.

Definition matchedStrings (str : jsstring) (results : list (nat * nat))
    : list jsstring :=
  (λ '(i, len), take len (drop i str)) <$> results.

(** The result string of [replace]: the parts between the matches, each
    followed by the replacement, and the rest. *)
Fixpoint substitute (str rep : jsstring) (results : list (nat * nat))
    (nextSourcePosition : nat) : jsstring :=
  match results with
  | [] => drop nextSourcePosition str
  | (position, len) :: results' =>
      if nextSourcePosition <=? position
      then take (position - nextSourcePosition) (drop nextSourcePosition str)
           ++ rep ++ substitute str rep results' (position + len)
      else substitute str rep results' nextSourcePosition
  end.

(** What a pattern matches, stated without a search order: [Matches ic r st
    st'] when [r] can take the input from state [st] to state [st']. *)
Inductive Matches (ic : bool) : Regex → MatchState → MatchState → Prop :=
| Matches_Empty st : Matches ic Empty st st
| Matches_Char c d pre post :
    charMatches ic c d = true →
    Matches ic (Char c) (pre, d :: post) (d :: pre, post)
| Matches_Class items d pre post :
    classMatches ic items d = true →
    Matches ic (Class items) (pre, d :: post) (d :: pre, post)
| Matches_NClass items d pre post :
    classMatches ic items d = false →
    Matches ic (NClass items) (pre, d :: post) (d :: pre, post)
| Matches_Seq r1 r2 st1 st2 st3 :
    Matches ic r1 st1 st2 → Matches ic r2 st2 st3 →
    Matches ic (Seq r1 r2) st1 st3
| Matches_Alt_l r1 r2 st st' :
    Matches ic r1 st st' → Matches ic (Alt r1 r2) st st'
| Matches_Alt_r r1 r2 st st' :
    Matches ic r2 st st' → Matches ic (Alt r1 r2) st st'
| Matches_Star_stop r st : Matches ic (Star r) st st
| Matches_Star_more r st1 st2 st3 :
    Matches ic r st1 st2 → length st2.2 < length st1.2 →
    Matches ic (Star r) st2 st3 → Matches ic (Star r) st1 st3
| Matches_Bol post : Matches ic Bol ([], post) ([], post)
| Matches_Eol pre : Matches ic Eol (pre, []) (pre, [])
| Matches_WordBoundary st :
    atBoundary st = true → Matches ic WordBoundary st st.

(** A pattern that reads exactly one code unit, and the set it reads. *)
Definition single (ic : bool) (r : Regex) : option (N → bool) :=
  match r with
  | Char c => Some (charMatches ic c)
  | Class items => Some (classMatches ic items)
  | NClass items => Some (λ c, negb (classMatches ic items c))
  | _ => None
  end.

(** The characters of a name: ASCII letters, the space, the apostrophe and
    the hyphen. *)
Definition nameChar (c : N) : bool :=
  isLowerAscii c || isUpperAscii c || (c =? 32)%N || (c =? 39)%N || (c =? 45)%N.

(** The characters of a phone number: digits, white space and [-()+]. *)
Definition phoneChar (c : N) : bool :=
  isDigit c || isWhiteSpace c || (c =? 45)%N || (c =? 40)%N || (c =? 41)%N
  || (c =? 43)%N.

Definition countDigits (s : jsstring) : nat := length (List.filter isDigit s).

(** The characters of the three parts of an address: anything but white
    space and [@]. *)
Definition emailChar (c : N) : bool := negb (isWhiteSpace c || (c =? 64)%N).

(** [s] reads [l@d.e] with three non-empty parts free of white space and
    [@]. *)
Definition emailParts (s l d e : jsstring) : Prop :=
  s = l ++ chr "@" :: d ++ chr "." :: e
  ∧ l ≠ [] ∧ d ≠ [] ∧ e ≠ []
  ∧ Forall (λ c, emailChar c = true) (l ++ d ++ e).

(** [w] occurs in [s]. *)
Definition contains (w s : jsstring) : Prop := ∃ pre post, s = pre ++ w ++ post.

Definition isAngleBracket (c : N) : bool := (c =? 60)%N || (c =? 62)%N.

(** No two white-space code units in a row. *)
Fixpoint singleSpaced (s : jsstring) : bool :=
  match s with
  | c :: r =>
      match r with
      | d :: _ => negb (isWhiteSpace c && isWhiteSpace d) && singleSpaced r
      | [] => true
      end
  | [] => true
  end.

(** The entries [validateFieldsFast] evaluates: up to and including the
    first invalid one. *)
Definition allValid (fields : list (jsstring * jsstring)) : Prop :=
  Forall (λ entry, valid (validateField entry.1 entry.2) = true) fields.

(** The entries [validateFieldsFast] evaluates: those up to and including
    the first invalid one. *)
Fixpoint evaluated (fields : list (jsstring * jsstring))
    : list (jsstring * jsstring) :=
  match fields with
  | [] => []
  | (f, v) :: rest =>
      (f, v) :: if valid (validateField f v) then evaluated rest else []
  end.

(** The arguments of the calls among the events, in their order: the
    arguments of call number [p] belong to promise [p]. *)
Definition callsOf {Args : Type} (es : list (@Debounce.Event Args)) : list Args :=
  omap (λ e, match e with Debounce.Call a => Some a | _ => None end) es.

(** [validationFn] behaves as the function [f]: every run returns [f] of
    its arguments, and makes no call of the debounced function. *)
Definition returnsOnly {Args Result : Type}
    (validationFn : Args → @Debounce.World Args Result → @Debounce.Behaviour Args Result)
    (f : Args → Result) : Prop :=
  ∀ a w, validationFn a w
         = {| Debounce.reenters := []; Debounce.outcome := Debounce.Returns (f a) |}.

(** What every reachable world satisfies then, for the calls made so far. *)
Definition debounced {Args Result : Type} (f : Args → Result)
    (calls : list Args) (w : @Debounce.World Args Result) : Prop :=
  Debounce.promises w = length calls
  ∧ 1 ≤ Debounce.nextHandle w
  ∧ (∀ p r, (p, r) ∈ Debounce.resolved w →
            ∃ a, calls !! p = Some a ∧ r = f a)
  ∧ NoDup (Debounce.resolved w).*1
  ∧ match Debounce.timers w with
    | [] => Debounce.timeoutId w = None
    | [t] =>
        Debounce.timeoutId w = Some (Debounce.handle t)
        ∧ 1 ≤ Debounce.handle t < Debounce.nextHandle w
        ∧ S (Debounce.promise t) = length calls
        ∧ calls !! Debounce.promise t = Some (Debounce.args t)
        ∧ Debounce.promise t ∉ (Debounce.resolved w).*1
    | _ => False
    end.

Definition goodForm : list (jsstring * jsstring) :=
  [(jstr "name", jstr "Jo"); (jstr "email", jstr "jo@x.com");
   (jstr "phone", jstr "555-123-4567"); (jstr "service", jstr "ac-repair");
   (jstr "message", jstr "")].

Definition badForm : list (jsstring * jsstring) :=
  [(jstr "name", jstr ""); (jstr "email", jstr "bad"); (jstr "phone", jstr "1");
   (jstr "service", jstr ""); (jstr "message", jstr "")].

End Vocabulary.

(** * Properties *)

(** ** The form evaluator as a fold *)

Section EngineFacts.
Context {host : Host}.

Lemma ruleFields_eq :
  ruleFields = jstr <$> ["name"; "email"; "phone"; "service"; "message"]%string.
Proof. reflexivity. Qed.

Lemma validateForm_step_eq formData acc f :
  validateForm_step formData acc f =
  {| isValid := isValid acc && valid (fieldResult formData f);
     errors := if valid (fieldResult formData f) then errors acc
               else <[f := error (fieldResult formData f)]> (errors acc);
     sanitizedData := <[f := sanitizedValue (fieldResult formData f)]> (sanitizedData acc) |}.
Proof.
  unfold validateForm_step, fieldResult, fieldValue.
  destruct (valid _); simpl; [by rewrite andb_true_r | by rewrite andb_false_r].
Qed.

Lemma validateForm_fold formData (l : list jsstring) acc :
  let r := foldl (validateForm_step formData) acc l in
  isValid r = isValid acc && forallb (λ f, valid (fieldResult formData f)) l
  ∧ dom (errors r) =
      dom (errors acc) ∪ list_to_set (filter (λ f, valid (fieldResult formData f) = false) l)
  ∧ dom (sanitizedData r) = dom (sanitizedData acc) ∪ list_to_set l.
Proof.
  revert acc. induction l as [|f l IH]; intros acc; simpl.
  - rewrite andb_true_r. set_solver.
  - destruct (IH (validateForm_step formData acc f)) as (Hv & He & Hs).
    rewrite Hv, He, Hs, validateForm_step_eq. simpl.
    split; [by rewrite andb_assoc|].
    rewrite filter_cons.
    destruct (valid (fieldResult formData f)) eqn:Hf; simpl.
    + rewrite ?dom_insert_L. set_solver.
    + rewrite ?dom_insert_L. set_solver.
Qed.

End EngineFacts.

(** ** The field evaluator on a rule-table field *)

Section OrderedChecks.
Context {host : Host}.

Lemma getOwn_rules f rules :
  getOwn VALIDATION_RULES f = Some rules →
  (f = jstr "name" ∧ rules = nameRule) ∨ (f = jstr "email" ∧ rules = emailRule)
  ∨ (f = jstr "phone" ∧ rules = phoneRule) ∨ (f = jstr "service" ∧ rules = serviceRule)
  ∨ (f = jstr "message" ∧ rules = messageRule).
Proof.
  unfold VALIDATION_RULES, getOwn.
  repeat (case_decide; [intros [= <-]; subst f; tauto|]). done.
Qed.

Lemma getOwn_ruleFields f :
  is_Some (getOwn VALIDATION_RULES f) ↔ f ∈ ruleFields.
Proof.
  rewrite ruleFields_eq. unfold VALIDATION_RULES, getOwn. split.
  - repeat (case_decide; [subst f; intros _; set_solver|]). by intros [? ?].
  - intros Hin. repeat (case_decide; [by eexists|]).
    exfalso. set_solver.
Qed.

Lemma own_rule_message f rules :
  getOwn VALIDATION_RULES f = Some rules → is_Some (message rules).
Proof.
  intros H. destruct (getOwn_rules _ _ H) as [[_ ->]|[[_ ->]|[[_ ->]|[[_ ->]|[_ ->]]]]];
    by eexists.
Qed.

Lemma validateField_own f rules raw :
  getOwn VALIDATION_RULES f = Some rules →
  validateField f raw = evaluateInOrder f rules raw.
Proof.
  intros H. destruct (own_rule_message _ _ H) as [msg Hmsg].
  unfold validateField, getRules, evaluateInOrder. rewrite H.
  fold (sanitizeOf rules raw). generalize (sanitizeOf rules raw) as s. intros s.
  unfold orderedChecks, firstFailure, minLengthCheck, maxLengthCheck,
    patternCheck, customCheck, failure, success, tooShort, tooLong.
  rewrite Hmsg.
  destruct (isEmptyString s), (truthy (required rules)); simpl; try done.
  all: destruct (minLength rules) as [n|]; simpl;
    [destruct (length s <? n); [done|]|];
    (destruct (maxLength rules) as [k|]; simpl;
     [destruct (k <? length s); [done|]|]);
    (destruct (pattern rules) as [re|]; simpl;
     [destruct (RegExp_test re s).1; simpl; [|done]|]);
    (destruct (additionalValidation rules) as [check|]; [|done]);
    by destruct (check s rules) as [[|? ?]|].
Qed.

End OrderedChecks.

(** ** Results of the two evaluators *)

Section Claims.
Context {host : Host}.

Lemma validateField_not_own f raw :
  f ∉ ruleFields →
  validateField f raw =
  success (if bool_decide (f ∈ objectPrototypeKeys) then trim raw else raw).
Proof.
  intros Hf. unfold validateField, getRules.
  destruct (getOwn VALIDATION_RULES f) as [rules|] eqn:Hown.
  - exfalso. apply Hf, getOwn_ruleFields. by eexists.
  - destruct (bool_decide (f ∈ objectPrototypeKeys)); [simpl|done].
    by destruct (isEmptyString (trim raw)).
Qed.

Lemma evaluateInOrder_error_iff f rules raw :
  is_Some (error (evaluateInOrder f rules raw))
  ↔ valid (evaluateInOrder f rules raw) = false.
Proof.
  unfold evaluateInOrder, failure, success.
  repeat case_match; simpl; split; try done; by intros [? ?].
Qed.

(** C6: in every result of the field evaluator, for known and unknown field
    names, an error message is present exactly when [valid] is false. *)
Theorem error_present_iff_invalid (fieldName raw : jsstring) :
  is_Some (error (validateField fieldName raw))
  ↔ valid (validateField fieldName raw) = false.
Proof.
  destruct (getOwn VALIDATION_RULES fieldName) as [rules|] eqn:Hown.
  - rewrite (validateField_own _ _ _ Hown). apply evaluateInOrder_error_iff.
  - rewrite validateField_not_own.
    + simpl. split; [by intros [? ?]|done].
    + intros Hin. apply getOwn_ruleFields in Hin. rewrite Hown in Hin.
      by destruct Hin.
Qed.

Lemma validateForm_isValid (formData : gmap jsstring jsstring) :
  isValid (validateForm formData)
  = forallb (λ f, valid (fieldResult formData f)) ruleFields.
Proof.
  unfold validateForm.
  by rewrite (proj1 (validateForm_fold formData ruleFields _)).
Qed.

(** C1: the form evaluator's [valid] is the conjunction of the per-field
    validities, the keys of [errors] are the invalid rule-table fields and
    the keys of [sanitizedData] are the five rule-table fields. *)
Theorem validateForm_aggregates (formData : gmap jsstring jsstring) :
  isValid (validateForm formData)
    = forallb (λ f, valid (validateField f (default [] (formData !! f)))) ruleFields
  ∧ dom (errors (validateForm formData))
    = list_to_set
        (filter (λ f, valid (validateField f (default [] (formData !! f))) = false)
                ruleFields)
  ∧ dom (sanitizedData (validateForm formData))
    = list_to_set (jstr <$> ["name"; "email"; "phone"; "service"; "message"]%string).
Proof.
  destruct (validateForm_fold formData ruleFields
              {| isValid := true; errors := ∅; sanitizedData := ∅ |})
    as (Hv & He & Hs).
  unfold validateForm. rewrite Hv, He, Hs. simpl isValid. simpl errors.
  simpl sanitizedData. rewrite !dom_empty_L, !(left_id_L ∅ (∪)).
  rewrite <- ruleFields_eq. done.
Qed.

Lemma validateForm_fold_ext fd1 fd2 (l : list jsstring) acc :
  (∀ f, f ∈ l → fieldValue fd1 f = fieldValue fd2 f) →
  foldl (validateForm_step fd1) acc l = foldl (validateForm_step fd2) acc l.
Proof.
  revert acc. induction l as [|f l IH]; intros acc H; [done|]. simpl.
  assert (validateForm_step fd1 acc f = validateForm_step fd2 acc f) as ->.
  { rewrite !validateForm_step_eq. unfold fieldResult.
    by rewrite (H f) by set_solver. }
  apply IH. intros g Hg. apply H. set_solver.
Qed.

(** C8: two records that agree on the rule-table fields, an absent field
    counting as the empty string, have the same form result. *)
Theorem validateForm_agree (r1 r2 : gmap jsstring jsstring) :
  (∀ f, f ∈ ruleFields → default [] (r1 !! f) = default [] (r2 !! f)) →
  validateForm r1 = validateForm r2.
Proof. intros H. by apply validateForm_fold_ext. Qed.

(** Unknown keys of the record are ignored. *)
Corollary validateForm_unknown_key (r : gmap jsstring jsstring) (k v : jsstring) :
  k ∉ ruleFields → validateForm (<[k := v]> r) = validateForm r.
Proof.
  intros Hk. apply validateForm_fold_ext. intros f Hf. unfold fieldValue.
  rewrite lookup_insert_ne; [done|]. by intros ->.
Qed.

(** A missing field is evaluated as the empty string. *)
Corollary validateForm_missing_field (r : gmap jsstring jsstring) (f : jsstring) :
  r !! f = None → validateForm r = validateForm (<[f := []]> r).
Proof.
  intros Hf. apply validateForm_fold_ext. intros g _. unfold fieldValue.
  destruct (decide (f = g)) as [<-|Hne].
  - by rewrite lookup_insert_eq, Hf.
  - by rewrite lookup_insert_ne.
Qed.

(** C3 (amended): for a field name outside the rule table the result is
    valid without error, and the sanitized value is the raw value itself,
    not trimmed; only for the names every object inherits, whose lookup
    finds a rule-less object, the default trim applies. *)
Theorem validateField_unknown_field (fieldName raw : jsstring) :
  fieldName ∉ ruleFields →
  valid (validateField fieldName raw) = true
  ∧ error (validateField fieldName raw) = None
  ∧ sanitizedValue (validateField fieldName raw)
    = if bool_decide (fieldName ∈ objectPrototypeKeys) then trim raw else raw.
Proof. intros H. by rewrite validateField_not_own. Qed.

(** C2: on a rule-table field the evaluator sanitizes first and then runs
    the checks in the fixed order (required, optional-and-empty, minimum
    length, maximum length, pattern, custom check), stopping at the first
    failure; the result depends on the raw value through the sanitized
    value only; an empty sanitized value fails with "<Field> is required"
    when the field is required and succeeds when it is optional. *)
Theorem validateField_fixed_order (fieldName raw : jsstring) (rules : ValidationRule) :
  getOwn VALIDATION_RULES fieldName = Some rules →
  validateField fieldName raw = evaluateInOrder fieldName rules raw
  ∧ sanitizedValue (validateField fieldName raw) = sanitizeOf rules raw
  ∧ (∀ raw', sanitizeOf rules raw' = sanitizeOf rules raw →
             validateField fieldName raw' = validateField fieldName raw)
  ∧ (sanitizeOf rules raw = [] → required rules = Some true →
     validateField fieldName raw
     = failure (formatFieldName fieldName ++ jstr " is required") [])
  ∧ (sanitizeOf rules raw = [] → required rules = Some false →
     validateField fieldName raw = success []).
Proof.
  intros Hown. rewrite (validateField_own _ _ _ Hown). repeat split.
  - unfold evaluateInOrder. by repeat case_match.
  - intros raw' Hs. rewrite (validateField_own _ _ _ Hown).
    unfold evaluateInOrder. by rewrite Hs.
  - intros Hs Hreq. unfold evaluateInOrder. by rewrite Hs, Hreq.
  - intros Hs Hreq. unfold evaluateInOrder. by rewrite Hs, Hreq.
Qed.

Lemma validateFieldsFast_None (fields : list (jsstring * jsstring)) :
  validateFieldsFast fields = None
  ↔ ∀ f v, (f, v) ∈ fields → valid (validateField f v) = true.
Proof.
  induction fields as [|[f v] fields IH]; simpl.
  - split; [|done]. intros _ f v Hin. by apply elem_of_nil in Hin.
  - destruct (valid (validateField f v)) eqn:Hv; simpl.
    + rewrite IH. split.
      * intros H g u [[= -> ->]|Hin]%elem_of_cons; [done|by apply H].
      * intros H g u Hin. apply H. by right.
    + split; [done|]. intros H. specialize (H f v). rewrite Hv in H.
      discriminate H. by left.
Qed.

Lemma validateFieldsFast_Some (fields : list (jsstring * jsstring)) f r :
  validateFieldsFast fields = Some (f, r) →
  ∃ v, (f, v) ∈ fields ∧ r = validateField f v ∧ valid r = false.
Proof.
  induction fields as [|[g v] fields IH]; simpl; [done|].
  destruct (valid (validateField g v)) eqn:Hv; simpl.
  - intros H. destruct (IH H) as (u & Hin & Hr). exists u. split; [by right|done].
  - intros [= <- <-]. exists v. split; [by left|done].
Qed.

Lemma ruleFields_NoDup : NoDup ruleFields.
Proof. rewrite ruleFields_eq. apply (bool_decide_unpack _). by vm_compute. Qed.

(** C10: on a record whose keys are the five rule-table fields,
    [validateFieldsFast] returns [null] exactly when [validateForm] reports
    the form valid; what it returns otherwise is the name of a field of the
    record that the field evaluator rejects, with the result for it. *)
Theorem validateFieldsFast_agrees_with_validateForm (fields : list (jsstring * jsstring)) :
  fields.*1 ≡ₚ ruleFields →
  (validateFieldsFast fields = None
   ↔ isValid (validateForm (list_to_map fields)) = true)
  ∧ (∀ fieldName result,
       validateFieldsFast fields = Some (fieldName, result) →
       ∃ value, (fieldName, value) ∈ fields
                ∧ result = validateField fieldName value
                ∧ valid result = false).
Proof.
  intros Hperm. split; [|apply validateFieldsFast_Some].
  assert (NoDup fields.*1) as Hnd by (rewrite Hperm; apply ruleFields_NoDup).
  rewrite validateForm_isValid, validateFieldsFast_None, forallb_forall.
  unfold fieldResult, fieldValue. split.
  - intros H f Hf%list_elem_of_In. rewrite <- Hperm in Hf.
    apply list_elem_of_fmap in Hf as ([g v] & -> & Hin). simpl.
    rewrite (proj1 (elem_of_list_to_map _ _ _ Hnd) Hin). simpl. by apply H.
  - intros H f v Hin.
    assert (f ∈ ruleFields) as Hf.
    { rewrite <- Hperm. apply list_elem_of_fmap. by exists (f, v). }
    apply list_elem_of_In, H in Hf.
    by rewrite (proj1 (elem_of_list_to_map _ _ _ Hnd) Hin) in Hf.
Qed.

(** A call of [test] on an object without the [g] flag neither reads nor
    writes [lastIndex]. *)
Lemma RegExp_test_not_global (R : RegExp) (n : nat) (s : jsstring) :
  global R = false →
  RegExp_test (setLastIndex R n) s = ((RegExp_test R s).1, setLastIndex R n).
Proof.
  intros Hg. unfold RegExp_test, RegExpBuiltinExec. simpl. rewrite Hg.
  destruct (length s <? 0); [done|].
  by destruct (scan _ _ _ _) as [[? ?]|].
Qed.

Lemma own_rule_pattern_not_global f rules re :
  getOwn VALIDATION_RULES f = Some rules → pattern rules = Some re →
  global re = false.
Proof.
  intros H. destruct (getOwn_rules _ _ H) as [[_ ->]|[[_ ->]|[[_ ->]|[[_ ->]|[_ ->]]]]];
    simpl; by intros [= <-].
Qed.

(** In every world the evaluator returns what the pure evaluator computes,
    leaves every [lastIndex] as it was and writes at most the warning. *)
Lemma Stateful_validateField_run (fieldName raw : jsstring) (w : Stateful.World) :
  (Stateful.validateField fieldName raw w).1 = validateField fieldName raw
  ∧ (∀ k, Stateful.lastIndexOf (Stateful.validateField fieldName raw w).2 k
          = Stateful.lastIndexOf w k)
  ∧ Stateful.console (Stateful.validateField fieldName raw w).2
    = Stateful.console w ++ unknownFieldWarning fieldName.
Proof.
  unfold Stateful.validateField, validateField, unknownFieldWarning, getRules.
  destruct (getOwn VALIDATION_RULES fieldName) as [rules|] eqn:Hown.
  - generalize (match sanitize rules with Some f => f raw | None => trim raw end).
    intros s. rewrite app_nil_r.
    repeat (match goal with
            | |- context [if ?b then _ else _] =>
                lazymatch b with
                | context [pattern] => fail
                | _ => destruct b; [done|]
                end
            end).
    unfold mbind, Stateful.state_bind, mret, Stateful.state_ret.
    destruct (pattern rules) as [re|] eqn:Hre.
    + unfold Stateful.pattern_test.
      rewrite (RegExp_test_not_global _ _ _
                 (own_rule_pattern_not_global _ _ _ Hown Hre)).
      simpl.
      assert (∀ k, <[fieldName:=Stateful.lastIndexOf w fieldName]>
                     (Stateful.lastIndexOf w) k = Stateful.lastIndexOf w k) as Hk.
      { intros k. destruct (decide (fieldName = k)) as [<-|Hne].
        - by rewrite fn_lookup_insert.
        - by rewrite fn_lookup_insert_ne. }
      destruct (RegExp_test re s).1; simpl; [|done].
      by repeat case_match.
    + simpl. by repeat case_match.
  - destruct (bool_decide (fieldName ∈ objectPrototypeKeys)); simpl.
    + rewrite app_nil_r. by destruct (isEmptyString (trim raw)).
    + done.
Qed.

(** C9: the field evaluator is deterministic. A second call, made in the
    world the first call left behind, returns the same result; the result
    is the same in every world, whatever the [lastIndex] of the shared
    pattern objects. *)
Theorem validateField_deterministic (fieldName raw : jsstring) (w : Stateful.World) :
  let first := Stateful.validateField fieldName raw w in
  let second := Stateful.validateField fieldName raw first.2 in
  second.1 = first.1
  ∧ (∀ w', (Stateful.validateField fieldName raw w').1 = first.1)
  ∧ (∀ k, Stateful.lastIndexOf second.2 k = Stateful.lastIndexOf w k)
  ∧ first.1 = validateField fieldName raw.
Proof.
  simpl. repeat split.
  - by rewrite !(proj1 (Stateful_validateField_run _ _ _)).
  - intros w'. by rewrite !(proj1 (Stateful_validateField_run _ _ _)).
  - intros k. by rewrite !(proj1 (proj2 (Stateful_validateField_run _ _ _))).
  - apply Stateful_validateField_run.
Qed.

End Claims.

(** ** Facts about the matcher *)

Lemma takeWhile_dropWhile p (s : jsstring) : takeWhile p s ++ dropWhile p s = s.
Proof. induction s as [|c s IH]; simpl; [done|]. destruct (p c); simpl; by f_equal. Qed.

Lemma length_dropWhile p (s : jsstring) :
  length (dropWhile p s) = length s - length (takeWhile p s).
Proof.
  rewrite <- (takeWhile_dropWhile p s) at 2. rewrite length_app. lia.
Qed.

Lemma drop_takeWhile p (s : jsstring) :
  drop (length (takeWhile p s)) s = dropWhile p s.
Proof.
  rewrite <- (takeWhile_dropWhile p s) at 2. by rewrite drop_app_length.
Qed.

(** A greedy repetition of a character set followed by nothing consumes the
    longest run of members. *)
Lemma repeatMatcher_charSet p n pre post :
  length post ≤ n →
  repeatMatcher (charSetMatcher p) n Some (pre, post)
  = Some (reverse (takeWhile p post) ++ pre, dropWhile p post).
Proof.
  revert pre post. induction n as [|n IH]; intros pre post Hn.
  - destruct post; [done|simpl in Hn; lia].
  - destruct post as [|c rest]; [done|].
    cbn [repeatMatcher charSetMatcher snd fst takeWhile dropWhile].
    destruct (p c); [|done].
    replace (length rest <? length (c :: rest)) with true
      by (symmetry; apply Nat.ltb_lt; simpl; lia).
    rewrite IH by (simpl in Hn; lia).
    rewrite reverse_cons. by rewrite <- app_assoc.
Qed.

Lemma matcher_plus_charSet ic r p pre post :
  matcher ic r = charSetMatcher p →
  matcher ic (Plus r) Some (pre, post)
  = match post with
    | c :: _ =>
        if p c then Some (reverse (takeWhile p post) ++ pre, dropWhile p post) else None
    | [] => None
    end.
Proof.
  intros Hr. unfold Plus. cbn [matcher]. rewrite Hr.
  destruct post as [|c rest]; [done|].
  cbn [charSetMatcher snd fst takeWhile dropWhile]. destruct (p c); [|done].
  rewrite repeatMatcher_charSet by done. rewrite reverse_cons. by rewrite <- app_assoc.
Qed.

Lemma matchHere_plus_charSet ic r p pre post :
  matcher ic r = charSetMatcher p →
  matchHere ic (Plus r) pre post
  = match post with
    | c :: _ => if p c then Some (length (takeWhile p post)) else None
    | [] => None
    end.
Proof.
  intros Hr. unfold matchHere. rewrite (matcher_plus_charSet _ _ _ _ _ Hr).
  destruct post as [|c rest]; [done|]. destruct (p c) eqn:Hc; [|done].
  cbn [fmap option_fmap option_map snd]. f_equal.
  rewrite length_dropWhile.
  pose proof (f_equal length (takeWhile_dropWhile p (c :: rest))) as Hl.
  rewrite length_app in Hl. lia.
Qed.

(** ** The repetition satisfies the recursion of the language specification *)

Lemma charSetMatcher_forwardOnly p : forwardOnly (charSetMatcher p).
Proof.
  intros k k' [pre [|c rest]] H; [done|]. cbn [charSetMatcher snd fst].
  destruct (p c); [|done]. apply H. simpl. lia.
Qed.

Lemma repeatMatcher_forwardOnly body n :
  forwardOnly body → forwardOnly (repeatMatcher body n).
Proof.
  intros Hb. induction n as [|n IH]; intros k k' st H.
  - simpl. apply H. lia.
  - cbn [repeatMatcher].
    rewrite (Hb _ (λ st', if length st'.2 <? length st.2
                          then repeatMatcher body n k' st' else None)).
    + rewrite (H st) by lia. done.
    + intros st' Hst'. destruct (length st'.2 <? length st.2) eqn:Hlt; [|done].
      apply Nat.ltb_lt in Hlt. apply IH. intros st'' Hst''. apply H. lia.
Qed.

Lemma matcher_forwardOnly ic r : forwardOnly (matcher ic r).
Proof.
  induction r as [|c|items|items|r1 IH1 r2 IH2|r1 IH1 r2 IH2|r IH| | |];
    cbn [matcher]; try apply charSetMatcher_forwardOnly.
  - intros k k' st H. apply H. lia.
  - intros k k' st H. apply IH1. intros st' Hst'. apply IH2.
    intros st'' Hst''. apply H. lia.
  - intros k k' st H. rewrite (IH1 k k' st H), (IH2 k k' st H). done.
  - intros k k' st H. by apply repeatMatcher_forwardOnly.
  - intros k k' [[|c pre] post] H; [|done]. by apply H.
  - intros k k' [pre [|c post]] H; [|done]. by apply H.
  - intros k k' st H. destruct (atBoundary st); [|done]. apply H. lia.
Qed.

Lemma repeatMatcher_fails body n st :
  (∀ st', body (λ _, None) st' = None) → forwardOnly body →
  repeatMatcher body n (λ _, None) st = None.
Proof.
  intros Hb Hf. revert st. induction n as [|n IH]; intros st; [done|].
  cbn [repeatMatcher]. rewrite (Hf _ (λ _, None)); [by rewrite Hb|].
  intros st' _. destruct (length st'.2 <? length st.2); [apply IH|done].
Qed.

(** A matcher succeeds only through its continuation. *)
Lemma matcher_fails ic r st : matcher ic r (λ _, None) st = None.
Proof.
  revert st.
  induction r as [|c|items|items|r1 IH1 r2 IH2|r1 IH1 r2 IH2|r IH| | |];
    intros st; cbn [matcher]; try done.
  - unfold charSetMatcher. by repeat case_match.
  - unfold charSetMatcher. by repeat case_match.
  - unfold charSetMatcher. by repeat case_match.
  - rewrite (matcher_forwardOnly ic r1 _ (λ _, None)); [apply IH1|].
    intros st' _. apply IH2.
  - by rewrite IH1, IH2.
  - apply repeatMatcher_fails; [done|apply matcher_forwardOnly].
  - by destruct st.1.
  - by destruct st.2.
  - by destruct (atBoundary st).
Qed.

(** The number of code units left is enough fuel for the repetition. *)
Lemma repeatMatcher_fuel ic r n k st :
  length st.2 ≤ n →
  repeatMatcher (matcher ic r) n k st
  = repeatMatcher (matcher ic r) (length st.2) k st.
Proof.
  revert st. induction n as [n IH] using lt_wf_ind. intros st Hn.
  destruct n as [|n].
  - by replace (length st.2) with 0 by lia.
  - destruct (length st.2) as [|m] eqn:Hm.
    + cbn [repeatMatcher]. rewrite Hm.
      rewrite (matcher_forwardOnly ic r _ (λ _, None)); [by rewrite matcher_fails|].
      done.
    + cbn [repeatMatcher]. rewrite Hm.
      rewrite (matcher_forwardOnly ic r _
                 (λ st', if length st'.2 <? S m
                         then repeatMatcher (matcher ic r) m k st' else None));
        [done|].
      intros st' _. destruct (length st'.2 <? S m) eqn:Hlt; [|done].
      apply Nat.ltb_lt in Hlt.
      rewrite (IH n) by lia. rewrite (IH m) by lia. done.
Qed.

Lemma repeatMatcher_unfold ic r n k st :
  length st.2 ≤ n →
  repeatMatcher (matcher ic r) n k st
  = match matcher ic r (λ st', if length st'.2 <? length st.2
                               then repeatMatcher (matcher ic r) (length st'.2) k st'
                               else None) st with
    | Some e => Some e
    | None => k st
    end.
Proof.
  intros Hn. destruct n as [|n]; cbn [repeatMatcher].
  - rewrite (matcher_forwardOnly ic r _ (λ _, None)); [by rewrite matcher_fails|].
    intros st' _. replace (length st.2) with 0 by lia. done.
  - rewrite (matcher_forwardOnly ic r _
               (λ st', if length st'.2 <? length st.2
                       then repeatMatcher (matcher ic r) (length st'.2) k st'
                       else None)); [done|].
    intros st' _. destruct (length st'.2 <? length st.2) eqn:Hlt; [|done].
    apply Nat.ltb_lt in Hlt. apply repeatMatcher_fuel. lia.
Qed.

(** [r*] tries one more iteration of [r], which has to consume something,
    and then itself again, before it gives way to its continuation: the
    recursion by which the language specification defines the greedy
    repetition. *)
Lemma matcher_Star_unfold ic r k st :
  matcher ic (Star r) k st
  = match matcher ic r (λ st', if length st'.2 <? length st.2
                               then matcher ic (Star r) k st' else None) st with
    | Some e => Some e
    | None => k st
    end.
Proof. cbn [matcher]. by apply repeatMatcher_unfold. Qed.

(** ** The sanitizers *)

Lemma collapse_cons2 c d r :
  collapse (c :: d :: r)
  = if isWhiteSpace c
    then if isWhiteSpace d then collapse (d :: r) else 32%N :: collapse (d :: r)
    else c :: collapse (d :: r).
Proof. reflexivity. Qed.

Lemma collapse_white c r :
  isWhiteSpace c = true →
  collapse (c :: r) = 32%N :: collapse (dropWhile isWhiteSpace r).
Proof.
  revert c. induction r as [|d r IH]; intros c Hc.
  - simpl. by rewrite Hc.
  - rewrite collapse_cons2, Hc. cbn [dropWhile].
    destruct (isWhiteSpace d) eqn:Hd; [by apply IH|done].
Qed.

Lemma collapse_other c r :
  isWhiteSpace c = false → collapse (c :: r) = c :: collapse r.
Proof. intros Hc. simpl. by rewrite Hc. Qed.

Lemma classMatches_space c : classMatches false [Space] c = isWhiteSpace c.
Proof. unfold classMatches, inClass. simpl. by rewrite !orb_false_r. Qed.

Lemma matchHere_whiteSpaceRun pre post :
  matchHere false whiteSpaceRun pre post
  = match post with
    | c :: _ =>
        if isWhiteSpace c then Some (length (takeWhile isWhiteSpace post)) else None
    | [] => None
    end.
Proof.
  unfold whiteSpaceRun.
  rewrite (matchHere_plus_charSet _ _ (classMatches false [Space])) by done.
  destruct post as [|c rest]; [done|]. rewrite classMatches_space.
  destruct (isWhiteSpace c); [|done]. do 2 f_equal.
  clear. induction (c :: rest) as [|d l IH]; simpl; [done|].
  rewrite classMatches_space. destruct (isWhiteSpace d); [by rewrite IH|done].
Qed.

(** While [skip] is positive the walk only moves on. *)
Lemma replaceAll_skip ic r rep pre post k :
  k ≤ length post →
  replaceAll ic r rep pre post k
  = replaceAll ic r rep (reverse (take k post) ++ pre) (drop k post) 0.
Proof.
  revert pre post. induction k as [|k IH]; intros pre post Hk.
  - by rewrite take_0, drop_0.
  - destruct post as [|c rest]; [simpl in Hk; lia|].
    cbn [replaceAll take drop]. rewrite IH by (simpl in Hk; lia).
    rewrite reverse_cons. by rewrite <- app_assoc.
Qed.

Lemma matchAll_skip ic r pre post k :
  k ≤ length post →
  matchAll ic r pre post k
  = matchAll ic r (reverse (take k post) ++ pre) (drop k post) 0.
Proof.
  revert pre post. induction k as [|k IH]; intros pre post Hk.
  - by rewrite take_0, drop_0.
  - destruct post as [|c rest]; [simpl in Hk; lia|].
    cbn [matchAll take drop]. rewrite IH by (simpl in Hk; lia).
    rewrite reverse_cons. by rewrite <- app_assoc.
Qed.

Lemma length_takeWhile_le p (s : jsstring) : length (takeWhile p s) ≤ length s.
Proof.
  pose proof (f_equal length (takeWhile_dropWhile p s)) as H.
  rewrite length_app in H. lia.
Qed.

(** The global replacement of white-space runs is [collapse]. *)
Lemma replaceAll_whiteSpaceRun pre post :
  replaceAll false whiteSpaceRun (jstr " ") pre post 0 = collapse post.
Proof.
  remember (length post) as n eqn:Hn. revert pre post Hn.
  induction n as [n IH] using lt_wf_ind. intros pre post Hn.
  destruct post as [|c rest]; [done|].
  cbn [replaceAll]. rewrite matchHere_whiteSpaceRun.
  destruct (isWhiteSpace c) eqn:Hc.
  - rewrite collapse_white by done.
    cbn [takeWhile]. rewrite Hc. cbn [length pred app].
    rewrite replaceAll_skip by apply length_takeWhile_le.
    rewrite drop_takeWhile. simpl. f_equal.
    apply (IH (length (dropWhile isWhiteSpace rest))); [|done].
    rewrite length_dropWhile. simpl in Hn. lia.
  - rewrite collapse_other by done. f_equal.
    apply (IH (length rest)); [simpl in Hn; lia|done].
Qed.

Lemma collapseSanitize_eq value : collapseSanitize value = collapse (trim value).
Proof. apply replaceAll_whiteSpaceRun. Qed.

Lemma dropWhile_id p (s : jsstring) :
  (∀ c, head s = Some c → p c = false) → dropWhile p s = s.
Proof. destruct s as [|c s]; [done|]. intros H. simpl. by rewrite (H c). Qed.

Lemma head_dropWhile p (s : jsstring) c :
  head (dropWhile p s) = Some c → p c = false.
Proof.
  induction s as [|d s IH]; simpl; [done|].
  destruct (p d) eqn:Hd; [done|]. simpl. by intros [= <-].
Qed.

Lemma trimStart_id s : cleanStart s → trimStart s = s.
Proof. apply dropWhile_id. Qed.

Lemma trimEnd_id s : cleanEnd s → trimEnd s = s.
Proof.
  intros H. unfold trimEnd. rewrite dropWhile_id; [apply reverse_involutive|].
  intros c. rewrite head_reverse. apply H.
Qed.

Lemma trimStart_cleanStart s : cleanStart (trimStart s).
Proof. intros c. apply head_dropWhile. Qed.

Lemma trimEnd_cleanEnd s : cleanEnd (trimEnd s).
Proof. intros c. unfold trimEnd. rewrite last_reverse. apply head_dropWhile. Qed.

(** [trimEnd] cuts a suffix off. *)
Lemma trimEnd_prefix s : ∃ t, s = trimEnd s ++ t.
Proof.
  exists (reverse (takeWhile isWhiteSpace (reverse s))). unfold trimEnd.
  by rewrite <- reverse_app, takeWhile_dropWhile, reverse_involutive.
Qed.

Lemma trimEnd_cleanStart s : cleanStart s → cleanStart (trimEnd s).
Proof.
  intros H c Hc. destruct (trimEnd_prefix s) as [t Ht]. apply H.
  rewrite Ht. destruct (trimEnd s); [done|]. done.
Qed.

Lemma trim_clean s : cleanStart (trim s) ∧ cleanEnd (trim s).
Proof.
  split; [apply trimEnd_cleanStart, trimStart_cleanStart|apply trimEnd_cleanEnd].
Qed.

Lemma trim_id s : cleanStart s → cleanEnd s → trim s = s.
Proof. intros H1 H2. unfold trim. rewrite trimStart_id by done. by apply trimEnd_id. Qed.

Lemma trim_fixed s : trim s = s ↔ cleanStart s ∧ cleanEnd s.
Proof.
  split; [intros <-; apply trim_clean|intros [? ?]; by apply trim_id].
Qed.

Lemma trim_idempotent s : trim (trim s) = trim s.
Proof. apply trim_fixed, trim_clean. Qed.

Lemma collapse_nil_inv s : collapse s = [] → s = [].
Proof.
  destruct s as [|c r]; [done|]. destruct (isWhiteSpace c) eqn:Hc.
  - by rewrite collapse_white.
  - by rewrite collapse_other.
Qed.

Lemma collapse_cleanStart s : cleanStart s → cleanStart (collapse s).
Proof.
  destruct s as [|c r]; [done|]. intros H. specialize (H c eq_refl).
  rewrite collapse_other by done. by intros d [= <-].
Qed.

Lemma dropWhile_nil_last p (s : jsstring) c :
  dropWhile p s = [] → last s = Some c → p c = true.
Proof.
  induction s as [|d s IH]; [done|]. simpl. destruct (p d) eqn:Hd; [|done].
  intros Hs. destruct s as [|e s]; [by intros [= <-]|].
  rewrite last_cons_cons. by apply IH.
Qed.

Lemma last_dropWhile p (s : jsstring) :
  dropWhile p s ≠ [] → last (dropWhile p s) = last s.
Proof.
  induction s as [|d s IH]; [done|]. simpl. destruct (p d); [|done].
  intros Hne. rewrite IH by done. destruct s; [done|by rewrite last_cons_cons].
Qed.

Lemma collapse_cleanEnd s : cleanEnd s → cleanEnd (collapse s).
Proof.
  remember (length s) as n eqn:Hn. revert s Hn.
  induction n as [n IH] using lt_wf_ind. intros s Hn Hs.
  destruct s as [|c r]; [done|]. destruct (isWhiteSpace c) eqn:Hc.
  - rewrite collapse_white by done.
    destruct (dropWhile isWhiteSpace r) as [|d r'] eqn:Hr.
    + exfalso. destruct r as [|e r].
      * specialize (Hs c eq_refl). congruence.
      * destruct (last (e :: r)) as [x|] eqn:Hx; [|by apply last_None in Hx].
        pose proof (dropWhile_nil_last _ _ _ Hr Hx) as Hwx.
        rewrite (Hs x) in Hwx; [done|by rewrite last_cons_cons].
    + assert (cleanEnd (collapse (d :: r'))) as Hc'.
      { apply (IH (length (d :: r'))); [|done|].
        - rewrite <- Hr, length_dropWhile. simpl in Hn. lia.
        - intros x Hx. apply Hs. rewrite <- Hr, last_dropWhile in Hx by (by rewrite Hr).
          destruct r; [done|by rewrite last_cons_cons]. }
      intros x Hx. apply Hc'.
      destruct (collapse (d :: r')) eqn:Hcol; [by apply collapse_nil_inv in Hcol|].
      by rewrite last_cons_cons in Hx.
  - rewrite collapse_other by done. destruct r as [|d r'].
    + simpl. by intros x [= <-].
    + assert (cleanEnd (collapse (d :: r'))) as Hc'.
      { apply (IH (length (d :: r'))); [simpl in Hn; simpl; lia|done|].
        intros x Hx. apply Hs. by rewrite last_cons_cons. }
      intros x Hx. apply Hc'.
      destruct (collapse (d :: r')) eqn:Hcol; [by apply collapse_nil_inv in Hcol|].
      by rewrite last_cons_cons in Hx.
Qed.

Lemma collapse_idempotent s : collapse (collapse s) = collapse s.
Proof.
  remember (length s) as n eqn:Hn. revert s Hn.
  induction n as [n IH] using lt_wf_ind. intros s Hn.
  destruct s as [|c r]; [done|]. destruct (isWhiteSpace c) eqn:Hc.
  - rewrite collapse_white by done. rewrite collapse_white by done.
    f_equal. rewrite dropWhile_id.
    + apply (IH (length (dropWhile isWhiteSpace r))); [|done].
      rewrite length_dropWhile. simpl in Hn. lia.
    + apply collapse_cleanStart. intros d. apply head_dropWhile.
  - rewrite !collapse_other by done. f_equal.
    apply (IH (length r)); [simpl in Hn; lia|done].
Qed.

Lemma collapseSanitize_idempotent x :
  collapseSanitize (collapseSanitize x) = collapseSanitize x.
Proof.
  rewrite !collapseSanitize_eq.
  rewrite (trim_id (collapse (trim x))).
  - apply collapse_idempotent.
  - apply collapse_cleanStart, trim_clean.
  - apply collapse_cleanEnd, trim_clean.
Qed.

(** ** The walks are the loops of the language specification *)

Lemma matchHere_le ic r pre post len :
  matchHere ic r pre post = Some len → len ≤ length post.
Proof.
  unfold matchHere. destruct (matcher ic r Some (pre, post)); [|done].
  intros [= <-]. lia.
Qed.

Lemma scan_cons ic r pre c rest :
  matchHere ic r pre (c :: rest) = None →
  scan ic r pre (c :: rest)
  = (λ '(i, len), (S i, len)) <$> scan ic r (c :: pre) rest.
Proof. intros H. cbn [scan]. by rewrite H. Qed.

Lemma scan_here ic r pre post len :
  matchHere ic r pre post = Some len → scan ic r pre post = Some (0, len).
Proof. intros H. destruct post; cbn [scan]; by rewrite H. Qed.

Lemma scan_nil ic r pre :
  matchHere ic r pre [] = None → scan ic r pre [] = None.
Proof. intros H. cbn [scan]. by rewrite H. Qed.

(** The walk, cut at the first match. *)
Lemma matchAll_scan ic r post :
  ∀ pre,
    matchAll ic r pre post 0
    = match scan ic r pre post with
      | None => []
      | Some (i, len) =>
          take len (drop i post) ::
          if i + Nat.max 1 len <=? length post
          then matchAll ic r (reverse (take (i + Nat.max 1 len) post) ++ pre)
                        (drop (i + Nat.max 1 len) post) 0
          else []
      end.
Proof.
  induction post as [|c rest IH]; intros pre.
  - cbn [matchAll]. destruct (matchHere ic r pre []) as [len|] eqn:H.
    + rewrite (scan_here _ _ _ _ _ H). apply matchHere_le in H.
      simpl in H. by replace len with 0 by lia.
    + by rewrite (scan_nil _ _ _ H).
  - cbn [matchAll]. destruct (matchHere ic r pre (c :: rest)) as [len|] eqn:H.
    + rewrite (scan_here _ _ _ _ _ H). apply matchHere_le in H. simpl in H.
      rewrite drop_0. f_equal.
      replace (0 + Nat.max 1 len) with (S (pred len)) by lia.
      replace (S (pred len) <=? length (c :: rest)) with true
        by (symmetry; apply Nat.leb_le; simpl; lia).
      rewrite matchAll_skip by lia. cbn [take drop].
      by rewrite reverse_cons, <- app_assoc.
    + rewrite (scan_cons _ _ _ _ _ H), IH.
      destruct (scan ic r (c :: pre) rest) as [[i len]|]; [|done].
      cbn [fmap option_fmap option_map]. cbn [drop plus length take Nat.leb].
      f_equal. destruct (i + Nat.max 1 len <=? length rest); [|done].
      by rewrite reverse_cons, <- app_assoc.
Qed.

Lemma RegExpBuiltinExec_global r ic li str :
  RegExpBuiltinExec (mkRegExp r true ic li) str
  = if length str <? li then (None, mkRegExp r true ic 0)
    else match scan ic r (reverse (take li str)) (drop li str) with
         | None => (None, mkRegExp r true ic 0)
         | Some (i, len) => (Some (li + i, len), mkRegExp r true ic (li + i + len))
         end.
Proof. reflexivity. Qed.

(** With enough fuel the loop of the specification finds the matches of the
    walk. *)
Lemma execAll_matchAll r ic str fuel :
  ∀ li, li ≤ length str → length str + 2 ≤ fuel + li →
    matchedStrings str (execAll fuel (mkRegExp r true ic li) str)
    = matchAll ic r (reverse (take li str)) (drop li str) 0.
Proof.
  induction fuel as [|fuel IH]; intros li Hli Hfuel; [lia|].
  cbn [execAll]. rewrite RegExpBuiltinExec_global, matchAll_scan.
  replace (length str <? li) with false by (symmetry; apply Nat.ltb_ge; lia).
  destruct (scan ic r (reverse (take li str)) (drop li str)) as [[i len]|];
    [|done].
  cbn [matchedStrings fmap list_fmap]. rewrite drop_drop. f_equal.
  rewrite length_drop.
  assert (execAll fuel
            match len with
            | 0 => setLastIndex (mkRegExp r true ic (li + i + len))
                     (S (lastIndex (mkRegExp r true ic (li + i + len))))
            | S _ => mkRegExp r true ic (li + i + len)
            end str
          = execAll fuel (mkRegExp r true ic (li + (i + Nat.max 1 len))) str) as ->.
  { destruct len; unfold setLastIndex; cbn [source global ignoreCase lastIndex];
      do 2 f_equal; lia. }
  destruct (i + Nat.max 1 len <=? length str - li) eqn:Hj.
  - apply Nat.leb_le in Hj.
    rewrite drop_drop, <- reverse_app, take_take_drop.
    apply (IH (li + (i + Nat.max 1 len))); lia.
  - apply Nat.leb_gt in Hj. destruct fuel as [|fuel']; [done|].
    cbn [execAll]. rewrite RegExpBuiltinExec_global.
    by replace (length str <? li + (i + Nat.max 1 len)) with true
      by (symmetry; apply Nat.ltb_lt; lia).
Qed.

(** [String_match] is the loop of the specification run on the object with
    [lastIndex] reset to 0. *)
Lemma String_match_execAll str r ic li :
  String_match str (mkRegExp r true ic li)
  = match matchedStrings str
            (execAll (length str + 2) (mkRegExp r true ic 0) str) with
    | [] => None
    | ms => Some ms
    end.
Proof.
  unfold String_match. cbn [ignoreCase source].
  rewrite execAll_matchAll by lia. by rewrite take_0, drop_0.
Qed.

Lemma scan_bounds ic r post :
  ∀ pre i len, scan ic r pre post = Some (i, len) → i + len ≤ length post.
Proof.
  induction post as [|c rest IH]; intros pre i len.
  - cbn [scan]. destruct (matchHere ic r pre []) as [n|] eqn:H; [|done].
    intros [= <- <-]. by apply matchHere_le in H.
  - destruct (matchHere ic r pre (c :: rest)) as [n|] eqn:H.
    + rewrite (scan_here _ _ _ _ _ H). intros [= <- <-]. by apply matchHere_le in H.
    + rewrite (scan_cons _ _ _ _ _ H).
      destruct (scan ic r (c :: pre) rest) as [[j n]|] eqn:Hs; [|done].
      intros [= <- <-]. apply IH in Hs. simpl. lia.
Qed.

Lemma replaceAll_scan ic r rep post :
  ∀ pre,
    replaceAll ic r rep pre post 0
    = match scan ic r pre post with
      | None => post
      | Some (i, len) =>
          take i post ++ rep
          ++ match len with O => take 1 (drop i post) | S _ => [] end
          ++ if i + Nat.max 1 len <=? length post
             then replaceAll ic r rep
                    (reverse (take (i + Nat.max 1 len) post) ++ pre)
                    (drop (i + Nat.max 1 len) post) 0
             else []
      end.
Proof.
  induction post as [|c rest IH]; intros pre.
  - cbn [replaceAll]. destruct (matchHere ic r pre []) as [len|] eqn:H.
    + rewrite (scan_here _ _ _ _ _ H). apply matchHere_le in H.
      simpl in H. replace len with 0 by lia. by rewrite !app_nil_r.
    + by rewrite (scan_nil _ _ _ H).
  - cbn [replaceAll]. destruct (matchHere ic r pre (c :: rest)) as [len|] eqn:H.
    + rewrite (scan_here _ _ _ _ _ H). apply matchHere_le in H. simpl in H.
      rewrite take_0, drop_0. cbn [app]. f_equal.
      replace (0 + Nat.max 1 len) with (S (pred len)) by lia.
      replace (S (pred len) <=? length (c :: rest)) with true
        by (symmetry; apply Nat.leb_le; simpl; lia).
      rewrite replaceAll_skip by lia. cbn [take drop].
      rewrite reverse_cons, <- app_assoc. by destruct len.
    + rewrite (scan_cons _ _ _ _ _ H), IH.
      destruct (scan ic r (c :: pre) rest) as [[i len]|]; [|done].
      cbn [fmap option_fmap option_map]. cbn [drop plus length take Nat.leb app].
      do 4 f_equal. destruct (i + Nat.max 1 len <=? length rest); [|done].
      by rewrite reverse_cons, <- app_assoc.
Qed.

Lemma execAll_replaceAll r ic rep str fuel :
  ∀ li next, next ≤ li → li ≤ length str → length str + 2 ≤ fuel + li →
    substitute str rep (execAll fuel (mkRegExp r true ic li) str) next
    = take (li - next) (drop next str)
      ++ replaceAll ic r rep (reverse (take li str)) (drop li str) 0.
Proof.
  induction fuel as [|fuel IH]; intros li next Hnext Hli Hfuel; [lia|].
  cbn [execAll]. rewrite RegExpBuiltinExec_global, replaceAll_scan.
  replace (length str <? li) with false by (symmetry; apply Nat.ltb_ge; lia).
  assert (drop li str = drop (li - next) (drop next str)) as Hdrop
    by (rewrite drop_drop; f_equal; lia).
  destruct (scan ic r (reverse (take li str)) (drop li str)) as [[i len]|] eqn:Hs.
  - apply scan_bounds in Hs. rewrite length_drop in Hs.
    cbn [substitute].
    replace (next <=? li + i) with true by (symmetry; apply Nat.leb_le; lia).
    rewrite (app_assoc (take (li - next) _)). rewrite Hdrop at 1.
    rewrite take_take_drop. replace (li - next + i) with (li + i - next) by lia.
    do 2 f_equal. rewrite length_drop.
    assert (execAll fuel
              match len with
              | 0 => setLastIndex (mkRegExp r true ic (li + i + len))
                       (S (lastIndex (mkRegExp r true ic (li + i + len))))
              | S _ => mkRegExp r true ic (li + i + len)
              end str
            = execAll fuel (mkRegExp r true ic (li + (i + Nat.max 1 len))) str) as ->.
    { destruct len; unfold setLastIndex; cbn [source global ignoreCase lastIndex];
        do 2 f_equal; lia. }
    destruct (i + Nat.max 1 len <=? length str - li) eqn:Hj.
    + apply Nat.leb_le in Hj.
      rewrite (IH (li + (i + Nat.max 1 len)) (li + i + len)) by lia.
      rewrite !drop_drop, <- reverse_app, take_take_drop. f_equal.
      destruct len as [|len].
      * replace (li + (i + Nat.max 1 0) - (li + i + 0)) with 1 by lia.
        do 2 f_equal. lia.
      * by replace (li + (i + Nat.max 1 (S len)) - (li + i + S len)) with 0 by lia.
    + apply Nat.leb_gt in Hj. rewrite app_nil_r.
      assert (execAll fuel (mkRegExp r true ic (li + (i + Nat.max 1 len))) str = [])
        as ->.
      { destruct fuel as [|fuel']; [done|].
        cbn [execAll]. rewrite RegExpBuiltinExec_global.
        by replace (length str <? li + (i + Nat.max 1 len)) with true
          by (symmetry; apply Nat.ltb_lt; lia). }
      cbn [substitute]. destruct len as [|len].
      * rewrite drop_drop. replace (li + i + 0) with (li + i) by lia.
        rewrite !drop_ge by lia. done.
      * by rewrite drop_ge by lia.
  - cbn [substitute]. rewrite Hdrop. by rewrite take_drop.
Qed.

(** [String_replace] is the loop of the specification, followed by the
    substitution of the matches it found. *)
Lemma String_replace_execAll str r ic li rep :
  String_replace str (mkRegExp r true ic li) rep
  = substitute str rep (execAll (length str + 2) (mkRegExp r true ic 0) str) 0.
Proof.
  unfold String_replace. cbn [ignoreCase source].
  rewrite (execAll_replaceAll _ _ _ _ _ 0 0) by lia.
  by rewrite take_0, drop_0.
Qed.

(** ** The ASCII host satisfies the laws *)

Lemma isWhiteSpace_printable c : (33 ≤ c ≤ 159)%N → isWhiteSpace c = false.
Proof.
  intros Hc. unfold isWhiteSpace.
  repeat match goal with
         | |- (_ || _) = false => apply orb_false_intro
         | |- (_ && _) = false => apply andb_false_iff
         end;
    try (apply N.eqb_neq; lia); [right|left]; apply N.leb_gt; lia.
Qed.

Lemma isWhiteSpace_asciiLower c : isWhiteSpace (asciiLower c) = isWhiteSpace c.
Proof.
  unfold asciiLower, isUpperAscii.
  destruct ((65 <=? c) && (c <=? 90))%N eqn:Hc; [|done].
  apply andb_true_iff in Hc as [?%N.leb_le ?%N.leb_le].
  rewrite !isWhiteSpace_printable; [done|lia|lia].
Qed.

Lemma asciiLower_not_upper c : isUpperAscii (asciiLower c) = false.
Proof.
  unfold asciiLower. destruct (isUpperAscii c) eqn:Hc; [|done].
  unfold isUpperAscii in *.
  apply andb_true_iff in Hc as [?%N.leb_le ?%N.leb_le].
  apply andb_false_iff. right. apply N.leb_gt. lia.
Qed.

Lemma asciiLower_idempotent c : asciiLower (asciiLower c) = asciiLower c.
Proof. unfold asciiLower at 1. by rewrite asciiLower_not_upper. Qed.

Lemma cleanStart_map_asciiLower s : cleanStart s → cleanStart (map asciiLower s).
Proof.
  destruct s as [|c s]; [done|]. intros H d [= <-].
  rewrite isWhiteSpace_asciiLower. by apply H.
Qed.

Lemma cleanEnd_map_asciiLower s : cleanEnd s → cleanEnd (map asciiLower s).
Proof.
  intros H d Hd. apply last_Some in Hd as [l Hl].
  destruct (decide (s = [])) as [->|Hne]; [by destruct l|].
  apply last_is_Some in Hne as [e He]. pose proof He as He'.
  apply last_Some in He as [l' ->]. rewrite map_app in Hl. simpl in Hl.
  apply app_inj_tail in Hl as [_ <-]. rewrite isWhiteSpace_asciiLower. by apply H.
Qed.

Lemma asciiHost_laws : HostLaws asciiHost.
Proof.
  split; simpl.
  - intros s. rewrite map_map. apply map_ext. intros c. apply asciiLower_idempotent.
  - intros s [H1 H2]%trim_fixed. apply trim_fixed.
    split; [by apply cleanStart_map_asciiLower|by apply cleanEnd_map_asciiLower].
Qed.

Section Sanitizers.
Context {host : Host}.

(** C5: the sanitizer of every rule is idempotent: applied twice it yields
    what it yields applied once. The sanitizers are trim followed by the
    collapse of white-space runs (name, message), trim followed by the
    lower-case conversion (email) and trim (phone, service). *)
Theorem sanitize_idempotent {laws : HostLaws host}
    (fieldName : jsstring) (rules : ValidationRule) (x : jsstring) :
  getOwn VALIDATION_RULES fieldName = Some rules →
  ∃ sanitizer,
    sanitize rules = Some sanitizer
    ∧ sanitizer (sanitizer x) = sanitizer x
    ∧ ((fieldName = jstr "name" ∨ fieldName = jstr "message")
         ∧ sanitizer x = collapse (trim x)
       ∨ fieldName = jstr "email" ∧ sanitizer x = toLowerCase (trim x)
       ∨ (fieldName = jstr "phone" ∨ fieldName = jstr "service")
         ∧ sanitizer x = trim x).
Proof.
  intros H.
  destruct (getOwn_rules _ _ H) as [[-> ->]|[[-> ->]|[[-> ->]|[[-> ->]|[-> ->]]]]];
    eexists; (split; [reflexivity|]); simpl; split.
  - apply collapseSanitize_idempotent.
  - left. split; [by left|apply collapseSanitize_eq].
  - rewrite toLowerCase_trim by apply trim_idempotent. apply toLowerCase_idem.
  - right. left. done.
  - apply trim_idempotent.
  - right. right. split; [by left|done].
  - apply trim_idempotent.
  - right. right. split; [by right|done].
  - apply collapseSanitize_idempotent.
  - left. split; [by right|apply collapseSanitize_eq].
Qed.

End Sanitizers.

Lemma sanitize_idempotent_witness :
  getOwn (@VALIDATION_RULES asciiHost) (jstr "email") = Some (@emailRule asciiHost)
  ∧ ∃ sanitizer,
      sanitize (@emailRule asciiHost) = Some sanitizer
      ∧ sanitizer (sanitizer (jstr "  USER@Example.com "))
        = sanitizer (jstr "  USER@Example.com ")
      ∧ ((jstr "email" = jstr "name" ∨ jstr "email" = jstr "message")
           ∧ sanitizer (jstr "  USER@Example.com ")
             = collapse (trim (jstr "  USER@Example.com "))
         ∨ jstr "email" = jstr "email"
           ∧ sanitizer (jstr "  USER@Example.com ")
             = @toLowerCase asciiHost (trim (jstr "  USER@Example.com "))
         ∨ (jstr "email" = jstr "phone" ∨ jstr "email" = jstr "service")
           ∧ sanitizer (jstr "  USER@Example.com ")
             = trim (jstr "  USER@Example.com ")).
Proof.
  split; [reflexivity|].
  apply (@sanitize_idempotent asciiHost asciiHost_laws (jstr "email")
           (@emailRule asciiHost)).
  reflexivity.
Defined.

(** ** The length checks *)

Section LengthChecks.
Context {host : Host}.

Lemma tooShort_tooLong f n k : tooShort f n ≠ tooLong f k.
Proof. unfold tooShort, tooLong. intros H%app_inv_head. discriminate H. Qed.

Lemma customCheck_Some rules s e :
  customCheck rules s = Some e →
  ∃ check, additionalValidation rules = Some check ∧ check s rules = Some e.
Proof.
  unfold customCheck. destruct (additionalValidation rules) as [check|]; [|done].
  destruct (check s rules) as [[|c e']|] eqn:Hc; [done| |done].
  intros [= <-]. by exists check.
Qed.

Lemma emailCheck_messages s r e :
  emailCheck s r = Some e →
  e = jstr "Email cannot contain consecutive dots" ∨ e = jstr "Email local part too long".
Proof. unfold emailCheck. repeat case_match; intros ?; simplify_eq; tauto. Qed.

Lemma phoneCheck_messages s r e :
  phoneCheck s r = Some e →
  e = jstr "Phone number must contain at least 10 digits"
  ∨ e = jstr "Phone number must not exceed 15 digits".
Proof. unfold phoneCheck. repeat case_match; intros ?; simplify_eq; tauto. Qed.

Lemma firstSuspicious_message ps s e :
  firstSuspicious ps s = Some e → e = jstr "Message contains prohibited content".
Proof.
  induction ps as [|p ps IH]; [done|]. simpl.
  destruct (RegExp_test p s).1; [by intros [= <-]|done].
Qed.

Lemma messageCheck_messages s r e :
  messageCheck s r = Some e →
  e = jstr "Message contains too many links"
  ∨ e = jstr "Message contains prohibited content".
Proof.
  unfold messageCheck. destruct (2 <? _); [intros [= <-]; tauto|].
  intros H%firstSuspicious_message. tauto.
Qed.

(** The messages a rule can produce besides the one of the maximum length. *)
Lemma own_rule_other_messages f rules s k e :
  getOwn VALIDATION_RULES f = Some rules →
  maxLength rules = Some k →
  patternCheck rules s = Some e ∨ customCheck rules s = Some e →
  e ≠ tooLong f k.
Proof.
  intros H Hk [He|He].
  - revert k Hk He. unfold patternCheck.
    destruct (getOwn_rules _ _ H) as [[-> ->]|[[-> ->]|[[-> ->]|[[-> ->]|[-> ->]]]]];
      intros k Hk; simpl; try done;
      (destruct (RegExp_test _ s).1; [done|]);
      intros He; simpl in Hk; simplify_eq; by vm_compute.
  - apply customCheck_Some in He as (check & Hc & He). revert k check Hk Hc He.
    destruct (getOwn_rules _ _ H) as [[-> ->]|[[-> ->]|[[-> ->]|[[-> ->]|[-> ->]]]]];
      intros k check Hk Hc He; simpl in Hk, Hc; simplify_eq.
    + apply emailCheck_messages in He as [->| ->]; by vm_compute.
    + apply phoneCheck_messages in He as [->| ->]; by vm_compute.
    + apply messageCheck_messages in He as [->| ->]; by vm_compute.
Qed.

(** The messages a rule can produce besides the one of the minimum length. *)
Lemma own_rule_not_tooShort f rules s n e :
  getOwn VALIDATION_RULES f = Some rules →
  minLength rules = Some n →
  maxLengthCheck f rules s = Some e ∨ patternCheck rules s = Some e
  ∨ customCheck rules s = Some e →
  e ≠ tooShort f n.
Proof.
  intros H Hn [He|[He|He]].
  - unfold maxLengthCheck in He. destruct (maxLength rules) as [k|]; [|done].
    destruct (k <? length s); [|done]. injection He as <-.
    intros Heq. by apply (tooShort_tooLong f n k).
  - revert n Hn He. unfold patternCheck.
    destruct (getOwn_rules _ _ H) as [[-> ->]|[[-> ->]|[[-> ->]|[[-> ->]|[-> ->]]]]];
      intros n Hn; simpl; try done;
      (destruct (RegExp_test _ s).1; [done|]);
      intros He; simpl in Hn; simplify_eq; by vm_compute.
  - apply customCheck_Some in He as (check & Hc & He). revert n check Hn Hc He.
    destruct (getOwn_rules _ _ H) as [[-> ->]|[[-> ->]|[[-> ->]|[[-> ->]|[-> ->]]]]];
      intros n check Hn Hc He; simpl in Hn, Hc; simplify_eq.
    + apply phoneCheck_messages in He as [->| ->]; by vm_compute.
    + apply messageCheck_messages in He as [->| ->]; by vm_compute.
Qed.

(** C4 (amended): the two length checks compare the number of UTF-16 code
    units of the sanitized value, its [length]. A non-empty sanitized value
    with fewer code units than [minLength] fails with the at-least message;
    one that is long enough and has more code units than [maxLength] fails
    with the must-not-exceed message; one with at most [maxLength] code
    units is never rejected with that message; and one with at least
    [minLength] code units is never rejected with the at-least message. *)
Theorem length_checks_count_code_units (fieldName raw : jsstring) (rules : ValidationRule) :
  getOwn VALIDATION_RULES fieldName = Some rules →
  sanitizeOf rules raw ≠ [] →
  (∀ n, minLength rules = Some n → length (sanitizeOf rules raw) < n →
        validateField fieldName raw
        = failure (tooShort fieldName n) (sanitizeOf rules raw))
  ∧ (∀ k, maxLength rules = Some k →
          (∀ n, minLength rules = Some n → n ≤ length (sanitizeOf rules raw)) →
          k < length (sanitizeOf rules raw) →
          validateField fieldName raw
          = failure (tooLong fieldName k) (sanitizeOf rules raw))
  ∧ (∀ k, maxLength rules = Some k → length (sanitizeOf rules raw) ≤ k →
          error (validateField fieldName raw) ≠ Some (tooLong fieldName k))
  ∧ (∀ n, minLength rules = Some n → n ≤ length (sanitizeOf rules raw) →
          error (validateField fieldName raw) ≠ Some (tooShort fieldName n)).
Proof.
  intros Hown Hs. rewrite (validateField_own _ _ _ Hown).
  unfold evaluateInOrder. generalize dependent (sanitizeOf rules raw). intros s Hs.
  destruct s as [|c s]; [done|]. cbn [isEmptyString].
  unfold orderedChecks. cbn [firstFailure]. repeat split.
  - intros n Hn Hlt. unfold minLengthCheck. rewrite Hn.
    by rewrite (proj2 (Nat.ltb_lt _ _) Hlt).
  - intros k Hk Hmin Hlt. unfold minLengthCheck, maxLengthCheck. rewrite Hk.
    rewrite (proj2 (Nat.ltb_lt _ _) Hlt).
    destruct (minLength rules) as [n|]; [|done].
    by rewrite (proj2 (Nat.ltb_ge _ _) (Hmin n eq_refl)).
  - intros k Hk Hle.
    destruct (minLengthCheck fieldName rules (c :: s)) as [e|] eqn:Hmin.
    { simpl. unfold minLengthCheck in Hmin.
      destruct (minLength rules) as [n|]; [|done].
      destruct (length (c :: s) <? n); [|done]. injection Hmin as <-.
      intros [= He]. by apply tooShort_tooLong in He. }
    unfold maxLengthCheck. rewrite Hk, (proj2 (Nat.ltb_ge _ _) Hle).
    destruct (patternCheck rules (c :: s)) as [e|] eqn:Hpat.
    { simpl. intros [= He]. revert He.
      eapply own_rule_other_messages; [done..|by left]. }
    destruct (customCheck rules (c :: s)) as [e|] eqn:Hcus; [|done].
    simpl. intros [= He]. revert He.
    eapply own_rule_other_messages; [done..|by right].
  - intros n Hn Hle.
    assert (minLengthCheck fieldName rules (c :: s) = None) as ->.
    { unfold minLengthCheck. by rewrite Hn, (proj2 (Nat.ltb_ge _ _) Hle). }
    destruct (maxLengthCheck fieldName rules (c :: s)) as [e|] eqn:Hmax.
    { simpl. intros [= He]. revert He.
      eapply own_rule_not_tooShort; [done..|by left]. }
    destruct (patternCheck rules (c :: s)) as [e|] eqn:Hpat.
    { simpl. intros [= He]. revert He.
      eapply own_rule_not_tooShort; [done..|right; by left]. }
    destruct (customCheck rules (c :: s)) as [e|] eqn:Hcus; [|done].
    simpl. intros [= He]. revert He.
    eapply own_rule_not_tooShort; [done..|right; by right].
Qed.

End LengthChecks.

(** ** Literal words and the checks of the message *)

Lemma matcher_chars ic (w : jsstring) k pre post :
  matcher ic (seqs (Char <$> w)) k (pre, post)
  = match stripPrefix ic w post with
    | Some rest => k (reverse (take (length w) post) ++ pre, rest)
    | None => None
    end.
Proof.
  revert pre post. induction w as [|p w IH]; intros pre post; [done|].
  cbn [fmap list_fmap seqs foldr matcher stripPrefix].
  destruct post as [|c rest]; [done|]. cbn [charSetMatcher snd fst].
  destruct (charMatches ic p c); [|done].
  change (foldr Seq Empty (list_fmap _ _ Char w)) with (seqs (Char <$> w)).
  rewrite IH. destruct (stripPrefix ic w rest); [|done].
  cbn [length take]. by rewrite reverse_cons, <- app_assoc.
Qed.

Lemma asciiUpper_asciiLower c p :
  asciiUpper c = asciiUpper p ↔ asciiLower c = asciiLower p.
Proof.
  unfold asciiUpper, asciiLower, isLowerAscii, isUpperAscii.
  repeat match goal with
         | |- context [(?a <=? ?b)%N] => destruct (N.leb_spec a b)
         end; simpl; lia.
Qed.

Lemma charMatches_ignoreCase p c :
  charMatches true p c = bool_decide (asciiLower c = asciiLower p).
Proof.
  unfold charMatches, canonicalize. case_bool_decide as H.
  - apply N.eqb_eq. by apply asciiUpper_asciiLower.
  - apply N.eqb_neq. by rewrite asciiUpper_asciiLower.
Qed.

Lemma stripPrefix_afterPrefix w s : stripPrefix true w s = afterPrefix w s.
Proof.
  unfold afterPrefix, sameIgnoringCase. revert s.
  induction w as [|p w IH]; intros s.
  - by rewrite take_0, drop_0.
  - destruct s as [|c s]; [done|]. cbn [stripPrefix length take drop].
    rewrite charMatches_ignoreCase, IH.
    repeat case_bool_decide; try done; cbn [fmap list_fmap] in *; congruence.
Qed.

Lemma stripPrefix_app ic w1 w2 s :
  stripPrefix ic (w1 ++ w2) s = stripPrefix ic w1 s ≫= stripPrefix ic w2.
Proof.
  revert s. induction w1 as [|p w1 IH]; intros s; [done|].
  destruct s as [|c s]; [done|]. simpl. by destruct (charMatches ic p c).
Qed.

(** What a successful prefix test says about the input. *)
Lemma stripPrefix_Some ic w s rest :
  stripPrefix ic w s = Some rest →
  ∃ mid, s = mid ++ rest ∧ Forall2 (λ p c, charMatches ic p c = true) w mid.
Proof.
  revert s. induction w as [|p w IH]; intros s.
  - intros [= <-]. by exists [].
  - destruct s as [|c s]; [done|]. simpl.
    destruct (charMatches ic p c) eqn:Hc; [|done].
    intros (mid & -> & Hmid)%IH. exists (c :: mid). split; [done|]. by constructor.
Qed.

Lemma stripPrefix_complete ic w mid rest :
  Forall2 (λ p c, charMatches ic p c = true) w mid →
  stripPrefix ic w (mid ++ rest) = Some rest.
Proof. induction 1 as [|p c w mid Hc _ IH]; [done|]. simpl. by rewrite Hc. Qed.

Lemma isWhiteSpace_asciiUpper c : isWhiteSpace (asciiUpper c) = isWhiteSpace c.
Proof.
  unfold asciiUpper, isLowerAscii.
  destruct ((97 <=? c) && (c <=? 122))%N eqn:Hc; [|done].
  apply andb_true_iff in Hc as [?%N.leb_le ?%N.leb_le].
  rewrite !isWhiteSpace_printable; [done|lia|lia].
Qed.

Lemma classMatches_notSpace c :
  negb (classMatches true [Space] c) = notWhiteSpace c.
Proof.
  unfold classMatches, inClass, notWhiteSpace. simpl.
  rewrite isWhiteSpace_asciiUpper, isWhiteSpace_asciiLower.
  by destruct (isWhiteSpace c).
Qed.

Lemma takeWhile_ext p q (s : jsstring) :
  (∀ c, p c = q c) → takeWhile p s = takeWhile q s.
Proof. intros H. induction s as [|c s IH]; simpl; [done|]. by rewrite H, IH. Qed.

Lemma dropWhile_ext p q (s : jsstring) :
  (∀ c, p c = q c) → dropWhile p s = dropWhile q s.
Proof. intros H. induction s as [|c s IH]; simpl; [done|]. by rewrite H, IH. Qed.

Lemma matcher_urlTail pre r :
  snd <$> matcher true (Seq (Plus (NClass [Space])) Empty) Some (pre, r) = urlTail r.
Proof.
  change (matcher true (Seq (Plus (NClass [Space])) Empty) Some)
    with (matcher true (Plus (NClass [Space])) Some).
  rewrite (matcher_plus_charSet _ _ (λ c, negb (classMatches true [Space] c)))
    by done.
  destruct r as [|c r]; [done|]. unfold urlTail.
  rewrite classMatches_notSpace. destruct (notWhiteSpace c); [|done].
  cbn [fmap option_fmap option_map snd]. f_equal.
  apply dropWhile_ext, classMatches_notSpace.
Qed.

Lemma matcher_word_tail (w : jsstring) (R : Regex) pre post :
  snd <$> matcher true (Seq (seqs (Char <$> w)) R) Some (pre, post)
  = stripPrefix true w post
    ≫= λ rest, snd <$> matcher true R Some
                         (reverse (take (length w) post) ++ pre, rest).
Proof.
  change (matcher true (Seq (seqs (Char <$> w)) R) Some (pre, post))
    with (matcher true (seqs (Char <$> w)) (matcher true R Some) (pre, post)).
  rewrite matcher_chars. by destruct (stripPrefix true w post).
Qed.

Lemma matcher_urlPattern pre post :
  snd <$> matcher true urlPattern Some (pre, post) = urlRest post.
Proof.
  unfold urlPattern, urlRest, word. cbn [seqs foldr].
  rewrite matcher_word_tail.
  destruct (stripPrefix true (jstr "http") post) as [r1|]; [|done].
  cbn [mbind option_bind]. generalize (reverse (take (length (jstr "http")) post) ++ pre).
  intros pre1.
  change (matcher true (Seq (Opt (Char (chr "s"))) ?R) Some (pre1, r1))
    with (match matcher true (Char (chr "s")) (matcher true R Some) (pre1, r1) with
          | Some e => Some e
          | None => matcher true R Some (pre1, r1)
          end).
  assert (∀ pre' r,
    snd <$> matcher true
      (Seq (seqs (Char <$> jstr "://")) (Seq (Plus (NClass [Space])) Empty))
      Some (pre', r)
    = stripPrefix true (jstr "://") r ≫= urlTail) as Htail.
  { intros pre' r. rewrite matcher_word_tail.
    destruct (stripPrefix true (jstr "://") r); [|done].
    apply matcher_urlTail. }
  set (R := Seq (seqs (Char <$> jstr "://")) (Seq (Plus (NClass [Space])) Empty)) in *.
  clearbody R.
  change (jstr "s") with [chr "s"].
  destruct r1 as [|c r1'].
  - cbn [matcher charSetMatcher snd stripPrefix mbind option_bind]. apply Htail.
  - cbn [matcher charSetMatcher snd fst stripPrefix].
    destruct (charMatches true (chr "s") c).
    + cbn [mbind option_bind].
      rewrite <- (Htail (c :: pre1) r1'), <- (Htail pre1 (c :: r1')).
      by destruct (matcher true R Some (c :: pre1, r1')).
    + cbn [mbind option_bind]. apply Htail.
Qed.

Lemma charMatches_printable p c :
  printable p → charMatches true p c = true → notWhiteSpace c = true.
Proof.
  intros Hp Hc. rewrite charMatches_ignoreCase in Hc.
  apply bool_decide_eq_true in Hc. unfold notWhiteSpace.
  rewrite <- isWhiteSpace_asciiLower, Hc, isWhiteSpace_asciiLower.
  unfold printable in Hp. rewrite isWhiteSpace_printable; [done|lia].
Qed.

Lemma dropWhile_app_all p (a b : jsstring) :
  Forall (λ c, p c = true) a → dropWhile p (a ++ b) = dropWhile p b.
Proof. induction 1 as [|c a Hc _ IH]; [done|]. simpl. by rewrite Hc. Qed.

Lemma stripPrefix_dropWhile w s rest :
  Forall printable w → stripPrefix true w s = Some rest →
  dropWhile notWhiteSpace s = dropWhile notWhiteSpace rest.
Proof.
  intros Hw (mid & -> & Hmid)%stripPrefix_Some. apply dropWhile_app_all.
  clear -Hw Hmid. induction Hmid as [|p c w mid Hc _ IH]; [done|].
  inversion Hw; subst. constructor; [by eapply charMatches_printable|by apply IH].
Qed.

Lemma stripPrefix_urlTail w s :
  Forall printable w →
  stripPrefix true w s ≫= urlTail
  = if schemeHere w s then Some (dropWhile notWhiteSpace s) else None.
Proof.
  intros Hw. unfold schemeHere.
  destruct (stripPrefix true w s) as [r|] eqn:Hr; [|done].
  rewrite (stripPrefix_dropWhile _ _ _ Hw Hr).
  destruct r as [|c r]; [done|]. done.
Qed.

Lemma printable_jstr_schemes :
  Forall printable (jstr "http://") ∧ Forall printable (jstr "https://").
Proof. split; apply (bool_decide_unpack _); by vm_compute. Qed.

Lemma urlRest_startsUrl post :
  urlRest post = if startsUrl post then Some (dropWhile notWhiteSpace post) else None.
Proof.
  assert (urlRest post
          = match stripPrefix true (jstr "https://") post ≫= urlTail with
            | Some e => Some e
            | None => stripPrefix true (jstr "http://") post ≫= urlTail
            end) as ->.
  { unfold urlRest.
    change (jstr "https://") with (jstr "http" ++ (jstr "s" ++ jstr "://")).
    change (jstr "http://") with (jstr "http" ++ jstr "://").
    rewrite !stripPrefix_app.
    destruct (stripPrefix true (jstr "http") post) as [r1|]; [|done].
    cbn [mbind option_bind]. rewrite stripPrefix_app.
    by destruct (stripPrefix true (jstr "s") r1). }
  destruct printable_jstr_schemes as [H1 H2].
  rewrite !stripPrefix_urlTail by done.
  unfold startsUrl. cbn [existsb]. rewrite <- !stripPrefix_afterPrefix.
  fold (notWhiteSpace). unfold schemeHere, notWhiteSpace.
  destruct (stripPrefix true (jstr "https://") post) as [[|c r]|];
    destruct (stripPrefix true (jstr "http://") post) as [[|d r']|];
    rewrite ?orb_false_r; try done;
    repeat (match goal with |- context [isWhiteSpace ?x] => destruct (isWhiteSpace x) end);
    done.
Qed.

Lemma matchHere_urlPattern pre post :
  matchHere true urlPattern pre post
  = if startsUrl post then Some (length (takeWhile notWhiteSpace post)) else None.
Proof.
  unfold matchHere. pose proof (matcher_urlPattern pre post) as H.
  rewrite urlRest_startsUrl in H.
  destruct (matcher true urlPattern Some (pre, post)) as [[e1 e2]|];
    destruct (startsUrl post); try done.
  injection H as ->. cbn [fmap option_fmap option_map snd]. f_equal.
  rewrite length_dropWhile. pose proof (length_takeWhile_le notWhiteSpace post). lia.
Qed.

Lemma startsUrl_notWhiteSpace c r :
  startsUrl (c :: r) = true → isWhiteSpace c = false.
Proof.
  unfold startsUrl. cbn [existsb]. rewrite <- !stripPrefix_afterPrefix.
  rewrite orb_false_r. intros H.
  assert (charMatches true (chr "h") c = true) as Hc.
  { unfold jstr in H. cbn [stripPrefix] in H.
    change (N_of_ascii "h") with (chr "h") in H.
    destruct (charMatches true (chr "h") c); [done|]. done. }
  apply charMatches_printable in Hc; [|by vm_compute].
  unfold notWhiteSpace in Hc. by destruct (isWhiteSpace c).
Qed.

(** Counting the matches of the URL pattern is counting URLs. *)
Lemma matchAll_urlPattern post :
  ∀ pre,
    length (matchAll true urlPattern pre post 0) = countUrls false post
    ∧ length (matchAll true urlPattern pre post
                (length (takeWhile notWhiteSpace post)))
      = countUrls true post.
Proof.
  induction post as [|c r IH]; intros pre.
  - cbn [matchAll takeWhile length]. by rewrite matchHere_urlPattern.
  - assert (length (matchAll true urlPattern pre (c :: r) 0)
            = countUrls false (c :: r)) as H0.
    { cbn [matchAll countUrls]. rewrite matchHere_urlPattern.
      destruct (isWhiteSpace c) eqn:Hc.
      - destruct (startsUrl (c :: r)) eqn:Hs.
        + apply startsUrl_notWhiteSpace in Hs. congruence.
        + apply IH.
      - destruct (startsUrl (c :: r)) eqn:Hs; [|apply IH].
        cbn [takeWhile]. replace (notWhiteSpace c) with true
          by (unfold notWhiteSpace; by rewrite Hc).
        cbn [length pred]. f_equal. apply IH. }
    split; [done|].
    cbn [takeWhile countUrls].
    destruct (isWhiteSpace c) eqn:Hc.
    + replace (notWhiteSpace c) with false
        by (unfold notWhiteSpace; by rewrite Hc).
      cbn [length]. rewrite H0. cbn [countUrls]. by rewrite Hc.
    + replace (notWhiteSpace c) with true
        by (unfold notWhiteSpace; by rewrite Hc).
      cbn [length matchAll]. apply IH.
Qed.

Lemma schemeHere_white w t c r :
  Forall printable w → Forall (λ d, isWhiteSpace d = false) t →
  isWhiteSpace c = true →
  schemeHere w (t ++ c :: r) = schemeHere w t.
Proof.
  intros Hw Ht Hc. unfold schemeHere. revert t Ht.
  induction Hw as [|p w Hp Hw IH]; intros t Ht.
  - cbn [stripPrefix]. destruct t as [|d t]; [|done].
    cbn [app]. unfold notWhiteSpace. by rewrite Hc.
  - destruct t as [|d t]; cbn [app stripPrefix].
    + destruct (charMatches true p c) eqn:Hpc; [|done].
      apply (charMatches_printable _ _ Hp) in Hpc. unfold notWhiteSpace in Hpc.
      by rewrite Hc in Hpc.
    + inversion Ht; subst. destruct (charMatches true p d); [by apply IH|done].
Qed.

Lemma startsUrl_schemeHere s :
  startsUrl s = schemeHere (jstr "http://") s || schemeHere (jstr "https://") s.
Proof.
  unfold startsUrl, schemeHere, notWhiteSpace. cbn [existsb].
  rewrite <- !stripPrefix_afterPrefix. by rewrite orb_false_r.
Qed.

(** Whether a URL starts depends on the input up to the next white space
    only. *)
Lemma startsUrl_white t c r :
  Forall (λ d, isWhiteSpace d = false) t → isWhiteSpace c = true →
  startsUrl (t ++ c :: r) = startsUrl t.
Proof.
  intros Ht Hc. destruct printable_jstr_schemes as [H1 H2].
  by rewrite !startsUrl_schemeHere, !schemeHere_white.
Qed.

Lemma existsb_agree {A} (f g : A → bool) (l : list A) :
  (∀ x, In x l → f x = g x) → existsb f l = existsb g l.
Proof.
  induction l as [|x l IH]; intros H; [done|]. simpl.
  rewrite (H x) by (by left). rewrite IH; [done|]. intros y Hy. apply H. by right.
Qed.

(** A URL starts in [cur], read as the beginning of [cur ++ s]. *)
Lemma wordsFrom_countUrls s :
  ∀ cur, Forall (λ d, isWhiteSpace d = false) cur →
    length (filter (λ w, holdsUrl w = true) (wordsFrom cur s))
    = (if existsb (λ p, startsUrl (drop p (cur ++ s))) (seq 0 (length cur))
       then 1 else 0)
      + countUrls (existsb (λ p, startsUrl (drop p (cur ++ s))) (seq 0 (length cur))) s.
Proof.
  induction s as [|c r IH]; intros cur Hcur.
  - cbn [wordsFrom countUrls]. rewrite app_nil_r, Nat.add_0_r.
    fold (holdsUrl cur). destruct cur as [|d cur]; [done|].
    rewrite filter_cons, filter_nil.
    destruct (holdsUrl (d :: cur)); [by rewrite decide_True|by rewrite decide_False].
  - cbn [wordsFrom countUrls]. destruct (isWhiteSpace c) eqn:Hc.
    + assert (existsb (λ p, startsUrl (drop p (cur ++ c :: r))) (seq 0 (length cur))
              = holdsUrl cur) as ->.
      { unfold holdsUrl. apply existsb_agree. intros p Hp%in_seq.
        rewrite drop_app_le by lia.
        apply startsUrl_white; [|done]. by apply Forall_drop. }
      specialize (IH [] (Forall_nil_2 _)). cbn [length seq existsb] in IH.
      destruct cur as [|d cur]; [by rewrite IH|].
      rewrite filter_cons. destruct (holdsUrl (d :: cur)).
      * rewrite decide_True by done. cbn [length]. by rewrite IH.
      * rewrite decide_False by done. by rewrite IH.
    + rewrite IH by (apply Forall_app; split; [done|by constructor]).
      rewrite <- app_assoc. cbn [app].
      rewrite length_app. cbn [length]. rewrite Nat.add_1_r, seq_S.
      rewrite existsb_app. cbn [existsb plus]. rewrite orb_false_r.
      rewrite drop_app_length.
      destruct (existsb _ (seq 0 (length cur))); [done|]. cbn [orb].
      by destruct (startsUrl (c :: r)).
Qed.

(** The URL count is the number of words that hold a URL. *)
Lemma urlCount_words s :
  urlCount s = length (filter (λ w, holdsUrl w = true) (words s)).
Proof.
  unfold urlCount, words. by rewrite wordsFrom_countUrls.
Qed.

Lemma messageCheck_eq value rules :
  messageCheck value rules
  = if 2 <? urlCount value then Some (jstr "Message contains too many links")
    else firstSuspicious [literal scriptPattern true true; literal spamPattern true true]
                         value.
Proof.
  unfold messageCheck, String_match, urlCount. cbn [ignoreCase source literal].
  rewrite <- (proj1 (matchAll_urlPattern value [])).
  by destruct (matchAll true urlPattern [] value 0).
Qed.

Lemma scan_complete ic r pre a b :
  is_Some (matchHere ic r (reverse a ++ pre) b) → is_Some (scan ic r pre (a ++ b)).
Proof.
  revert pre. induction a as [|c a IH]; intros pre H.
  - change (reverse [] ++ pre) with pre in H. cbn [app]. destruct H as [n Hn].
    destruct b; cbn [scan]; rewrite Hn; by eexists.
  - cbn [app scan]. destruct (matchHere ic r pre (c :: a ++ b)); [by eexists|].
    rewrite reverse_cons, <- app_assoc in H. apply IH in H as [[i len] Hi].
    cbn [app] in Hi. rewrite Hi. by eexists.
Qed.

Lemma RegExp_test_literal r g ic s :
  is_Some (scan ic r [] s) → (RegExp_test (literal r g ic) s).1 = true.
Proof.
  intros [[i len] H]. unfold RegExp_test, RegExpBuiltinExec, literal.
  cbn [global lastIndex ignoreCase source].
  replace (if g then 0 else 0) with 0 by by destruct g.
  rewrite take_0, drop_0. change (reverse []) with (@nil N). by rewrite H.
Qed.

Lemma RegExp_test_contains r g ic s pre mid post :
  s = pre ++ mid ++ post →
  is_Some (matcher ic r Some (reverse pre, mid ++ post)) →
  (RegExp_test (literal r g ic) s).1 = true.
Proof.
  intros -> H. apply RegExp_test_literal, scan_complete.
  rewrite app_nil_r. unfold matchHere. destruct H as [e ->]. by eexists.
Qed.

Lemma sameIgnoringCase_Forall2 mid w :
  sameIgnoringCase mid w → Forall2 (λ p c, charMatches true p c = true) w mid.
Proof.
  unfold sameIgnoringCase. revert mid.
  induction w as [|p w IH]; intros [|c mid] H; try done.
  injection H as Hc H. constructor; [|by apply IH].
  rewrite charMatches_ignoreCase. by apply bool_decide_eq_true.
Qed.

Lemma matcher_word_here (w : jsstring) k pre mid post :
  sameIgnoringCase mid w →
  matcher true (seqs (Char <$> w)) k (pre, mid ++ post) = k (reverse mid ++ pre, post).
Proof.
  intros H. rewrite matcher_chars.
  rewrite (stripPrefix_complete _ _ _ _ (sameIgnoringCase_Forall2 _ _ H)).
  assert (length w = length mid) as ->.
  { apply (f_equal length) in H. by rewrite !length_fmap in H. }
  by rewrite take_app_length.
Qed.

(** A message that contains [<script], in any letter case, is hit by the
    script pattern. *)
Lemma scriptPattern_hit s :
  containsIgnoringCase (jstr "<script") s →
  (RegExp_test (literal scriptPattern true true) s).1 = true.
Proof.
  intros (pre & mid & post & Hs & Hmid).
  apply (RegExp_test_contains _ _ _ _ pre mid post Hs).
  unfold scriptPattern, word. rewrite matcher_word_here by done. by eexists.
Qed.

Lemma isWordChar_asciiLower c : isWordChar (asciiLower c) = isWordChar c.
Proof.
  unfold asciiLower. destruct (isUpperAscii c) eqn:Hu; [|done].
  unfold isWordChar. rewrite Hu. unfold isUpperAscii in Hu.
  apply andb_true_iff in Hu as [?%N.leb_le ?%N.leb_le].
  replace (isLowerAscii (c + 32)) with true; [by rewrite orb_true_r|].
  symmetry. apply andb_true_iff. split; apply N.leb_le; lia.
Qed.

Lemma sameIgnoringCase_wordChars mid w :
  sameIgnoringCase mid w →
  Forall (λ c, isWordChar c = true) w → Forall (λ c, isWordChar c = true) mid.
Proof.
  unfold sameIgnoringCase. revert mid.
  induction w as [|p w IH]; intros [|c mid] H Hw; try done.
  injection H as Hc H. inversion Hw; subst. constructor; [|by apply IH].
  by rewrite <- isWordChar_asciiLower, Hc, isWordChar_asciiLower.
Qed.

Lemma spamWords_wordChars w :
  w ∈ spamWords → jstr w ≠ [] ∧ Forall (λ c, isWordChar c = true) (jstr w).
Proof.
  unfold spamWords. rewrite !elem_of_cons, elem_of_nil.
  intros [->|[->|[->|[->|[]]]]]; (split; [done|]);
    apply (bool_decide_unpack _); by vm_compute.
Qed.

Lemma atBoundary_start pre mid post c :
  (∀ d, last pre = Some d → isWordChar d = false) →
  head mid = Some c → isWordChar c = true →
  atBoundary (reverse pre, mid ++ post) = true.
Proof.
  intros Hpre Hc Hw. unfold atBoundary. cbn [fst snd].
  rewrite head_reverse. destruct mid as [|c' mid]; [done|]. injection Hc as ->.
  cbn [app head from_option]. rewrite Hw.
  destruct (last pre) as [d|]; [|done]. cbn [from_option]. by rewrite (Hpre d).
Qed.

Lemma atBoundary_end pre mid post c :
  (∀ d, head post = Some d → isWordChar d = false) →
  last mid = Some c → isWordChar c = true →
  atBoundary (reverse mid ++ pre, post) = true.
Proof.
  intros Hpost Hc Hw. unfold atBoundary. cbn [fst snd].
  apply last_Some in Hc as [mid' ->]. rewrite reverse_snoc.
  cbn [app head from_option]. rewrite Hw.
  destruct (head post) as [d|]; [|done]. cbn [from_option]. by rewrite (Hpost d).
Qed.

(** A message that contains a spam keyword as a whole word is hit by the
    keyword pattern. *)
Lemma spamPattern_hit s :
  containsSpamWord s → (RegExp_test (literal spamPattern true true) s).1 = true.
Proof.
  intros (w & Hw & pre & mid & post & Hs & Hmid & Hpre & Hpost).
  apply (RegExp_test_contains _ _ _ _ pre mid post Hs).
  destruct (spamWords_wordChars _ Hw) as [Hne Hall].
  pose proof (sameIgnoringCase_wordChars _ _ Hmid Hall) as Hmidw.
  assert (mid ≠ []) as Hmne.
  { intros ->. apply Hne. unfold sameIgnoringCase in Hmid.
    by destruct (jstr w). }
  destruct (head mid) as [c0|] eqn:Hc0; [|by apply head_None in Hc0].
  destruct (last mid) as [c1|] eqn:Hc1; [|by apply last_None in Hc1].
  assert (isWordChar c0 = true) as Hw0.
  { eapply Forall_forall in Hmidw; [done|]. by eapply head_Some_elem_of. }
  assert (isWordChar c1 = true) as Hw1.
  { eapply Forall_forall in Hmidw; [done|]. by eapply last_Some_elem_of. }
  unfold spamPattern. cbn [seqs foldr].
  change (matcher true (Seq WordBoundary ?R) Some ?st)
    with (if atBoundary st then matcher true R Some st else None).
  rewrite (atBoundary_start _ _ _ _ Hpre Hc0 Hw0).
  set (K := matcher true (Seq WordBoundary Empty) Some).
  assert (matcher true (seqs (Char <$> jstr w)) K (reverse pre, mid ++ post)
          = Some (reverse mid ++ reverse pre, post)) as Hhit.
  { rewrite matcher_word_here by done. unfold K. cbn [matcher].
    by rewrite (atBoundary_end _ _ _ _ Hpost Hc1 Hw1). }
  change (matcher true (Seq ?A (Seq WordBoundary Empty)) Some ?st)
    with (matcher true A K st).
  unfold word. cbn [matcher].
  unfold spamWords in Hw. rewrite !elem_of_cons, elem_of_nil in Hw.
  destruct Hw as [->|[->|[->|[->|[]]]]]; rewrite Hhit;
    repeat (match goal with
            | |- context [match ?x with Some _ => _ | None => _ end] =>
                destruct x
            end); by eexists.
Qed.

Section MessageField.
Context {host : Host}.

Lemma customCheck_hit rules check s e :
  additionalValidation rules = Some check → check s rules = Some e → e ≠ [] →
  customCheck rules s = Some e.
Proof.
  intros Hc He Hne. unfold customCheck. rewrite Hc, He. by destruct e.
Qed.

Lemma validateField_message raw e :
  collapseSanitize raw ≠ [] → length (collapseSanitize raw) ≤ 1000 →
  messageCheck (collapseSanitize raw) messageRule = Some e → e ≠ [] →
  validateField (jstr "message") raw = failure e (collapseSanitize raw).
Proof.
  intros Hne Hlen He Hnil.
  rewrite (validateField_own _ messageRule) by reflexivity.
  unfold evaluateInOrder. change (sanitizeOf messageRule raw) with (collapseSanitize raw).
  destruct (collapseSanitize raw) as [|c s] eqn:Hs; [done|]. cbn [isEmptyString].
  unfold orderedChecks. cbn [firstFailure].
  unfold minLengthCheck, maxLengthCheck, patternCheck.
  cbn [minLength maxLength pattern props messageRule].
  rewrite (proj2 (Nat.ltb_ge _ _) Hlen).
  replace (length (c :: s) <? 0) with false by (symmetry; by apply Nat.ltb_ge; lia).
  by rewrite (customCheck_hit _ messageCheck _ e).
Qed.

(** C7: a message whose sanitized form is not empty and has at most 1000
    code units is rejected when it holds more than two URLs, with the
    too-many-links message, and otherwise when it contains [<script] or one
    of the spam keywords as a whole word, with the prohibited-content
    message. *)
Theorem message_spam_rejected (raw : jsstring) :
  collapseSanitize raw ≠ [] → length (collapseSanitize raw) ≤ 1000 →
  (2 < urlCount (collapseSanitize raw) →
   validateField (jstr "message") raw
   = failure (jstr "Message contains too many links") (collapseSanitize raw))
  ∧ (urlCount (collapseSanitize raw) ≤ 2 →
     containsIgnoringCase (jstr "<script") (collapseSanitize raw)
     ∨ containsSpamWord (collapseSanitize raw) →
     validateField (jstr "message") raw
     = failure (jstr "Message contains prohibited content") (collapseSanitize raw)).
Proof.
  intros Hne Hlen. split.
  - intros Hurl. apply validateField_message; [done..| |done].
    rewrite messageCheck_eq. by rewrite (proj2 (Nat.ltb_lt _ _) Hurl).
  - intros Hurl Hbad. apply validateField_message; [done..| |done].
    rewrite messageCheck_eq, (proj2 (Nat.ltb_ge _ _) Hurl).
    cbn [firstSuspicious]. destruct Hbad as [Hscript|Hspam].
    + by rewrite scriptPattern_hit.
    + rewrite spamPattern_hit by done. by destruct (RegExp_test _ _).1.
Qed.

End MessageField.

(** * Further properties of the module *)

(** ** What a pattern matches

    The matcher finds a match exactly where the pattern has one in the
    declarative sense. *)

Lemma charSetMatcher_Some p k st e :
  charSetMatcher p k st = Some e →
  ∃ d post, st.2 = d :: post ∧ p d = true ∧ k (d :: st.1, post) = Some e.
Proof.
  unfold charSetMatcher. destruct st.2 as [|d post]; [done|].
  destruct (p d) eqn:Hd; [|done]. intros H. by exists d, post.
Qed.

Lemma repeatMatcher_sound ic r n :
  (∀ k st e, matcher ic r k st = Some e →
             ∃ st', Matches ic r st st' ∧ k st' = Some e) →
  ∀ k st e, repeatMatcher (matcher ic r) n k st = Some e →
            ∃ st', Matches ic (Star r) st st' ∧ k st' = Some e.
Proof.
  intros Hr. induction n as [|n IH]; intros k st e.
  - cbn [repeatMatcher]. intros H. exists st. split; [constructor|done].
  - cbn [repeatMatcher].
    destruct (matcher ic r _ st) as [e'|] eqn:Hm.
    + intros [= ->]. apply Hr in Hm as (st2 & H12 & Hk).
      destruct (length st2.2 <? length st.2) eqn:Hlt; [|done].
      apply Nat.ltb_lt in Hlt. apply IH in Hk as (st3 & H23 & Hk).
      exists st3. split; [|done]. by eapply Matches_Star_more.
    + intros H. exists st. split; [constructor|done].
Qed.

(** The matcher finds only what the pattern matches. *)
Lemma matcher_sound ic r :
  ∀ k st e, matcher ic r k st = Some e →
            ∃ st', Matches ic r st st' ∧ k st' = Some e.
Proof.
  induction r as [|c|items|items|r1 IH1 r2 IH2|r1 IH1 r2 IH2|r IH| | |];
    intros k st e; cbn [matcher].
  - intros H. exists st. split; [constructor|done].
  - intros (d & post & Hst & Hd & Hk)%charSetMatcher_Some.
    destruct st as [pre post']. simpl in *. subst.
    eexists. split; [by constructor|done].
  - intros (d & post & Hst & Hd & Hk)%charSetMatcher_Some.
    destruct st as [pre post']. simpl in *. subst.
    eexists. split; [by constructor|done].
  - intros (d & post & Hst & Hd & Hk)%charSetMatcher_Some.
    destruct st as [pre post']. simpl in *. subst.
    eexists. split; [constructor; by apply negb_true_iff|done].
  - intros (st2 & H12 & (st3 & H23 & Hk)%IH2)%IH1.
    exists st3. split; [by econstructor|done].
  - destruct (matcher ic r1 k st) as [e'|] eqn:H1.
    + intros [= ->]. apply IH1 in H1 as (st' & H & Hk).
      exists st'. split; [by apply Matches_Alt_l|done].
    + intros (st' & H & Hk)%IH2. exists st'. split; [by apply Matches_Alt_r|done].
  - by apply repeatMatcher_sound.
  - destruct st as [[|c pre] post]; [|done]. intros H.
    eexists. split; [constructor|done].
  - destruct st as [pre [|c post]]; [|done]. intros H.
    eexists. split; [constructor|done].
  - destruct (atBoundary st) eqn:Hb; [|done]. intros H.
    eexists. split; [by constructor|done].
Qed.

(** The matcher finds a match whenever the pattern has one that the
    continuation accepts. *)
Lemma matcher_complete ic r st st' :
  Matches ic r st st' →
  ∀ k, is_Some (k st') → is_Some (matcher ic r k st).
Proof.
  induction 1 as [st|c d pre post Hd|items d pre post Hd|items d pre post Hd
                 |r1 r2 st1 st2 st3 _ IH1 _ IH2|r1 r2 st st' _ IH|r1 r2 st st' _ IH
                 |r st|r st1 st2 st3 _ IH1 Hlt _ IH2|post|pre|st Hb];
    intros k Hk.
  - done.
  - cbn [matcher charSetMatcher snd fst]. by rewrite Hd.
  - cbn [matcher charSetMatcher snd fst]. by rewrite Hd.
  - cbn [matcher charSetMatcher snd fst]. by rewrite Hd.
  - cbn [matcher]. apply IH1. by apply IH2.
  - cbn [matcher]. destruct (IH k Hk) as [e ->]. by eexists.
  - cbn [matcher]. destruct (matcher ic r1 k st); [by eexists|]. by apply IH.
  - rewrite matcher_Star_unfold. destruct (matcher ic r _ st); [by eexists|done].
  - rewrite matcher_Star_unfold.
    assert (is_Some (matcher ic r
              (λ st', if length st'.2 <? length st1.2
                      then matcher ic (Star r) k st' else None) st1)) as [e ->];
      [|by eexists].
    apply IH1. rewrite (proj2 (Nat.ltb_lt _ _) Hlt). by apply IH2.
  - done.
  - done.
  - cbn [matcher]. by rewrite Hb.
Qed.

Lemma matchHere_is_Some ic r pre post :
  is_Some (matchHere ic r pre post) ↔ ∃ st', Matches ic r (pre, post) st'.
Proof.
  unfold matchHere. split.
  - intros [n Hn]. destruct (matcher ic r Some (pre, post)) as [e|] eqn:He; [|done].
    apply matcher_sound in He as (st' & H & _). by exists st'.
  - intros [st' H]. destruct (matcher_complete _ _ _ _ H Some) as [e ->]; by eexists.
Qed.

Lemma scan_sound ic r post :
  ∀ pre, is_Some (scan ic r pre post) →
         ∃ a b, post = a ++ b ∧ is_Some (matchHere ic r (reverse a ++ pre) b).
Proof.
  induction post as [|c rest IH]; intros pre.
  - cbn [scan]. destruct (matchHere ic r pre []) eqn:H; [|by intros [? ?]].
    intros _. exists [], []. split; [done|].
    change (reverse [] ++ pre) with pre. rewrite H. by eexists.
  - cbn [scan]. destruct (matchHere ic r pre (c :: rest)) eqn:H.
    + intros _. exists [], (c :: rest). split; [done|].
      change (reverse [] ++ pre) with pre. rewrite H. by eexists.
    + intros Hs. destruct (scan ic r (c :: pre) rest) eqn:Hsc; [|by destruct Hs].
      destruct (IH (c :: pre)) as (a & b & -> & Hm); [by rewrite Hsc|].
      exists (c :: a), b. split; [done|].
      by rewrite reverse_cons, <- app_assoc.
Qed.

Lemma RegExp_test_literal_inv r g ic s :
  (RegExp_test (literal r g ic) s).1 = true → is_Some (scan ic r [] s).
Proof.
  unfold RegExp_test, RegExpBuiltinExec, literal.
  cbn [global lastIndex ignoreCase source].
  replace (if g then 0 else 0) with 0 by by destruct g.
  rewrite take_0, drop_0. change (reverse []) with (@nil N).
  destruct (scan ic r [] s) as [[i len]|]; [by eexists|]. by destruct g.
Qed.

(** [test] on a fresh object answers whether some part of the string
    matches the pattern. *)
Lemma RegExp_test_literal_iff r g ic s :
  (RegExp_test (literal r g ic) s).1 = true
  ↔ ∃ a b st', s = a ++ b ∧ Matches ic r (reverse a, b) st'.
Proof.
  split.
  - intros H%RegExp_test_literal_inv. apply scan_sound in H as (a & b & -> & Hm).
    rewrite app_nil_r in Hm. apply matchHere_is_Some in Hm as [st' Hm].
    by exists a, b, st'.
  - intros (a & b & st' & -> & Hm). apply RegExp_test_literal, scan_complete.
    rewrite app_nil_r. apply matchHere_is_Some. by exists st'.
Qed.

(** ** Patterns that repeat one class *)

Lemma Matches_single ic r P st st' :
  single ic r = Some P →
  (Matches ic r st st'
   ↔ ∃ d pre post, st = (pre, d :: post) ∧ st' = (d :: pre, post) ∧ P d = true).
Proof.
  intros Hr. split.
  - destruct r; try done; injection Hr as <-; inversion 1; subst;
      eexists _, _, _; (split; [done|]; split; [done|]); [done..|].
    by apply negb_true_iff.
  - intros (d & pre & post & -> & -> & Hd).
    destruct r; try done; injection Hr as <-; constructor; [done..|].
    by apply negb_true_iff.
Qed.

Lemma Matches_Star_single ic r P pre post st' :
  single ic r = Some P →
  (Matches ic (Star r) (pre, post) st'
   ↔ ∃ x rest, post = x ++ rest ∧ Forall (λ c, P c = true) x
               ∧ st' = (reverse x ++ pre, rest)).
Proof.
  intros Hr. split.
  - remember (Star r) as r' eqn:Hr'. remember (pre, post) as st eqn:Hst.
    intros H. revert pre post Hst.
    induction H as [| | | | | | |r0 st|r0 st1 st2 st3 H12 _ Hlt H23 IH| | |];
      try done; injection Hr' as ->; intros pre post ->.
    + exists [], post. by repeat split.
    + apply (Matches_single _ _ _ _ _ Hr) in H12
        as (d & pre' & post' & Heq & -> & Hd).
      injection Heq as -> ->.
      destruct (IH eq_refl _ _ eq_refl) as (x & rest & -> & Hx & ->).
      exists (d :: x), rest. split; [done|]. split; [by constructor|].
      by rewrite reverse_cons, <- app_assoc.
  - intros (x & rest & -> & Hx & ->). revert pre.
    induction Hx as [|d x Hd _ IH]; intros pre; [constructor|].
    apply (Matches_Star_more _ _ _ (d :: pre, x ++ rest)).
    + apply (Matches_single _ _ _ _ _ Hr). by eexists _, _, _.
    + cbn [snd app length]. lia.
    + rewrite reverse_cons, <- app_assoc. apply IH.
Qed.

Lemma Matches_Seq_inv ic r1 r2 st st'' :
  Matches ic (Seq r1 r2) st st''
  ↔ ∃ st', Matches ic r1 st st' ∧ Matches ic r2 st' st''.
Proof.
  split; [inversion 1; subst; by eexists|intros (st' & ? & ?); by econstructor].
Qed.

Lemma Matches_Plus_single ic r P pre post st' :
  single ic r = Some P →
  (Matches ic (Plus r) (pre, post) st'
   ↔ ∃ x rest, post = x ++ rest ∧ x ≠ [] ∧ Forall (λ c, P c = true) x
               ∧ st' = (reverse x ++ pre, rest)).
Proof.
  intros Hr. unfold Plus. rewrite Matches_Seq_inv. split.
  - intros (st1 & (d & pre' & post' & Heq & -> & Hd)%(Matches_single _ _ _ _ _ Hr)
            & (x & rest & -> & Hx & ->)%(Matches_Star_single _ _ _ _ _ _ Hr)).
    injection Heq as -> ->. exists (d :: x), rest. repeat split; [done|by constructor|].
    by rewrite reverse_cons, <- app_assoc.
  - intros (x & rest & -> & Hne & Hx & ->). destruct Hx as [|d x Hd Hx]; [done|].
    exists (d :: pre, x ++ rest). split.
    + apply (Matches_single _ _ _ _ _ Hr). by eexists _, _, _.
    + apply (Matches_Star_single _ _ _ _ _ _ Hr). exists x, rest.
      repeat split; [done|]. by rewrite reverse_cons, <- app_assoc.
Qed.

Lemma Matches_Bol_inv ic st st' :
  Matches ic Bol st st' ↔ st.1 = [] ∧ st' = st.
Proof.
  split; [by inversion 1|]. destruct st as [pre post]. intros [Hp ->].
  simpl in Hp. subst. constructor.
Qed.

Lemma Matches_Eol_inv ic st st' :
  Matches ic Eol st st' ↔ st.2 = [] ∧ st' = st.
Proof.
  split; [by inversion 1|]. destruct st as [pre post]. intros [Hp ->].
  simpl in Hp. subst. constructor.
Qed.

Lemma Matches_Empty_inv ic st st' : Matches ic Empty st st' ↔ st' = st.
Proof. split; [by inversion 1|intros ->; constructor]. Qed.

(** A pattern [^[...]+$] accepts the non-empty strings made of members of
    the class. *)
Lemma anchored_run_test ic g r P s :
  single ic r = Some P →
  (RegExp_test (literal (seqs [Bol; Plus r; Eol]) g ic) s).1 = true
  ↔ s ≠ [] ∧ Forall (λ c, P c = true) s.
Proof.
  intros Hr. rewrite RegExp_test_literal_iff. cbn [seqs foldr]. split.
  - intros (a & b & st' & -> & H).
    apply Matches_Seq_inv in H as (st1 & [Ha ->]%Matches_Bol_inv & H).
    simpl in Ha. apply (f_equal reverse) in Ha.
    rewrite reverse_involutive in Ha. subst a.
    apply Matches_Seq_inv in H as (st2 & H & H2).
    apply (Matches_Plus_single _ _ _ _ _ _ Hr) in H as (x & rest & -> & Hne & Hx & ->).
    apply Matches_Seq_inv in H2 as (st3 & [Hrest ->]%Matches_Eol_inv & _).
    simpl in Hrest. subst rest. rewrite app_nil_r. split; [|done].
    by destruct x.
  - intros [Hne Hs]. exists [], s, (reverse s ++ [], []). split; [done|].
    apply Matches_Seq_inv. exists ([], s). split; [constructor|].
    apply Matches_Seq_inv. exists (reverse s ++ [], []). split.
    + apply (Matches_Plus_single _ _ _ _ _ _ Hr). exists s, [].
      by rewrite app_nil_r.
    + apply Matches_Seq_inv. eexists. split; constructor.
Qed.

(** ** The fields one by one: when a value is accepted *)

Section NameField.
Context {host : Host}.

(** When the evaluator accepts a value of a rule-table field. *)
Lemma validateField_valid_iff f rules raw :
  getOwn VALIDATION_RULES f = Some rules →
  valid (validateField f raw) = true
  ↔ (sanitizeOf rules raw = [] ∧ truthy (required rules) = false)
    ∨ (sanitizeOf rules raw ≠ []
       ∧ minLengthCheck f rules (sanitizeOf rules raw) = None
       ∧ maxLengthCheck f rules (sanitizeOf rules raw) = None
       ∧ patternCheck rules (sanitizeOf rules raw) = None
       ∧ customCheck rules (sanitizeOf rules raw) = None).
Proof.
  intros Hown. rewrite (validateField_own _ _ _ Hown). unfold evaluateInOrder.
  generalize (sanitizeOf rules raw). intros s.
  destruct s as [|c s]; cbn [isEmptyString].
  - destruct (truthy (required rules)); simpl; intuition congruence.
  - unfold orderedChecks. cbn [firstFailure].
    destruct (minLengthCheck f rules (c :: s)),
      (maxLengthCheck f rules (c :: s)), (patternCheck rules (c :: s)),
      (customCheck rules (c :: s)); simpl; intuition congruence.
Qed.

Lemma minLengthCheck_None f (rules : ValidationRule) s n :
  minLength rules = Some n → minLengthCheck f rules s = None ↔ n ≤ length s.
Proof.
  intros Hn. unfold minLengthCheck. rewrite Hn.
  destruct (length s <? n) eqn:Hlt.
  - apply Nat.ltb_lt in Hlt. split; [done|lia].
  - apply Nat.ltb_ge in Hlt. done.
Qed.

Lemma maxLengthCheck_None f (rules : ValidationRule) s n :
  maxLength rules = Some n → maxLengthCheck f rules s = None ↔ length s ≤ n.
Proof.
  intros Hn. unfold maxLengthCheck. rewrite Hn.
  destruct (n <? length s) eqn:Hlt.
  - apply Nat.ltb_lt in Hlt. split; [done|lia].
  - apply Nat.ltb_ge in Hlt. done.
Qed.

Lemma patternCheck_None (rules : ValidationRule) s re msg :
  pattern rules = Some re → message rules = Some msg →
  patternCheck rules s = None ↔ (RegExp_test re s).1 = true.
Proof.
  intros Hre Hmsg. unfold patternCheck. rewrite Hre, Hmsg.
  by destruct (RegExp_test re s).1.
Qed.

Lemma collapse_white_is_space s :
  Forall (λ c, isWhiteSpace c = true → c = 32%N) (collapse s).
Proof.
  induction s as [|c r IH]; [constructor|].
  destruct r as [|d r'].
  - simpl. destruct (isWhiteSpace c) eqn:Hc; repeat constructor; congruence.
  - rewrite collapse_cons2.
    destruct (isWhiteSpace c) eqn:Hc; [destruct (isWhiteSpace d)|];
      try done; constructor; try done; congruence.
Qed.

Lemma nameClass_nameChar c :
  classMatches false
    [Range (chr "a") (chr "z"); Range (chr "A") (chr "Z"); Space;
     One (chr "'"); One (chr "-")] c
  = isLowerAscii c || isUpperAscii c || isWhiteSpace c || (c =? 39)%N || (c =? 45)%N.
Proof.
  unfold classMatches, inClass. cbn [existsb itemMatches andb].
  rewrite !orb_false_r. unfold isLowerAscii, isUpperAscii.
  change (chr "a") with 97%N. change (chr "z") with 122%N.
  change (chr "A") with 65%N. change (chr "Z") with 90%N.
  change (chr "'") with 39%N. change (chr "-") with 45%N.
  by rewrite !orb_assoc.
Qed.

(** X1: the name field: the sanitized name is the trimmed input with its
    white-space runs collapsed, and it is accepted exactly when it has 2 to
    100 code units, all of them ASCII letters, spaces, apostrophes or
    hyphens. *)
Theorem validateName_accepts (raw : jsstring) :
  sanitizedValue (validateName raw) = collapse (trim raw)
  ∧ (valid (validateName raw) = true
     ↔ 2 ≤ length (collapse (trim raw)) ≤ 100
       ∧ Forall (λ c, nameChar c = true) (collapse (trim raw))).
Proof.
  unfold validateName. split.
  - rewrite (validateField_own _ nameRule) by reflexivity.
    unfold evaluateInOrder. change (sanitizeOf nameRule raw) with (collapseSanitize raw).
    rewrite collapseSanitize_eq. by repeat case_match.
  - rewrite (validateField_valid_iff _ nameRule) by reflexivity.
    change (sanitizeOf nameRule raw) with (collapseSanitize raw).
    rewrite collapseSanitize_eq.
    rewrite (minLengthCheck_None _ nameRule _ 2) by reflexivity.
    rewrite (maxLengthCheck_None _ nameRule _ 100) by reflexivity.
    erewrite (patternCheck_None nameRule) by reflexivity.
    unfold namePattern.
    rewrite (anchored_run_test false false _
               (classMatches false
                  [Range (chr "a") (chr "z"); Range (chr "A") (chr "Z"); Space;
                   One (chr "'"); One (chr "-")])) by reflexivity.
    pose proof (collapse_white_is_space (trim raw)) as Hws.
    generalize dependent (collapse (trim raw)). intros s Hws.
    assert (Forall (λ c, classMatches false
              [Range (chr "a") (chr "z"); Range (chr "A") (chr "Z"); Space;
               One (chr "'"); One (chr "-")] c = true) s
            ↔ Forall (λ c, nameChar c = true) s) as ->.
    { rewrite !Forall_forall. rewrite Forall_forall in Hws.
      split; intros H c Hc; specialize (H c Hc); specialize (Hws c Hc);
        rewrite nameClass_nameChar in *; unfold nameChar in *;
        rewrite !orb_true_iff in *.
      - destruct H as [[[[H|H]|H]|H]|H]; try tauto.
        rewrite (Hws H). tauto.
      - destruct H as [[[[H|H]|H]|H]|H]; try tauto.
        apply N.eqb_eq in H. subst c. tauto. }
    split.
    + intros [[-> [=]]|(Hne & Hmin & Hmax & [_ Hall] & _)]. done.
    + intros [[Hmin Hmax] Hall]. right.
      assert (s ≠ []) by (intros ->; simpl in Hmin; lia). done.
Qed.

End NameField.

Lemma matchHere_single ic r P pre post :
  single ic r = Some P →
  matchHere ic r pre post
  = match post with
    | c :: _ => if P c then Some 1 else None
    | [] => None
    end.
Proof.
  intros Hr. unfold matchHere.
  assert (matcher ic r = charSetMatcher P) as ->
    by (destruct r; try done; by injection Hr as <-).
  destruct post as [|c rest]; [done|]. cbn [charSetMatcher snd fst].
  destruct (P c); [|done]. cbn [fmap option_fmap option_map snd length].
  f_equal. lia.
Qed.

(** Replacing every match of a one-character pattern by nothing removes
    the members of its set. *)
Lemma replaceAll_single_delete ic r P post :
  single ic r = Some P →
  ∀ pre, replaceAll ic r [] pre post 0 = List.filter (λ c, negb (P c)) post.
Proof.
  intros Hr. induction post as [|c rest IH]; intros pre.
  - cbn [replaceAll]. by rewrite (matchHere_single _ _ _ _ _ Hr).
  - cbn [replaceAll List.filter]. rewrite (matchHere_single _ _ _ _ _ Hr).
    destruct (P c); cbn [negb pred app]; by rewrite IH.
Qed.

Lemma filter_ext_bool (f g : N → bool) (l : jsstring) :
  (∀ c, f c = g c) → List.filter f l = List.filter g l.
Proof. intros H. induction l as [|c l IH]; simpl; [done|]. by rewrite H, IH. Qed.

Lemma String_replace_nonDigit s :
  String_replace s (literal nonDigit true false) [] = List.filter isDigit s.
Proof.
  unfold String_replace. cbn [ignoreCase source literal]. unfold nonDigit.
  rewrite (replaceAll_single_delete false _
             (λ c, negb (classMatches false [Digit] c))) by reflexivity.
  apply filter_ext_bool. intros c. rewrite negb_involutive.
  unfold classMatches, inClass. simpl. by rewrite !orb_false_r.
Qed.

Lemma countDigits_le s : countDigits s ≤ length s.
Proof.
  unfold countDigits. induction s as [|c s IH]; simpl; [done|].
  destruct (isDigit c); simpl; lia.
Qed.

Lemma customCheck_None (rules : ValidationRule) check s :
  additionalValidation rules = Some check →
  (check s rules ≠ Some []) →
  customCheck rules s = None ↔ check s rules = None.
Proof.
  intros Hc Hne. unfold customCheck. rewrite Hc.
  by destruct (check s rules) as [[|? ?]|].
Qed.

Lemma phoneCheck_None s rules :
  phoneCheck s rules = None ↔ 10 ≤ countDigits s ≤ 15.
Proof.
  unfold phoneCheck, countDigits. rewrite String_replace_nonDigit.
  destruct (length (List.filter isDigit s) <? 10) eqn:H1.
  - apply Nat.ltb_lt in H1. split; [done|lia].
  - apply Nat.ltb_ge in H1. destruct (15 <? length (List.filter isDigit s)) eqn:H2.
    + apply Nat.ltb_lt in H2. split; [done|lia].
    + apply Nat.ltb_ge in H2. done.
Qed.

Lemma phoneClass_phoneChar c :
  classMatches false
    [Digit; Space; One (chr "-"); One (chr "("); One (chr ")"); One (chr "+")] c
  = phoneChar c.
Proof.
  unfold classMatches, inClass, phoneChar. cbn [existsb itemMatches andb].
  rewrite !orb_false_r.
  change (chr "-") with 45%N. change (chr "(") with 40%N.
  change (chr ")") with 41%N. change (chr "+") with 43%N.
  by rewrite !orb_assoc.
Qed.

Section PhoneAndService.
Context {host : Host}.

(** X3: the phone field: the sanitized value is the trimmed input, accepted
    exactly when it has at most 20 code units, all of them digits, white
    space or one of [-()+], and 10 to 15 of them digits. *)
Theorem validatePhone_accepts (raw : jsstring) :
  sanitizedValue (validatePhone raw) = trim raw
  ∧ (valid (validatePhone raw) = true
     ↔ length (trim raw) ≤ 20
       ∧ Forall (λ c, phoneChar c = true) (trim raw)
       ∧ 10 ≤ countDigits (trim raw) ≤ 15).
Proof.
  unfold validatePhone. split.
  - rewrite (validateField_own _ phoneRule) by reflexivity.
    unfold evaluateInOrder. change (sanitizeOf phoneRule raw) with (trim raw).
    by repeat case_match.
  - rewrite (validateField_valid_iff _ phoneRule) by reflexivity.
    change (sanitizeOf phoneRule raw) with (trim raw).
    rewrite (minLengthCheck_None _ phoneRule _ 10) by reflexivity.
    rewrite (maxLengthCheck_None _ phoneRule _ 20) by reflexivity.
    erewrite (patternCheck_None phoneRule) by reflexivity.
    unfold phonePattern.
    rewrite (anchored_run_test false false _
               (classMatches false
                  [Digit; Space; One (chr "-"); One (chr "("); One (chr ")");
                   One (chr "+")])) by reflexivity.
    rewrite (customCheck_None phoneRule phoneCheck) by
      (try reflexivity; unfold phoneCheck; by repeat case_match).
    rewrite phoneCheck_None.
    assert (Forall (λ c, classMatches false
              [Digit; Space; One (chr "-"); One (chr "("); One (chr ")");
               One (chr "+")] c = true) (trim raw)
            ↔ Forall (λ c, phoneChar c = true) (trim raw)) as ->.
    { apply Forall_proper; [|done]. intros c. by rewrite phoneClass_phoneChar. }
    pose proof (countDigits_le (trim raw)). split.
    + intros [[_ [=]]|(Hne & Hmin & Hmax & [_ Hall] & Hd)]. done.
    + intros (Hmax & Hall & Hd). right.
      assert (trim raw ≠ []) by (intros Ht; rewrite Ht in *; simpl in *; lia).
      repeat split; try done; lia.
Qed.

Lemma serviceCheck_None s :
  serviceCheck s serviceRule = None ↔ s ∈ allowedServices.
Proof.
  unfold serviceCheck, includes. cbn [allowedValues props serviceRule default].
  case_bool_decide; simpl; [done|]. split; [done|]. done.
Qed.

(** X4: the service field: the sanitized value is the trimmed input, accepted
    exactly when it is one of the seven service identifiers. *)
Theorem validateService_accepts (raw : jsstring) :
  sanitizedValue (validateService raw) = trim raw
  ∧ (valid (validateService raw) = true ↔ trim raw ∈ allowedServices).
Proof.
  unfold validateService. split.
  - rewrite (validateField_own _ serviceRule) by reflexivity.
    unfold evaluateInOrder. change (sanitizeOf serviceRule raw) with (trim raw).
    by repeat case_match.
  - rewrite (validateField_valid_iff _ serviceRule) by reflexivity.
    change (sanitizeOf serviceRule raw) with (trim raw).
    rewrite (customCheck_None serviceRule serviceCheck) by
      (try reflexivity; unfold serviceCheck; by repeat case_match).
    rewrite serviceCheck_None. split.
    + intros [[_ [=]]|(_ & _ & _ & _ & H)]. done.
    + intros H. right. repeat split; try done.
      intros Ht. rewrite Ht in H. revert H. apply (bool_decide_unpack _).
      by vm_compute.
Qed.

End PhoneAndService.

(** ** The email field *)

Lemma Matches_Char_iff ic p st st' :
  Matches ic (Char p) st st'
  ↔ ∃ d pre post, st = (pre, d :: post) ∧ st' = (d :: pre, post)
                  ∧ charMatches ic p d = true.
Proof. by apply Matches_single. Qed.

Lemma Matches_word ic (w : jsstring) pre post st' :
  Matches ic (seqs (Char <$> w)) (pre, post) st'
  ↔ ∃ mid rest, post = mid ++ rest
                ∧ Forall2 (λ p c, charMatches ic p c = true) w mid
                ∧ st' = (reverse mid ++ pre, rest).
Proof.
  revert pre post. induction w as [|p w IH]; intros pre post.
  - change (seqs (Char <$> [])) with Empty. rewrite Matches_Empty_inv. split.
    + intros ->. exists [], post. by repeat split.
    + intros (mid & rest & -> & ->%Forall2_nil_inv_l & ->). done.
  - change (seqs (Char <$> p :: w)) with (Seq (Char p) (seqs (Char <$> w))).
    rewrite Matches_Seq_inv. split.
    + intros (st1 & (d & pre' & post' & Heq & -> & Hd)%Matches_Char_iff
              & (mid & rest & -> & Hmid & ->)%IH).
      injection Heq as -> ->. exists (d :: mid), rest.
      repeat split; [by constructor|]. by rewrite reverse_cons, <- app_assoc.
    + intros (mid & rest & -> & Hmid & ->).
      apply Forall2_cons_inv_l in Hmid as (d & mid' & Hd & Hmid & ->).
      exists (d :: pre, mid' ++ rest). split.
      * apply Matches_Char_iff. by eexists _, _, _.
      * apply IH. exists mid', rest. repeat split; [done|].
        by rewrite reverse_cons, <- app_assoc.
Qed.

Lemma charMatches_exact p c : charMatches false p c = true ↔ c = p.
Proof. unfold charMatches, canonicalize. apply N.eqb_eq. Qed.

Lemma Forall2_charMatches_exact (w mid : jsstring) :
  Forall2 (λ p c, charMatches false p c = true) w mid ↔ mid = w.
Proof.
  split.
  - induction 1 as [|p c w mid Hc%charMatches_exact _ IH]; [done|]. by subst.
  - intros ->. induction w; constructor; [by apply charMatches_exact|done].
Qed.

(** A literal word without the [i] flag is found exactly in the strings
    that contain it. *)
Lemma word_test (w : jsstring) g s :
  (RegExp_test (literal (seqs (Char <$> w)) g false) s).1 = true ↔ contains w s.
Proof.
  rewrite RegExp_test_literal_iff. split.
  - intros (a & b & st' & -> & (mid & rest & -> & ->%Forall2_charMatches_exact & _)%Matches_word).
    by exists a, rest.
  - intros (pre & post & ->). exists pre, (w ++ post), (reverse w ++ reverse pre, post).
    split; [done|]. apply Matches_word. exists w, post.
    repeat split. by apply Forall2_charMatches_exact.
Qed.

Lemma emailClass_emailChar c :
  negb (classMatches false [Space; One (chr "@")] c) = emailChar c.
Proof.
  unfold classMatches, inClass, emailChar. cbn [existsb itemMatches andb].
  by rewrite !orb_false_r.
Qed.

Lemma Matches_emailPart pre post st' :
  Matches false (Plus (NClass [Space; One (chr "@")])) (pre, post) st'
  ↔ ∃ x rest, post = x ++ rest ∧ x ≠ [] ∧ Forall (λ c, emailChar c = true) x
              ∧ st' = (reverse x ++ pre, rest).
Proof.
  rewrite (Matches_Plus_single false _
             (λ c, negb (classMatches false [Space; One (chr "@")] c)))
    by reflexivity.
  do 2 (apply exist_proper; intros ?).
  do 2 (apply and_iff_compat_l). apply and_iff_compat_r.
  apply Forall_proper; [|done]. intros c. by rewrite emailClass_emailChar.
Qed.

Lemma Matches_Char_exact c pre post st' :
  Matches false (Char c) (pre, post) st'
  ↔ ∃ rest, post = c :: rest ∧ st' = (c :: pre, rest).
Proof.
  rewrite Matches_Char_iff. split.
  - intros (d & pre' & post' & Heq & -> & ->%charMatches_exact).
    injection Heq as -> ->. by eexists.
  - intros (rest & -> & ->). eexists _, _, _. repeat split.
    by apply charMatches_exact.
Qed.

(** The strings the address pattern accepts. *)
Lemma emailPattern_test g s :
  (RegExp_test (literal emailPattern g false) s).1 = true
  ↔ ∃ l d e, emailParts s l d e.
Proof.
  rewrite RegExp_test_literal_iff. unfold emailPattern, emailParts.
  cbn [seqs foldr]. split.
  - intros (a & b & st' & -> & H).
    apply Matches_Seq_inv in H as (st1 & [Ha ->]%Matches_Bol_inv & H).
    simpl in Ha. apply (f_equal reverse) in Ha.
    rewrite reverse_involutive in Ha. subst a.
    apply Matches_Seq_inv in H as (st2 & (l & r1 & -> & Hl & Hla & ->)%Matches_emailPart & H).
    apply Matches_Seq_inv in H as (st3 & (r2 & -> & ->)%Matches_Char_exact & H).
    apply Matches_Seq_inv in H as (st4 & (d & r3 & -> & Hd & Hda & ->)%Matches_emailPart & H).
    apply Matches_Seq_inv in H as (st5 & (r4 & -> & ->)%Matches_Char_exact & H).
    apply Matches_Seq_inv in H as (st6 & (e & r5 & -> & He & Hea & ->)%Matches_emailPart & H).
    apply Matches_Seq_inv in H as (st7 & [Hr ->]%Matches_Eol_inv & _).
    simpl in Hr. subst r5. rewrite app_nil_r.
    exists l, d, e. repeat split; try done. by rewrite !Forall_app.
  - intros (l & d & e & -> & Hl & Hd & He & Hall).
    rewrite !Forall_app in Hall. destruct Hall as (Hla & Hda & Hea).
    eexists [], _, _. split; [done|].
    apply Matches_Seq_inv. eexists. split; [constructor|].
    apply Matches_Seq_inv. eexists. split.
    { apply Matches_emailPart. by eexists l, _. }
    apply Matches_Seq_inv. eexists. split.
    { apply Matches_Char_exact. by eexists. }
    apply Matches_Seq_inv. eexists. split.
    { apply Matches_emailPart. by eexists d, _. }
    apply Matches_Seq_inv. eexists. split.
    { apply Matches_Char_exact. by eexists. }
    apply Matches_Seq_inv. eexists. split.
    { apply Matches_emailPart. exists e, []. by rewrite app_nil_r. }
    apply Matches_Seq_inv. eexists. split; constructor.
Qed.

Lemma split_first_local l rest :
  Forall (λ c, emailChar c = true) l →
  split_first (chr "@") (l ++ chr "@" :: rest) = l.
Proof.
  unfold split_first. induction 1 as [|c l Hc _ IH]; [done|].
  cbn [app takeWhile]. unfold emailChar in Hc.
  apply negb_true_iff, orb_false_iff in Hc as [_ Hc].
  change (chr "@") with 64%N in *. rewrite Hc. cbn [negb]. by rewrite IH.
Qed.

Lemma emailCheck_None s rules l d e :
  emailParts s l d e →
  emailCheck s rules = None ↔ ¬ contains (jstr "..") s ∧ length l ≤ 64.
Proof.
  intros (-> & _ & _ & _ & (Hl & _)%Forall_app).
  unfold emailCheck. rewrite split_first_local by done.
  pose proof (word_test (jstr "..") false (l ++ chr "@" :: d ++ chr "." :: e)) as Hw.
  change (seqs (Char <$> jstr "..")) with consecutiveDots in Hw.
  destruct (RegExp_test (literal consecutiveDots false false) _).1.
  - split; [done|]. intros [Hn _]. destruct Hn. by apply Hw.
  - assert (¬ contains (jstr "..") (l ++ chr "@" :: d ++ chr "." :: e))
      by (intros Hc%Hw; done).
    destruct (64 <? length l) eqn:H64.
    + apply Nat.ltb_lt in H64. split; [done|]. lia.
    + apply Nat.ltb_ge in H64. done.
Qed.

Lemma emailParts_local s l d e l' d' e' :
  emailParts s l d e → emailParts s l' d' e' → l' = l.
Proof.
  intros (Hs & _ & _ & _ & (Hl & _)%Forall_app)
         (Hs' & _ & _ & _ & (Hl' & _)%Forall_app).
  rewrite <- (split_first_local l (d ++ chr "." :: e)) by done.
  rewrite <- (split_first_local l' (d' ++ chr "." :: e')) by done.
  by rewrite <- Hs, <- Hs'.
Qed.

Section EmailField.
Context {host : Host}.

(** X2: the email field: the sanitized value is the trimmed input in lower
    case, accepted exactly when it has at most 254 code units, reads
    [l@d.e] with non-empty parts free of white space and [@], has at most
    64 code units before the [@], and holds no two dots in a row. *)
Theorem validateEmail_accepts (raw : jsstring) :
  sanitizedValue (validateEmail raw) = toLowerCase (trim raw)
  ∧ (valid (validateEmail raw) = true
     ↔ length (toLowerCase (trim raw)) ≤ 254
       ∧ (∃ l d e, emailParts (toLowerCase (trim raw)) l d e ∧ length l ≤ 64)
       ∧ ¬ contains (jstr "..") (toLowerCase (trim raw))).
Proof.
  unfold validateEmail. split.
  - rewrite (validateField_own _ emailRule) by reflexivity.
    unfold evaluateInOrder.
    change (sanitizeOf emailRule raw) with (toLowerCase (trim raw)).
    by repeat case_match.
  - rewrite (validateField_valid_iff _ emailRule) by reflexivity.
    change (sanitizeOf emailRule raw) with (toLowerCase (trim raw)).
    generalize (toLowerCase (trim raw)). intros s.
    rewrite (maxLengthCheck_None _ emailRule _ 254) by reflexivity.
    erewrite (patternCheck_None emailRule) by reflexivity.
    rewrite emailPattern_test.
    rewrite (customCheck_None emailRule emailCheck) by
      (try reflexivity; unfold emailCheck; by repeat case_match).
    split.
    + intros [[_ [=]]|(Hne & _ & Hmax & (l & d & e & Hp) & Hc)].
      apply (emailCheck_None _ _ _ _ _ Hp) in Hc as [Hdots Hl].
      split; [done|]. split; [|done]. by exists l, d, e.
    + intros (Hmax & (l & d & e & Hp & Hl) & Hdots). right.
      split. { destruct Hp as (-> & _). by destruct l. }
      split; [done|]. split; [done|]. split; [by exists l, d, e|].
      by apply (emailCheck_None _ _ _ _ _ Hp).
Qed.

End EmailField.

(** ** The message field *)

Lemma Forall2_sameIgnoringCase w mid :
  Forall2 (λ p c, charMatches true p c = true) w mid → sameIgnoringCase mid w.
Proof.
  unfold sameIgnoringCase. induction 1 as [|p c w mid Hc _ IH]; [done|].
  rewrite charMatches_ignoreCase in Hc. apply bool_decide_eq_true in Hc.
  cbn [fmap list_fmap]. by f_equal.
Qed.

Lemma Matches_WordBoundary_inv ic st st' :
  Matches ic WordBoundary st st' ↔ atBoundary st = true ∧ st' = st.
Proof. split; [by inversion 1|intros [? ->]; by constructor]. Qed.

Lemma Matches_Alt_inv ic r1 r2 st st' :
  Matches ic (Alt r1 r2) st st' ↔ Matches ic r1 st st' ∨ Matches ic r2 st st'.
Proof.
  split; [inversion 1; subst; tauto|].
  intros [?|?]; [by apply Matches_Alt_l|by apply Matches_Alt_r].
Qed.

(** The script pattern is found exactly in the strings that contain
    [<script] in some letter case. *)
Lemma scriptPattern_test g s :
  (RegExp_test (literal scriptPattern g true) s).1 = true
  ↔ containsIgnoringCase (jstr "<script") s.
Proof.
  rewrite RegExp_test_literal_iff. unfold scriptPattern, word. split.
  - intros (a & b & st' & -> & (mid & rest & -> & Hmid & _)%Matches_word).
    exists a, mid, rest. split; [done|]. by apply Forall2_sameIgnoringCase.
  - intros (pre & mid & post & -> & Hmid).
    eexists pre, (mid ++ post), _. split; [done|].
    apply Matches_word. exists mid, post. split; [done|].
    split; [by apply sameIgnoringCase_Forall2|done].
Qed.

Lemma atBoundary_start_inv pre mid post c :
  atBoundary (reverse pre, mid ++ post) = true →
  head mid = Some c → isWordChar c = true →
  ∀ d, last pre = Some d → isWordChar d = false.
Proof.
  unfold atBoundary. cbn [fst snd]. rewrite head_reverse.
  destruct mid as [|c' mid]; [done|]. intros H [= ->] Hw d Hd.
  cbn [app head from_option] in H. rewrite Hw, Hd in H. cbn [from_option] in H.
  by destruct (isWordChar d).
Qed.

Lemma atBoundary_end_inv pre mid post c :
  atBoundary (reverse mid ++ pre, post) = true →
  last mid = Some c → isWordChar c = true →
  ∀ d, head post = Some d → isWordChar d = false.
Proof.
  unfold atBoundary. cbn [fst snd]. intros H Hc Hw d Hd.
  apply last_Some in Hc as [mid' ->]. rewrite reverse_snoc in H.
  cbn [app head from_option] in H. rewrite Hw, Hd in H. cbn [from_option] in H.
  by destruct (isWordChar d).
Qed.

(** The keyword pattern is found exactly in the strings that contain one
    of the keywords as a whole word. *)
Lemma spamPattern_test g s :
  (RegExp_test (literal spamPattern g true) s).1 = true ↔ containsSpamWord s.
Proof.
  split;
    [|rewrite RegExp_test_literal_iff, <- (RegExp_test_literal_iff _ true);
      apply spamPattern_hit].
  rewrite RegExp_test_literal_iff. unfold spamPattern. cbn [seqs foldr].
  intros (a & b & st' & -> & H).
  apply Matches_Seq_inv in H as (st1 & [Hb1 ->]%Matches_WordBoundary_inv & H).
  apply Matches_Seq_inv in H as (st2 & Hw & H).
  apply Matches_Seq_inv in H as (st3 & [Hb2 ->]%Matches_WordBoundary_inv & _).
  assert (∃ w, w ∈ spamWords ∧ Matches true (word w) (reverse a, b) st2)
    as (w & Hin & Hm).
  { unfold spamWords. rewrite !Matches_Alt_inv in Hw.
    destruct Hw as [?|[?|[?|?]]]; eexists; (split; [|done]); set_solver. }
  apply Matches_word in Hm as (mid & rest & -> & Hmid%Forall2_sameIgnoringCase & ->).
  destruct (spamWords_wordChars _ Hin) as [Hne Hall].
  pose proof (sameIgnoringCase_wordChars _ _ Hmid Hall) as Hmidw.
  assert (mid ≠ []) as Hmne.
  { intros ->. apply Hne. unfold sameIgnoringCase in Hmid.
    by destruct (jstr w). }
  destruct (head mid) as [c0|] eqn:Hc0; [|by apply head_None in Hc0].
  destruct (last mid) as [c1|] eqn:Hc1; [|by apply last_None in Hc1].
  assert (isWordChar c0 = true) as Hw0.
  { eapply Forall_forall in Hmidw; [done|]. by eapply head_Some_elem_of. }
  assert (isWordChar c1 = true) as Hw1.
  { eapply Forall_forall in Hmidw; [done|]. by eapply last_Some_elem_of. }
  exists w. split; [done|]. exists a, mid, rest. repeat split; [done|..].
  - by eapply atBoundary_start_inv.
  - by eapply atBoundary_end_inv.
Qed.

Lemma messageCheck_None s rules :
  messageCheck s rules = None
  ↔ urlCount s ≤ 2 ∧ ¬ containsIgnoringCase (jstr "<script") s
    ∧ ¬ containsSpamWord s.
Proof.
  rewrite messageCheck_eq. cbn [firstSuspicious].
  rewrite <- (scriptPattern_test true), <- (spamPattern_test true).
  destruct (2 <? urlCount s) eqn:Hu.
  - apply Nat.ltb_lt in Hu. split; [done|]. lia.
  - apply Nat.ltb_ge in Hu.
    destruct (RegExp_test (literal scriptPattern true true) s).1;
      [split; [done|]; intros (_ & [] & _); done|].
    destruct (RegExp_test (literal spamPattern true true) s).1;
      [split; [done|]; intros (_ & _ & []); done|].
    split; [|done]. intros _. split; [done|]. by split.
Qed.

Section MessageAcceptance.
Context {host : Host}.

(** X5: the message field: the sanitized value is the trimmed input with every
    run of white space collapsed to a space, accepted exactly when it has
    at most 1000 code units, at most two URLs, no [<script] in any letter
    case and none of the keywords as a whole word. *)
Theorem validateMessage_accepts (raw : jsstring) :
  sanitizedValue (validateMessage raw) = collapse (trim raw)
  ∧ (valid (validateMessage raw) = true
     ↔ length (collapse (trim raw)) ≤ 1000
       ∧ urlCount (collapse (trim raw)) ≤ 2
       ∧ ¬ containsIgnoringCase (jstr "<script") (collapse (trim raw))
       ∧ ¬ containsSpamWord (collapse (trim raw))).
Proof.
  unfold validateMessage. split.
  - rewrite (validateField_own _ messageRule) by reflexivity.
    unfold evaluateInOrder.
    change (sanitizeOf messageRule raw) with (collapseSanitize raw).
    rewrite collapseSanitize_eq. by repeat case_match.
  - rewrite (validateField_valid_iff _ messageRule) by reflexivity.
    change (sanitizeOf messageRule raw) with (collapseSanitize raw).
    rewrite collapseSanitize_eq. generalize (collapse (trim raw)). intros s.
    rewrite (minLengthCheck_None _ messageRule _ 0) by reflexivity.
    rewrite (maxLengthCheck_None _ messageRule _ 1000) by reflexivity.
    rewrite (customCheck_None messageRule messageCheck) by
      (try reflexivity; intros [?|?]%messageCheck_messages; done).
    rewrite messageCheck_None. split.
    + intros [[-> _]|(_ & _ & Hmax & _ & Hc)]; [|done].
      split; [simpl; lia|].
      by apply (messageCheck_None [] (props messageRule)).
    + intros (Hmax & Hc). destruct s as [|c s]; [by left|right].
      split; [done|]. split; [simpl; lia|]. split; [done|]. split; [done|done].
Qed.

End MessageAcceptance.

(** ** Validating again, padding, and what the form evaluator stores *)

Lemma trimStart_white_app ws s :
  Forall (λ c, isWhiteSpace c = true) ws → trimStart (ws ++ s) = trimStart s.
Proof.
  unfold trimStart. induction 1 as [|c ws Hc _ IH]; [done|].
  cbn [app dropWhile]. by rewrite Hc.
Qed.

Lemma trimEnd_app_white s ws :
  Forall (λ c, isWhiteSpace c = true) ws → trimEnd (s ++ ws) = trimEnd s.
Proof.
  intros Hws. unfold trimEnd. rewrite reverse_app. f_equal.
  apply (trimStart_white_app (reverse ws)). by apply Forall_reverse.
Qed.

Lemma dropWhile_all p (s : jsstring) :
  Forall (λ c, p c = true) s → dropWhile p s = [].
Proof. induction 1 as [|c s Hc _ IH]; [done|]. simpl. by rewrite Hc. Qed.

Lemma dropWhile_app_keep p (s t : jsstring) :
  ¬ Forall (λ c, p c = true) s → dropWhile p (s ++ t) = dropWhile p s ++ t.
Proof.
  induction s as [|c s IH]; intros Hn; [by destruct Hn|].
  cbn [app dropWhile]. destruct (p c) eqn:Hc; [|done].
  apply IH. intros Hs. apply Hn. by constructor.
Qed.

Lemma trim_white s : Forall (λ c, isWhiteSpace c = true) s → trim s = [].
Proof. intros H. unfold trim, trimStart. by rewrite dropWhile_all. Qed.

(** White space around a value is invisible to [trim]. *)
Lemma trim_padding ws1 s ws2 :
  Forall (λ c, isWhiteSpace c = true) ws1 →
  Forall (λ c, isWhiteSpace c = true) ws2 →
  trim (ws1 ++ s ++ ws2) = trim s.
Proof.
  intros H1 H2. unfold trim. rewrite trimStart_white_app by done.
  destruct (decide (Forall (λ c, isWhiteSpace c = true) s)) as [Hs|Hs].
  - unfold trimStart. rewrite !dropWhile_all; [done..|]. by apply Forall_app.
  - unfold trimStart. rewrite dropWhile_app_keep by done.
    by apply trimEnd_app_white.
Qed.

Section Revalidation.
Context {host : Host}.

Lemma sanitizedValue_evaluateInOrder f rules raw :
  sanitizedValue (evaluateInOrder f rules raw) = sanitizeOf rules raw.
Proof. unfold evaluateInOrder. by repeat case_match. Qed.

Lemma evaluateInOrder_sanitizeOf f rules raw raw' :
  sanitizeOf rules raw = sanitizeOf rules raw' →
  evaluateInOrder f rules raw = evaluateInOrder f rules raw'.
Proof. unfold evaluateInOrder. by intros ->. Qed.

(** Every sanitizer of the table starts by trimming its argument. *)
Lemma sanitizeOf_trim f rules raw :
  getOwn VALIDATION_RULES f = Some rules →
  sanitizeOf rules (trim raw) = sanitizeOf rules raw.
Proof.
  intros [[_ ->]|[[_ ->]|[[_ ->]|[[_ ->]|[_ ->]]]]]%getOwn_rules;
    unfold sanitizeOf; cbn [sanitize nameRule emailRule phoneRule serviceRule
                              messageRule]; unfold collapseSanitize;
    by rewrite trim_idempotent.
Qed.

Lemma sanitizeOf_idempotent {laws : HostLaws host} f rules raw :
  getOwn VALIDATION_RULES f = Some rules →
  sanitizeOf rules (sanitizeOf rules raw) = sanitizeOf rules raw.
Proof.
  intros [[_ ->]|[[_ ->]|[[_ ->]|[[_ ->]|[_ ->]]]]]%getOwn_rules;
    unfold sanitizeOf; cbn [sanitize nameRule emailRule phoneRule serviceRule
                              messageRule].
  - apply collapseSanitize_idempotent.
  - rewrite (toLowerCase_trim (trim raw)) by apply trim_idempotent.
    apply toLowerCase_idem.
  - apply trim_idempotent.
  - apply trim_idempotent.
  - apply collapseSanitize_idempotent.
Qed.

Lemma validateField_trim f raw :
  is_Some (getRules f) → validateField f (trim raw) = validateField f raw.
Proof.
  intros Hr. destruct (getOwn VALIDATION_RULES f) as [rules|] eqn:Hown.
  - rewrite !(validateField_own _ _ _ Hown).
    apply evaluateInOrder_sanitizeOf. by eapply sanitizeOf_trim.
  - assert (f ∉ ruleFields) as Hf
      by (rewrite <- getOwn_ruleFields, Hown; by intros [? ?]).
    rewrite !(validateField_not_own _ _ Hf).
    unfold getRules in Hr. rewrite Hown in Hr.
    destruct (bool_decide (f ∈ objectPrototypeKeys)); [|by destruct Hr].
    by rewrite trim_idempotent.
Qed.

Lemma validateField_sanitized {laws : HostLaws host} f raw :
  validateField f (sanitizedValue (validateField f raw)) = validateField f raw.
Proof.
  destruct (getOwn VALIDATION_RULES f) as [rules|] eqn:Hown.
  - rewrite !(validateField_own _ _ _ Hown), sanitizedValue_evaluateInOrder.
    apply evaluateInOrder_sanitizeOf. by eapply sanitizeOf_idempotent.
  - assert (f ∉ ruleFields) as Hf
      by (rewrite <- getOwn_ruleFields, Hown; by intros [? ?]).
    rewrite !(validateField_not_own _ _ Hf). cbn [sanitizedValue success].
    destruct (bool_decide (f ∈ objectPrototypeKeys)); [|done].
    by rewrite trim_idempotent.
Qed.

(** X6: validating the sanitized value of a result gives the same result
    again: the same verdict, the same message, the same sanitized value. *)
Theorem validateField_revalidate {laws : HostLaws host} (fieldName raw : jsstring) :
  validateField fieldName (sanitizedValue (validateField fieldName raw))
  = validateField fieldName raw.
Proof. apply validateField_sanitized. Qed.

(** X7: white space before and after a value never changes the result for a
    field that has rules. *)
Theorem validateField_ignores_padding (fieldName ws1 raw ws2 : jsstring) :
  is_Some (getRules fieldName) →
  Forall (λ c, isWhiteSpace c = true) ws1 →
  Forall (λ c, isWhiteSpace c = true) ws2 →
  validateField fieldName (ws1 ++ raw ++ ws2) = validateField fieldName raw.
Proof.
  intros Hr H1 H2. rewrite <- (validateField_trim _ (ws1 ++ raw ++ ws2)) by done.
  rewrite trim_padding by done. by apply validateField_trim.
Qed.

Lemma validateForm_fold_lookup fd (l : list jsstring) acc f :
  let r := foldl (validateForm_step fd) acc l in
  sanitizedData r !! f
  = (if bool_decide (f ∈ l) then Some (sanitizedValue (fieldResult fd f))
     else sanitizedData acc !! f)
  ∧ errors r !! f
    = (if bool_decide (f ∈ l) && negb (valid (fieldResult fd f))
       then Some (error (fieldResult fd f))
       else errors acc !! f).
Proof.
  revert acc. induction l as [|g l IH]; intros acc; [done|].
  cbn [foldl]. cbn zeta in IH. rewrite !(proj1 (IH _)), !(proj2 (IH _)).
  rewrite validateForm_step_eq. cbn [sanitizedData errors].
  destruct (decide (f = g)) as [->|Hne].
  - rewrite (bool_decide_eq_true_2 (g ∈ g :: l)) by set_solver.
    rewrite lookup_insert_eq.
    destruct (bool_decide (g ∈ l)), (valid (fieldResult fd g)); simpl;
      by rewrite ?lookup_insert_eq.
  - assert (bool_decide (f ∈ g :: l) = bool_decide (f ∈ l)) as ->
      by (apply bool_decide_ext; set_solver).
    rewrite lookup_insert_ne by done. split; [done|].
    destruct (valid (fieldResult fd g)); [done|]. by rewrite lookup_insert_ne.
Qed.

(** X8: what [validateForm] stores for a field of the table: its sanitized
    value, and its message exactly when it is invalid. *)
Theorem validateForm_lookup (formData : gmap jsstring jsstring) (fieldName : jsstring) :
  fieldName ∈ ruleFields →
  let result := validateField fieldName (default [] (formData !! fieldName)) in
  sanitizedData (validateForm formData) !! fieldName = Some (sanitizedValue result)
  ∧ errors (validateForm formData) !! fieldName
    = (if valid result then None else Some (error result)).
Proof.
  intros Hf. cbn zeta. unfold validateForm.
  destruct (validateForm_fold_lookup formData ruleFields
              {| isValid := true; errors := ∅; sanitizedData := ∅ |} fieldName)
    as [-> ->].
  rewrite (bool_decide_eq_true_2 _ Hf). unfold fieldResult, fieldValue.
  split; [done|]. cbn [errors andb].
  by destruct (valid (validateField fieldName (default [] (formData !! fieldName)))).
Qed.

Lemma validateForm_fold_results fd1 fd2 (l : list jsstring) acc :
  (∀ f, f ∈ l → fieldResult fd1 f = fieldResult fd2 f) →
  foldl (validateForm_step fd1) acc l = foldl (validateForm_step fd2) acc l.
Proof.
  revert acc. induction l as [|f l IH]; intros acc H; [done|].
  cbn [foldl]. rewrite !validateForm_step_eq, (H f) by set_solver.
  apply IH. intros g Hg. apply H. set_solver.
Qed.

(** X9: validating the sanitized record of a result gives the same result
    again. *)
Theorem validateForm_revalidate {laws : HostLaws host}
    (formData : gmap jsstring jsstring) :
  validateForm (sanitizedData (validateForm formData)) = validateForm formData.
Proof.
  apply validateForm_fold_results. intros f Hf. unfold fieldResult at 1.
  unfold fieldValue at 1. unfold validateForm at 1.
  rewrite (proj1 (validateForm_fold_lookup formData ruleFields _ f)).
  rewrite (bool_decide_eq_true_2 _ Hf). cbn [default from_option].
  apply validateField_sanitized.
Qed.

End Revalidation.

(** ** The helpers of the module *)

Lemma isEmpty_trim s : isEmpty (Str s) = true ↔ trim s = [].
Proof. simpl. by destruct (trim s). Qed.

Lemma dropWhile_Forall p (s : jsstring) :
  Forall (λ c, p c = true) (dropWhile p s) → Forall (λ c, p c = true) s.
Proof.
  induction s as [|c s IH]; [done|]. cbn [dropWhile].
  destruct (p c) eqn:Hc; [|done]. intros H. constructor; [done|by apply IH].
Qed.

Lemma isEmpty_white s :
  isEmpty (Str s) = true ↔ Forall (λ c, isWhiteSpace c = true) s.
Proof.
  rewrite isEmpty_trim. split; [|apply trim_white].
  unfold trim, trimEnd, trimStart. intros H%(f_equal reverse).
  rewrite reverse_involutive in H. change (reverse []) with (@nil N) in H.
  apply dropWhile_Forall, Forall_reverse, dropWhile_Forall. by rewrite H.
Qed.

Lemma collapse_elem_of c s : c ∈ collapse s → c = 32%N ∨ c ∈ s.
Proof.
  induction s as [|d s IH]; [set_solver|]. cbn [collapse].
  destruct (isWhiteSpace d).
  - destruct s as [|e s]; [set_solver|].
    destruct (isWhiteSpace e); [|rewrite elem_of_cons]; set_solver.
  - rewrite elem_of_cons. set_solver.
Qed.

Lemma collapse_id s : Forall (λ c, isWhiteSpace c = false) s → collapse s = s.
Proof.
  induction 1 as [|c s Hc _ IH]; [done|]. cbn [collapse]. by rewrite Hc, IH.
Qed.

Lemma String_replace_angleBracket s :
  String_replace s (literal angleBracket true false) []
  = List.filter (λ c, negb (isAngleBracket c)) s.
Proof.
  unfold String_replace. cbn [ignoreCase source literal]. unfold angleBracket.
  rewrite (replaceAll_single_delete false _
             (classMatches false [One (chr "<"); One (chr ">")])) by reflexivity.
  apply filter_ext_bool. intros c. f_equal.
  unfold classMatches, inClass, isAngleBracket. simpl. by rewrite !orb_false_r.
Qed.

(** [sanitizeString] without the regular expressions. *)
Lemma sanitizeString_eq s :
  sanitizeString (Str s)
  = take 1000 (collapse (List.filter (λ c, negb (isAngleBracket c)) (trim s))).
Proof.
  unfold sanitizeString. rewrite String_replace_angleBracket.
  f_equal. apply replaceAll_whiteSpaceRun.
Qed.

Lemma singleSpaced_cons c s :
  isWhiteSpace c = false → singleSpaced s = true → singleSpaced (c :: s) = true.
Proof. intros Hc Hs. cbn [singleSpaced]. destruct s; [done|]. by rewrite Hc. Qed.

Lemma singleSpaced_collapse s : singleSpaced (collapse s) = true.
Proof.
  induction s as [|c s IH]; [done|]. cbn [collapse].
  destruct (isWhiteSpace c) eqn:Hc; [|by apply singleSpaced_cons].
  destruct s as [|d s]; [done|]. destruct (isWhiteSpace d) eqn:Hd; [done|].
  revert IH. cbn [collapse]. rewrite Hd. intros IH.
  change (negb (isWhiteSpace 32 && isWhiteSpace d)
          && singleSpaced (d :: collapse s) = true).
  by rewrite Hd, andb_false_r.
Qed.

Lemma singleSpaced_take n s :
  singleSpaced s = true → singleSpaced (take n s) = true.
Proof.
  revert n. induction s as [|c s IH]; intros [|n] Hs; try done.
  cbn [take]. destruct s as [|d s]; [by destruct n|]. destruct n as [|n]; [done|].
  cbn [singleSpaced] in Hs. apply andb_true_iff in Hs as [Hcd Hs].
  specialize (IH (S n) Hs). cbn [take] in IH. cbn [take singleSpaced].
  by rewrite Hcd.
Qed.

(** X12: what [sanitizeString] returns, whatever it is given: at most 1000 code
    units, none of them an angle bracket, no white space other than the
    space, and no two spaces in a row. *)
Theorem sanitizeString_safe (value : JSValue) :
  length (sanitizeString value) ≤ 1000
  ∧ Forall (λ c, isAngleBracket c = false
                 ∧ (isWhiteSpace c = true → c = 32%N))
           (sanitizeString value)
  ∧ singleSpaced (sanitizeString value) = true.
Proof.
  destruct value as [| |s|]; try (split; [simpl; lia|split; [constructor|done]]).
  rewrite sanitizeString_eq. split; [rewrite length_take; lia|].
  split; [|apply singleSpaced_take, singleSpaced_collapse].
  apply Forall_take, Forall_forall. intros c Hc. split.
  - apply collapse_elem_of in Hc as [->|Hc]; [done|].
    apply list_elem_of_In, filter_In in Hc as [_ Hc].
    by apply negb_true_iff.
  - match type of Hc with
    | _ ∈ collapse ?x => pose proof (collapse_white_is_space x) as H
    end.
    rewrite Forall_forall in H. by apply H.
Qed.

Lemma filter_id (p : N → bool) (s : jsstring) :
  Forall (λ c, p c = true) s → List.filter p s = s.
Proof. induction 1 as [|c s Hc _ IH]; [done|]. simpl. by rewrite Hc, IH. Qed.

Lemma trim_plain t :
  Forall (λ c, isWhiteSpace c = false) t → trim t = t.
Proof.
  intros Ht. apply trim_id.
  - intros c Hc. eapply Forall_forall in Ht; [done|]. by eapply head_Some_elem_of.
  - intros c Hc. eapply Forall_forall in Ht; [done|]. by eapply last_Some_elem_of.
Qed.

(** X13: removing an angle bracket can uncover white space at the start, which
    only a second pass trims: [sanitizeString] is not idempotent. *)
Theorem sanitizeString_not_idempotent (t : jsstring) :
  t ≠ [] → length t < 1000 →
  Forall (λ c, isWhiteSpace c = false ∧ isAngleBracket c = false) t →
  sanitizeString (Str (jstr "< " ++ t)) = 32%N :: t
  ∧ sanitizeString (Str (sanitizeString (Str (jstr "< " ++ t)))) = t.
Proof.
  intros Hne Hlen Ht. apply Forall_and in Ht as [Hws Hab].
  destruct t as [|c t]; [done|].
  assert (isWhiteSpace c = false) as Hc by (by inversion Hws).
  assert (List.filter (λ c, negb (isAngleBracket c)) (c :: t) = c :: t) as Hf.
  { apply filter_id. eapply Forall_impl; [exact Hab|].
    intros d Hd. simpl in Hd. by rewrite Hd. }
  assert (sanitizeString (Str (jstr "< " ++ c :: t)) = 32%N :: c :: t) as H1.
  { rewrite sanitizeString_eq.
    change (jstr "< " ++ c :: t) with ([60%N; 32%N] ++ c :: t).
    assert (trim ([60%N; 32%N] ++ c :: t) = 60%N :: 32%N :: c :: t) as ->.
    { apply trim_id.
      - by intros d [= <-].
      - intros d Hd. change (last (c :: t) = Some d) in Hd.
        eapply Forall_forall in Hws; [done|]. by eapply last_Some_elem_of. }
    change (List.filter _ (60%N :: 32%N :: c :: t))
      with (32%N :: List.filter (λ c, negb (isAngleBracket c)) (c :: t)).
    rewrite Hf. cbn [collapse].
    change (isWhiteSpace 32) with true. cbn match. rewrite Hc.
    change (if isWhiteSpace c then ?a else ?b) with b.
    rewrite (collapse_id t) by (by inversion Hws).
    apply take_ge. simpl in *. lia. }
  split; [done|]. rewrite H1, sanitizeString_eq.
  assert (trim (32%N :: c :: t) = c :: t) as ->.
  { transitivity (trim ([32%N] ++ (c :: t) ++ [])); [by rewrite app_nil_r|].
    rewrite trim_padding by (repeat constructor). by apply trim_plain. }
  rewrite Hf, collapse_id by done. apply take_ge. simpl in *. lia.
Qed.

Section Lookups.
Context {host : Host}.

Lemma getRequiredFields_eq :
  getRequiredFields = jstr <$> ["name"; "email"; "phone"; "service"]%string.
Proof. reflexivity. Qed.

Lemma ruleFields_not_inherited f :
  f ∈ ruleFields → f ∉ objectPrototypeKeys.
Proof.
  rewrite ruleFields_eq. intros Hf Hp. revert Hf.
  unfold objectPrototypeKeys in Hp.
  rewrite !fmap_cons, !elem_of_cons in *. rewrite fmap_nil, elem_of_nil in *.
  intros Hf.
  repeat (destruct Hp as [->|Hp]; [by repeat (destruct Hf as [Hf|Hf]; [done|])|]).
  done.
Qed.

(** X10: the required fields are those for which [isFieldRequired] answers
    [true], and exactly those whose blank values are rejected; a blank
    value is rejected with the message "<Field> is required". *)
Theorem required_fields_reject_blank (fieldName raw : jsstring) :
  toLowerCase [] = [] →
  isEmpty (Str raw) = true →
  (fieldName ∈ getRequiredFields ↔ isFieldRequired fieldName = Some true)
  ∧ (fieldName ∈ getRequiredFields ↔ valid (validateField fieldName raw) = false)
  ∧ (fieldName ∈ getRequiredFields →
     validateField fieldName raw
     = failure (formatFieldName fieldName ++ jstr " is required") []).
Proof.
  intros Hlow Hraw%isEmpty_trim.
  assert (∀ rules, getOwn VALIDATION_RULES fieldName = Some rules →
                   sanitizeOf rules raw = []) as Hs.
  { intros rules [[_ ->]|[[_ ->]|[[_ ->]|[[_ ->]|[_ ->]]]]]%getOwn_rules;
      unfold sanitizeOf; cbn [sanitize nameRule emailRule phoneRule serviceRule
                                messageRule]; rewrite ?collapseSanitize_eq, ?Hraw;
      done. }
  destruct (getOwn VALIDATION_RULES fieldName) as [rules|] eqn:Hown.
  - rewrite (validateField_own _ _ _ Hown). unfold evaluateInOrder.
    rewrite (Hs _ eq_refl). cbn [isEmptyString].
    unfold isFieldRequired, getRules. rewrite Hown. rewrite getRequiredFields_eq.
    apply getOwn_rules in Hown as [[-> ->]|[[-> ->]|[[-> ->]|[[-> ->]|[-> ->]]]]];
      cbn [truthy required props nameRule emailRule phoneRule serviceRule
             messageRule default from_option valid failure success];
      match goal with
      | |- (?x ∈ ?l ↔ _) ∧ _ =>
          first [ assert (x ∈ l) as Hin by (apply (bool_decide_unpack _); by vm_compute)
                | assert (x ∉ l) as Hin by (apply (bool_decide_unpack _); by vm_compute) ]
      end; repeat split; try done; by intros ?.
  - assert (fieldName ∉ ruleFields) as Hf
      by (rewrite <- getOwn_ruleFields, Hown; by intros [? ?]).
    assert (fieldName ∉ getRequiredFields) as Hr.
    { intros Hr. apply Hf. revert Hr. rewrite getRequiredFields_eq, ruleFields_eq.
      rewrite !fmap_cons, !elem_of_cons. tauto. }
    rewrite (validateField_not_own _ _ Hf).
    unfold isFieldRequired, getRules. rewrite Hown.
    split; [|split].
    + split; [by intros ?|].
      by destruct (bool_decide (fieldName ∈ objectPrototypeKeys)).
    + split; [by intros ?|done].
    + by intros ?.
Qed.

(** X11: for a property name every object inherits, the lookups find the
    inherited value: [getFieldRules] returns it instead of [null], and
    [isFieldRequired] returns [undefined] instead of a boolean. *)
Theorem lookups_of_inherited_names (fieldName : jsstring) :
  (getFieldRules fieldName = None
   ↔ (fieldName ∉ ruleFields) ∧ (fieldName ∉ objectPrototypeKeys))
  ∧ (isFieldRequired fieldName = None ↔ fieldName ∈ objectPrototypeKeys)
  ∧ (isFieldRequired fieldName = Some false
     ↔ fieldName = jstr "message"
       ∨ (fieldName ∉ ruleFields) ∧ (fieldName ∉ objectPrototypeKeys)).
Proof.
  unfold getFieldRules, isFieldRequired, getRules.
  destruct (getOwn VALIDATION_RULES fieldName) as [rules|] eqn:Hown.
  - assert (fieldName ∈ ruleFields) as Hf by (apply getOwn_ruleFields; by eexists).
    pose proof (ruleFields_not_inherited _ Hf) as Hp.
    apply getOwn_rules in Hown as [[-> ->]|[[-> ->]|[[-> ->]|[[-> ->]|[-> ->]]]]];
      cbn [required props nameRule emailRule phoneRule serviceRule messageRule];
      (split; [split; [done|tauto]|split; [split; [done|tauto]|]]);
      (split; [|intros [Heq|[? _]]; [|done]]); try done; try tauto;
      exfalso; revert Heq; apply (bool_decide_unpack _); by vm_compute.
  - assert (fieldName ∉ ruleFields) as Hf
      by (rewrite <- getOwn_ruleFields, Hown; by intros [? ?]).
    case_bool_decide as Hp; cbn [required props inheritedObject].
    + split; [split; [done|tauto]|]. split; [done|].
      split; [done|]. intros [->|[_ ?]]; [|done]. destruct Hf.
      apply (bool_decide_unpack _); by vm_compute.
    + split; [done|]. split; [done|]. split; [tauto|done].
Qed.

(** X14: [validateFieldsFast] returns the first invalid entry with its result:
    every entry before it is valid. *)
Theorem validateFieldsFast_first_invalid
    (fields : list (jsstring * jsstring)) (fieldName : jsstring) (result : FieldResult) :
  validateFieldsFast fields = Some (fieldName, result)
  ↔ ∃ before value after,
      fields = before ++ (fieldName, value) :: after
      ∧ allValid before
      ∧ result = validateField fieldName value
      ∧ valid result = false.
Proof.
  unfold allValid. induction fields as [|[f v] fields IH]; cbn [validateFieldsFast].
  - split; [done|]. intros (before & ? & ? & Heq & _). by destruct before.
  - destruct (valid (validateField f v)) eqn:Hv; cbn [negb].
    + rewrite IH. split.
      * intros (before & value & after & -> & Hb & Hr).
        exists ((f, v) :: before), value, after. split; [done|].
        split; [by constructor|done].
      * intros (before & value & after & Heq & Hb & -> & Hr).
        destruct before as [|[g w] before]; simplify_eq/=; [congruence|].
        exists before, value, after. split; [done|].
        split; [by inversion Hb|done].
    + split.
      * intros [= <- <-]. exists [], v, fields. by repeat split.
      * intros (before & value & after & Heq & Hb & -> & Hr).
        destruct before as [|[g w] before]; simplify_eq/=; [done|].
        inversion Hb; simplify_eq/=. congruence.
Qed.

(** X15: entries whose names have no rules never stop [validateFieldsFast]:
    leaving them out does not change what it returns. *)
Theorem validateFieldsFast_skips_unknown (fields : list (jsstring * jsstring)) :
  validateFieldsFast (filter (λ entry, entry.1 ∈ ruleFields) fields)
  = validateFieldsFast fields.
Proof.
  induction fields as [|[f v] fields IH]; [done|].
  rewrite filter_cons. cbn [fst]. case_decide as Hf.
  - cbn [validateFieldsFast]. by rewrite IH.
  - cbn [validateFieldsFast]. rewrite (validateField_not_own _ _ Hf). by cbn.
Qed.

End Lookups.

(** ** The two entry points on the same record *)

Section EntryPoints.
Context {host : Host}.

Lemma validateField_blank f rules :
  toLowerCase [] = [] →
  getOwn VALIDATION_RULES f = Some rules →
  valid (validateField f []) = negb (truthy (required rules)).
Proof.
  intros Hlow Hown. rewrite (validateField_own _ _ _ Hown). unfold evaluateInOrder.
  assert (sanitizeOf rules [] = []) as ->.
  { apply getOwn_rules in Hown as [[_ ->]|[[_ ->]|[[_ ->]|[[_ ->]|[_ ->]]]]];
      unfold sanitizeOf; cbn [sanitize nameRule emailRule phoneRule serviceRule
                                messageRule]; done. }
  cbn [isEmptyString]. by destruct (truthy (required rules)).
Qed.

Lemma required_or_message f :
  f ∈ ruleFields → f ∈ getRequiredFields ∨ f = jstr "message".
Proof.
  rewrite ruleFields_eq, getRequiredFields_eq.
  rewrite !fmap_cons, !elem_of_cons, !fmap_nil, !elem_of_nil. tauto.
Qed.

Lemma getRequiredFields_required f :
  f ∈ getRequiredFields →
  ∃ rules, getOwn VALIDATION_RULES f = Some rules ∧ truthy (required rules) = true.
Proof.
  rewrite getRequiredFields_eq.
  rewrite !fmap_cons, !elem_of_cons, !fmap_nil, !elem_of_nil.
  intros [->|[->|[->|[->|[]]]]]; by eexists.
Qed.

(** X21: [validateForm] on the record of some entries and [validateFieldsFast]
    on the entries: the form is valid exactly when no entry is rejected
    and every required field is among the entries. *)
Theorem validateForm_valid_iff_entries (fields : list (jsstring * jsstring)) :
  toLowerCase [] = [] →
  NoDup fields.*1 →
  isValid (validateForm (list_to_map fields)) = true
  ↔ validateFieldsFast fields = None
    ∧ ∀ fieldName, fieldName ∈ getRequiredFields → fieldName ∈ fields.*1.
Proof.
  intros Hlow Hnd. rewrite validateForm_isValid, forallb_forall, validateFieldsFast_None.
  unfold fieldResult, fieldValue. split.
  - intros Hall. split.
    + intros f v Hin. destruct (decide (f ∈ ruleFields)) as [Hf|Hf].
      * apply list_elem_of_In, Hall in Hf.
        by rewrite (elem_of_list_to_map_1 _ _ _ Hnd Hin) in Hf.
      * by rewrite (validateField_not_own _ _ Hf).
    + intros f Hreq. destruct (decide (f ∈ fields.*1)) as [|Hout]; [done|].
      exfalso. destruct (getRequiredFields_required _ Hreq) as (rules & Hown & Hr).
      assert (f ∈ ruleFields) as Hf by (apply getOwn_ruleFields; by eexists).
      apply list_elem_of_In, Hall in Hf.
      rewrite (not_elem_of_list_to_map_1 _ _ Hout) in Hf. cbn [default from_option] in Hf.
      rewrite (validateField_blank _ _ Hlow Hown), Hr in Hf. done.
  - intros [Hfast Hreq] f Hf%list_elem_of_In.
    destruct (decide (f ∈ fields.*1)) as [Hin|Hout].
    + apply list_elem_of_fmap in Hin as (entry & Heq & Hin).
      destruct entry as [g v]. cbn [fst] in Heq. subst g.
      rewrite (elem_of_list_to_map_1 _ _ _ Hnd Hin). by apply Hfast.
    + rewrite (not_elem_of_list_to_map_1 _ _ Hout). cbn [default from_option].
      destruct (required_or_message _ Hf) as [Hr| ->]; [by destruct Hout; apply Hreq|].
      by rewrite (validateField_blank _ messageRule Hlow).
Qed.

End EntryPoints.

(** ** The callers in the world of the shared objects *)

Section StatefulCallersFacts.
Context {host : Host}.

Lemma Stateful_forEach_run fd (l : list jsstring) acc (w : Stateful.World) :
  let r := StatefulCallers.forEach fd l acc w in
  r.1 = foldl (validateForm_step fd) acc l
  ∧ (∀ k, Stateful.lastIndexOf r.2 k = Stateful.lastIndexOf w k)
  ∧ Stateful.console r.2 = Stateful.console w ++ (l ≫= unknownFieldWarning).
Proof.
  revert acc w. induction l as [|f l IH]; intros acc w.
  - cbn. by rewrite app_nil_r.
  - destruct (Stateful.validateField f (default [] (fd !! f)) w) as [result w'] eqn:Hrun.
    destruct (Stateful_validateField_run f (default [] (fd !! f)) w) as (Hr & Hl & Hc).
    rewrite Hrun in Hr, Hl, Hc. cbn [fst snd] in Hr, Hl, Hc.
    destruct (IH (StatefulCallers.store acc f result) w') as (IH1 & IH2 & IH3).
    assert (StatefulCallers.forEach fd (f :: l) acc w
            = StatefulCallers.forEach fd l (StatefulCallers.store acc f result) w')
      as Heq.
    { cbn [StatefulCallers.forEach]. unfold mbind, Stateful.state_bind.
      by rewrite Hrun. }
    cbn zeta. rewrite Heq. cbn [foldl]. split; [|split].
    + rewrite IH1. by subst result.
    + intros k. etrans; [apply IH2|apply Hl].
    + etrans; [apply IH3|]. rewrite Hc. cbn [mbind list_bind].
      by rewrite app_assoc.
Qed.

(** X16: [validateForm] in the world of the shared pattern objects and the
    console: it returns what the pure evaluator returns, whatever the
    world, leaves every [lastIndex] as it was and writes nothing to the
    console. *)
Theorem validateForm_leaves_no_trace
    (formData : gmap jsstring jsstring) (w : Stateful.World) :
  let run := StatefulCallers.validateForm formData w in
  run.1 = validateForm formData
  ∧ (∀ k, Stateful.lastIndexOf run.2 k = Stateful.lastIndexOf w k)
  ∧ Stateful.console run.2 = Stateful.console w.
Proof.
  destruct (Stateful_forEach_run formData ruleFields
              {| isValid := true; errors := ∅; sanitizedData := ∅ |} w)
    as (H1 & H2 & H3).
  cbn zeta. unfold StatefulCallers.validateForm. split; [done|]. split; [done|].
  rewrite H3. change (ruleFields ≫= unknownFieldWarning) with (@nil jsstring).
  by rewrite app_nil_r.
Qed.

(** X17: [validateFieldsFast] in the same world: it returns what the pure
    function returns and writes one warning for each entry without rules
    among the entries it evaluates, in their order. *)
Theorem validateFieldsFast_warnings
    (fields : list (jsstring * jsstring)) (w : Stateful.World) :
  let run := StatefulCallers.validateFieldsFast fields w in
  run.1 = validateFieldsFast fields
  ∧ (∀ k, Stateful.lastIndexOf run.2 k = Stateful.lastIndexOf w k)
  ∧ Stateful.console run.2
    = Stateful.console w ++ ((evaluated fields).*1 ≫= unknownFieldWarning).
Proof.
  revert w. induction fields as [|[f v] fields IH]; intros w.
  - cbn. by rewrite app_nil_r.
  - destruct (Stateful.validateField f v w) as [result w'] eqn:Hrun.
    destruct (Stateful_validateField_run f v w) as (Hr & Hl & Hc).
    rewrite Hrun in Hr, Hl, Hc. cbn [fst snd] in Hr, Hl, Hc. subst result.
    assert (StatefulCallers.validateFieldsFast ((f, v) :: fields) w
            = if negb (valid (validateField f v))
              then (Some (f, validateField f v), w')
              else StatefulCallers.validateFieldsFast fields w') as Heq.
    { cbn [StatefulCallers.validateFieldsFast].
      unfold mbind, Stateful.state_bind. rewrite Hrun.
      by destruct (valid (validateField f v)). }
    cbn zeta. rewrite Heq. cbn [validateFieldsFast evaluated].
    destruct (valid (validateField f v)); cbn [negb].
    + destruct (IH w') as (IH1 & IH2 & IH3). split; [done|].
      split; [intros k; etrans; [apply IH2|apply Hl]|].
      etrans; [apply IH3|]. rewrite Hc. cbn [fmap list_fmap fst mbind list_bind].
      by rewrite app_assoc.
    + cbn. split; [done|]. split; [done|]. by rewrite Hc, app_nil_r.
Qed.

End StatefulCallersFacts.

(** ** The debounced validator *)

Section DebounceFacts.
Context {Args Result : Type}.
Variable validationFn :
  Args → @Debounce.World Args Result → @Debounce.Behaviour Args Result.
Variable delay : option nat.
Variable f : Args → Result.

Lemma clearTimeout_single (t : @Debounce.Timer Args) :
  Debounce.clearTimeout (Debounce.handle t) [t] = [].
Proof.
  unfold Debounce.clearTimeout. rewrite filter_cons, filter_nil.
  by rewrite decide_False by (intros Hc; by apply Hc).
Qed.

Lemma callback_returnsOnly t w :
  returnsOnly validationFn f →
  Debounce.callback validationFn delay t w
  = {| Debounce.now := Debounce.now w; Debounce.timers := Debounce.timers w;
       Debounce.nextHandle := Debounce.nextHandle w;
       Debounce.timeoutId := None;
       Debounce.promises := Debounce.promises w;
       Debounce.resolved := Debounce.resolved w
                            ++ [(Debounce.promise t, f (Debounce.args t))] |}.
Proof.
  intros Hf. unfold Debounce.callback. generalize (Hf (Debounce.args t) w).
  destruct (validationFn (Debounce.args t) w) as [calls out].
  intros Heq. by injection Heq as -> ->.
Qed.

Lemma debounced_initial : debounced f [] Debounce.initial.
Proof.
  unfold debounced. cbn. repeat split; try done; try lia.
  - intros p r Hp. by apply elem_of_nil in Hp.
  - constructor.
Qed.

Lemma debounced_step calls w e w' :
  returnsOnly validationFn f →
  debounced f calls w → Debounce.step validationFn delay w e = Some w' →
  debounced f (calls ++ callsOf [e]) w'.
Proof.
  intros Hf (Hp & Hn & Hr & Hnd & Ht) Hstep.
  destruct e as [a|id|ms]; cbn [Debounce.step] in Hstep.
  - injection Hstep as <-. cbn [callsOf omap]. unfold debounced. cbn.
    assert ((if Debounce.truthyHandle (Debounce.timeoutId w)
             then Debounce.clearTimeout (default 0 (Debounce.timeoutId w))
                    (Debounce.timers w)
             else Debounce.timers w) = []) as ->.
    { destruct (Debounce.timers w) as [|t [|t' ts]]; [| |done].
      - by destruct (Debounce.truthyHandle _).
      - destruct Ht as (-> & Hh & _). cbn [default from_option]. unfold id.
        rewrite clearTimeout_single.
        destruct (Debounce.handle t); [lia|done]. }
    cbn. rewrite length_app. cbn. split; [lia|]. split; [lia|].
    split; [|split; [done|]].
    + intros p r [a' [Ha' ->]]%Hr. exists a'. split; [|done].
      by apply lookup_app_l_Some.
    + split; [done|]. split; [lia|]. split; [lia|]. split.
      * rewrite Hp. by rewrite lookup_app_r, Nat.sub_diag by lia.
      * intros ((p & r) & Heq & Hin)%list_elem_of_fmap. cbn in Heq. subst p.
        apply Hr in Hin as (a' & Ha'%lookup_lt_Some & _). lia.
  - cbn [callsOf omap]. rewrite app_nil_r.
    destruct (list_find _ _) as [[i t]|] eqn:Hfind; [|done].
    destruct (Debounce.due t <=? Debounce.now w); [|done].
    rewrite callback_returnsOnly in Hstep by done. injection Hstep as <-.
    apply list_find_Some in Hfind as (Hi & Hid & _).
    destruct (Debounce.timers w) as [|t0 [|t' ts]] eqn:Hts; [done| |done].
    destruct i as [|i]; [|done]. injection Hi as ->.
    destruct Ht as (Htid & Hh & Hlen & Hargs & Hfresh).
    subst id. cbn [Debounce.timers]. rewrite clearTimeout_single.
    unfold debounced. cbn.
    split; [done|]. split; [done|]. split; [|split; [|done]].
    + intros p r [Hin|Hin%list_elem_of_singleton]%elem_of_app; [by apply Hr|].
      injection Hin as -> ->. by exists (Debounce.args t).
    + rewrite fmap_app. cbn. apply NoDup_app. split; [done|].
      split; [|apply NoDup_singleton].
      intros p Hin Heq%list_elem_of_singleton. by subst p.
  - injection Hstep as <-. cbn [callsOf omap]. rewrite app_nil_r. done.
Qed.

Lemma callsOf_cons (e : @Debounce.Event Args) es :
  callsOf (e :: es) = callsOf [e] ++ callsOf es.
Proof. unfold callsOf. cbn. by destruct e. Qed.

Lemma debounced_run calls w es w' :
  returnsOnly validationFn f →
  debounced f calls w → Debounce.run validationFn delay w es = Some w' →
  debounced f (calls ++ callsOf es) w'.
Proof.
  intros Hf. revert calls w. induction es as [|e es IH]; intros calls w Hw Hrun.
  - cbn in Hrun. injection Hrun as <-. cbn. by rewrite app_nil_r.
  - cbn [Debounce.run] in Hrun.
    destruct (Debounce.step validationFn delay w e) as [w1|] eqn:Hstep; [|done].
    rewrite callsOf_cons, app_assoc. eapply IH; [|done].
    by eapply debounced_step.
Qed.

(** A step resolves only the promise of the pending timer. *)
Lemma resolved_step w e w' p :
  returnsOnly validationFn f →
  Debounce.step validationFn delay w e = Some w' → p ∈ (Debounce.resolved w').*1 →
  p ∈ (Debounce.resolved w).*1 ∨ p ∈ Debounce.promise <$> Debounce.timers w.
Proof.
  intros Hf Hstep Hin. destruct e as [a|id|ms]; cbn [Debounce.step] in Hstep.
  - injection Hstep as <-. by left.
  - destruct (list_find _ _) as [[i t]|] eqn:Hfind; [|done].
    destruct (Debounce.due t <=? Debounce.now w); [|done].
    rewrite callback_returnsOnly in Hstep by done.
    injection Hstep as <-. cbn in Hin. rewrite fmap_app in Hin.
    apply elem_of_app in Hin as [?|Heq%list_elem_of_singleton]; [by left|].
    right. cbn in Heq. subst p.
    apply list_find_Some in Hfind as (Hi%list_elem_of_lookup_2 & _).
    apply list_elem_of_fmap. by exists t.
  - injection Hstep as <-. by left.
Qed.

Lemma timers_step w e w' t :
  returnsOnly validationFn f →
  Debounce.step validationFn delay w e = Some w' → t ∈ Debounce.timers w' →
  t ∈ Debounce.timers w ∨ Debounce.promise t = Debounce.promises w.
Proof.
  intros Hf Hstep Hin. destruct e as [a|id|ms]; cbn [Debounce.step] in Hstep.
  - injection Hstep as <-. cbn in Hin.
    apply elem_of_app in Hin as [Hin|Heq%list_elem_of_singleton]; [left|by subst; right].
    destruct (Debounce.truthyHandle _); [|done].
    unfold Debounce.clearTimeout in Hin. by apply list_elem_of_filter in Hin as [_ ?].
  - destruct (list_find _ _) as [[i t']|]; [|done].
    destruct (Debounce.due t' <=? Debounce.now w); [|done].
    rewrite callback_returnsOnly in Hstep by done.
    injection Hstep as <-. cbn in Hin. left.
    unfold Debounce.clearTimeout in Hin. by apply list_elem_of_filter in Hin as [_ ?].
  - injection Hstep as <-. by left.
Qed.

(** A promise that is neither resolved nor pending stays unresolved. *)
Lemma resolved_run calls w es w' p :
  returnsOnly validationFn f →
  debounced f calls w →
  Debounce.run validationFn delay w es = Some w' →
  p < length calls →
  (∀ t, t ∈ Debounce.timers w → Debounce.promise t ≠ p) →
  p ∈ (Debounce.resolved w').*1 → p ∈ (Debounce.resolved w).*1.
Proof.
  intros Hf. revert calls w.
  induction es as [|e es IH]; intros calls w Hw Hrun Hp Hpend Hin.
  - cbn in Hrun. by injection Hrun as <-.
  - cbn [Debounce.run] in Hrun.
    destruct (Debounce.step validationFn delay w e) as [w1|] eqn:Hstep; [|done].
    pose proof (debounced_step _ _ _ _ Hf Hw Hstep) as Hw1.
    assert (p ∈ (Debounce.resolved w1).*1) as Hin1.
    { apply (IH (calls ++ callsOf [e]) w1); [done..| | |done].
      - rewrite length_app. lia.
      - intros t [Ht|Ht]%(timers_step _ _ _ _ Hf Hstep); [by apply Hpend|].
        destruct Hw as [Hlen _]. lia. }
    apply (resolved_step _ _ _ _ Hf Hstep) in Hin1 as [?|Hin1]; [done|].
    apply list_elem_of_fmap in Hin1 as (t & -> & Ht). by destruct (Hpend t Ht).
Qed.

(** X18: when [validationFn] always returns, and never calls the debounced
    function itself: one timer at most is pending in a world the module
    can reach; it is the timer of the latest call, held by [timeoutId].
    Every promise is resolved once at most, with the result of
    [validationFn] on the arguments of its own call. *)
Theorem debounce_invariant (es : list Debounce.Event) (w : @Debounce.World Args Result) :
  returnsOnly validationFn f →
  Debounce.run validationFn delay Debounce.initial es = Some w →
  (Debounce.timers w = [] ∧ Debounce.timeoutId w = None
   ∨ ∃ t, Debounce.timers w = [t]
          ∧ Debounce.timeoutId w = Some (Debounce.handle t)
          ∧ S (Debounce.promise t) = length (callsOf es)
          ∧ callsOf es !! Debounce.promise t = Some (Debounce.args t))
  ∧ NoDup (Debounce.resolved w).*1
  ∧ (∀ p r, (p, r) ∈ Debounce.resolved w →
            ∃ a, callsOf es !! p = Some a ∧ r = f a).
Proof.
  intros Hf Hrun. pose proof (debounced_run _ _ _ _ Hf debounced_initial Hrun) as H.
  cbn [app] in H. destruct H as (_ & _ & Hr & Hnd & Ht).
  split; [|by split].
  destruct (Debounce.timers w) as [|t [|t' ts]]; [by left| |done].
  right. exists t. by destruct Ht as (? & _ & ? & ? & _).
Qed.

(** X19: when [validationFn] always returns, and never calls the debounced
    function itself, a call cancels what was pending: a promise created
    before a call and not resolved when the call is made is never resolved
    afterwards. *)
Theorem debounce_call_supersedes
    (es : list Debounce.Event) (w : @Debounce.World Args Result) (a : Args)
    (es' : list Debounce.Event) (w' : @Debounce.World Args Result) (p : nat) :
  returnsOnly validationFn f →
  Debounce.run validationFn delay Debounce.initial es = Some w →
  Debounce.run validationFn delay w (Debounce.Call a :: es') = Some w' →
  p < Debounce.promises w →
  p ∈ (Debounce.resolved w').*1 → p ∈ (Debounce.resolved w).*1.
Proof.
  intros Hf Hrun Hrun' Hp.
  pose proof (debounced_run _ _ _ _ Hf debounced_initial Hrun) as Hw. cbn [app] in Hw.
  pose proof (debounced_step _ _ (Debounce.Call a) _ Hf Hw eq_refl) as Hw1.
  cbn [Debounce.run Debounce.step] in Hrun'. cbn [callsOf omap] in Hw1.
  change (Debounce.resolved w) with (Debounce.resolved (Debounce.call delay a w).2).
  assert (Debounce.promises w = length (callsOf es)) as Hlen by apply Hw.
  apply (resolved_run _ _ _ _ _ Hf Hw1 Hrun').
  - rewrite length_app. lia.
  - intros t Ht. destruct Hw1 as (_ & _ & _ & _ & Hts).
    destruct (Debounce.timers (Debounce.call delay a w).2) as [|t0 [|t1 ts]];
      [by apply elem_of_nil in Ht| |done].
    apply list_elem_of_singleton in Ht as ->. destruct Hts as (_ & _ & Hl & _).
    rewrite length_app in Hl. cbn in Hl. lia.
Qed.

(** X20: when [validationFn] always returns, and never calls the debounced
    function itself, a call that is left alone for the delay is answered:
    once the delay has passed, the timer it set can run, and its promise is
    then resolved with the result of [validationFn] on the arguments of the
    call. *)
Theorem debounce_quiet_call_resolves
    (es : list Debounce.Event) (w : @Debounce.World Args Result) (a : Args) (ms : nat) :
  returnsOnly validationFn f →
  Debounce.run validationFn delay Debounce.initial es = Some w →
  default 300 delay ≤ ms →
  ∃ w',
    Debounce.run validationFn delay w
      [Debounce.Call a; Debounce.Wait ms; Debounce.Expire (Debounce.nextHandle w)]
    = Some w'
    ∧ Debounce.resolved w'
      = Debounce.resolved w ++ [(Debounce.promises w, f a)]
    ∧ Debounce.timers w' = [] ∧ Debounce.timeoutId w' = None.
Proof.
  intros Hf Hrun Hms.
  pose proof (debounced_run _ _ _ _ Hf debounced_initial Hrun) as Hw. cbn [app] in Hw.
  pose proof (debounced_step _ _ (Debounce.Call a) _ Hf Hw eq_refl) as Hw1.
  destruct Hw1 as (_ & _ & _ & _ & Ht1).
  cbn [Debounce.run Debounce.step].
  remember (Debounce.call delay a w).2 as w1 eqn:Hw1.
  assert (Debounce.timers w1
          = [{| Debounce.handle := Debounce.nextHandle w;
                Debounce.due := Debounce.now w + default 300 delay;
                Debounce.args := a; Debounce.promise := Debounce.promises w |}])
    as Hts.
  { destruct (Debounce.timers w1) as [|t [|t' ts]] eqn:Hts; [| |done].
    - subst w1. cbn in Hts. by apply app_nil in Hts as [_ ?].
    - subst w1. cbn in Hts.
      apply (f_equal last) in Hts. rewrite last_snoc in Hts. cbn in Hts.
      by injection Hts as <-. }
  assert (Debounce.now w1 = Debounce.now w) as Hnow by (by subst w1).
  assert (Debounce.resolved w1 = Debounce.resolved w) as Hres by (by subst w1).
  cbn [Debounce.timers Debounce.now]. rewrite Hts. cbn [list_find].
  rewrite decide_True by done. cbn [fmap option_fmap option_map Debounce.due].
  rewrite Hnow.
  destruct (Nat.leb_spec (Debounce.now w + default 300 delay) (Debounce.now w + ms))
    as [_|?]; [|lia].
  rewrite callback_returnsOnly by done.
  eexists. split; [done|]. cbn.
  rewrite Hres. split; [done|]. split; [|done].
  apply (clearTimeout_single
           {| Debounce.handle := Debounce.nextHandle w;
              Debounce.due := Debounce.now w + default 300 delay;
              Debounce.args := a; Debounce.promise := Debounce.promises w |}).
Qed.

End DebounceFacts.

(** A [validationFn] that calls the debounced function while it runs: the
    callback then resets [timeoutId] although the timer of that call is
    pending, and the next call adds a second timer. *)
Example reentrant_callback_two_timers :
  let validationFn (a : nat) (_ : @Debounce.World nat nat) :=
    {| Debounce.reenters := if a =? 0 then [1] else [];
       Debounce.outcome := Debounce.Returns a |} in
  ((λ w, (Debounce.handle <$> Debounce.timers w, Debounce.timeoutId w,
          Debounce.resolved w))
     <$> Debounce.run validationFn None Debounce.initial
           [Debounce.Call 0; Debounce.Wait 300; Debounce.Expire 1])
  = Some ([2], None, [(0, 0)])
  ∧ ((λ w, (Debounce.handle <$> Debounce.timers w, Debounce.timeoutId w))
       <$> Debounce.run validationFn None Debounce.initial
             [Debounce.Call 0; Debounce.Wait 300; Debounce.Expire 1; Debounce.Call 2])
    = Some ([2; 3], Some 3).
Proof. split; reflexivity. Qed.

(** A [validationFn] that throws: the promise stays unresolved and
    [timeoutId] keeps the handle of the timer that has run. *)
Example throwing_callback_keeps_handle :
  let validationFn (a : nat) (_ : @Debounce.World nat nat) :=
    {| Debounce.reenters := []; Debounce.outcome := Debounce.Throws |} in
  ((λ w, (Debounce.timers w, Debounce.timeoutId w, Debounce.resolved w))
     <$> Debounce.run validationFn None Debounce.initial
           [Debounce.Call 0; Debounce.Wait 300; Debounce.Expire 1])
  = Some ([], Some 1, []).
Proof. reflexivity. Qed.

(** ** Concrete runs *)

Example email_is_lowercased :
  @validateField asciiHost (jstr "email") (jstr "  USER@Example.com ")
  = success (jstr "user@example.com").
Proof. by vm_compute. Qed.

Example email_consecutive_dots :
  @validateField asciiHost (jstr "email") (jstr "a..b@example.com")
  = failure (jstr "Email cannot contain consecutive dots") (jstr "a..b@example.com").
Proof. by vm_compute. Qed.

Example phone_too_short :
  valid (@validateField asciiHost (jstr "phone") (jstr "123")) = false.
Proof. by vm_compute. Qed.

Example service_not_allowed :
  @validateField asciiHost (jstr "service") (jstr "laundry")
  = failure (jstr "Please select a valid service option") (jstr "laundry").
Proof. by vm_compute. Qed.

Example good_form_is_valid :
  isValid (@validateForm asciiHost (list_to_map goodForm)) = true
  ∧ errors (@validateForm asciiHost (list_to_map goodForm)) = ∅
  ∧ sanitizedData (@validateForm asciiHost (list_to_map goodForm)) !! jstr "message"
    = Some [].
Proof. by vm_compute. Qed.

Example bad_form_is_invalid :
  isValid (@validateForm asciiHost (list_to_map badForm)) = false
  ∧ dom (errors (@validateForm asciiHost (list_to_map badForm)))
    = list_to_set (jstr <$> ["name"; "email"; "phone"; "service"]%string).
Proof. by vm_compute. Qed.

Example name_pattern_runs :
  (RegExp_test (literal namePattern false false) (jstr "Jo-Ann O'Neil")).1 = true
  ∧ (RegExp_test (literal namePattern false false) (jstr "J0")).1 = false
  ∧ (RegExp_test (literal namePattern false false) []).1 = false.
Proof. by vm_compute. Qed.

(** The three parts of the e-mail pattern share the dot: the matcher has to
    give characters back to find the split. *)
Example email_pattern_runs :
  (RegExp_test (literal emailPattern false false) (jstr "a.b.c@d.e.f")).1 = true
  ∧ (RegExp_test (literal emailPattern false false) (jstr "a@b.c")).1 = true
  ∧ (RegExp_test (literal emailPattern false false) (jstr "a@b.")).1 = false
  ∧ (RegExp_test (literal emailPattern false false) (jstr "a@.b")).1 = false
  ∧ (RegExp_test (literal emailPattern false false) (jstr "a@b@c.d")).1 = false
  ∧ (RegExp_test (literal emailPattern false false) (jstr "a b@c.d")).1 = false.
Proof. by vm_compute. Qed.

Example phone_pattern_runs :
  (RegExp_test (literal phonePattern false false) (jstr "(555) 123-4567")).1 = true
  ∧ (RegExp_test (literal phonePattern false false) (jstr "+1 555x")).1 = false.
Proof. by vm_compute. Qed.

(** A URL runs to the next white space, and a scheme with nothing after it
    is no URL. *)
Example url_matches :
  String_match (jstr "x http://a http://bhttp://c HTTPS://d https:// http://")
               (literal urlPattern true true)
  = Some [jstr "http://a"; jstr "http://bhttp://c"; jstr "HTTPS://d"].
Proof. by vm_compute. Qed.

(** Empty matches: ["abc".replace(/b*/g, "-")] is ["-a--c-"]. *)
Example replace_with_empty_matches :
  String_replace (jstr "abc") (literal (Star (Char (chr "b"))) true false) (jstr "-")
  = jstr "-a--c-".
Proof. by vm_compute. Qed.

Example first_invalid_field :
  (λ r, r.1) <$> @validateFieldsFast asciiHost badForm = Some (jstr "name").
Proof. by vm_compute. Qed.

(** A pattern object with the [g] flag that is shared between two calls of
    [test] answers differently the second time: [lastIndex] matters, and the
    patterns of the message check are safe because each call builds its
    own objects. *)
Example shared_global_object_is_stateful :
  let R := literal scriptPattern true true in
  (RegExp_test R (jstr "a <script>")).1 = true
  ∧ (RegExp_test (RegExp_test R (jstr "a <script>")).2 (jstr "a <script>")).1 = false.
Proof. by vm_compute. Qed.

(** ** Instances and counterexamples *)

Lemma validateField_fixed_order_witness :
  getOwn (@VALIDATION_RULES asciiHost) (jstr "name") = Some nameRule
  ∧ @validateField asciiHost (jstr "name") (jstr "   ")
    = failure (jstr "Name is required") [].
Proof.
  split; [reflexivity|].
  apply (@validateField_fixed_order asciiHost (jstr "name") (jstr "   ") nameRule);
    reflexivity.
Defined.

Lemma validateField_unknown_field_witness :
  (jstr "nickname" ∉ @ruleFields asciiHost)
  ∧ sanitizedValue (@validateField asciiHost (jstr "nickname") (jstr " x "))
    = jstr " x ".
Proof.
  assert (jstr "nickname" ∉ (@ruleFields asciiHost)) as H
    by (apply (bool_decide_unpack _); vm_compute; reflexivity).
  split; [exact H|].
  apply (@validateField_unknown_field asciiHost (jstr "nickname") (jstr " x ") H).
Defined.

(** C3 as stated fails: the value of an unknown field comes back with its
    surrounding white space. *)
Lemma validateField_unknown_field_untrimmed :
  (jstr "nickname" ∉ @ruleFields asciiHost)
  ∧ valid (@validateField asciiHost (jstr "nickname") (jstr " x ")) = true
  ∧ sanitizedValue (@validateField asciiHost (jstr "nickname") (jstr " x "))
    ≠ trim (jstr " x ").
Proof.
  split; [apply (bool_decide_unpack _); by vm_compute|].
  split; [by vm_compute|]. by vm_compute.
Qed.

Lemma length_checks_count_code_units_witness :
  getOwn (@VALIDATION_RULES asciiHost) (jstr "name") = Some nameRule
  ∧ sanitizeOf nameRule (jstr " J ") ≠ []
  ∧ @validateField asciiHost (jstr "name") (jstr " J ")
    = failure (jstr "Name must be at least 2 characters") (jstr "J").
Proof.
  assert (sanitizeOf nameRule (jstr " J ") ≠ []) as H by (vm_compute; discriminate).
  split; [reflexivity|]. split; [exact H|].
  apply (proj1 (@length_checks_count_code_units asciiHost (jstr "name") (jstr " J ")
                  nameRule eq_refl H) 2).
  - reflexivity.
  - vm_compute. lia.
Defined.

(** C4 as stated fails: 501 code points outside the Basic Multilingual
    Plane are 1002 code units, and the message is rejected by the check of
    the maximum length. *)
Lemma message_astral_rejected :
  codePointCount (collapseSanitize (mjoin (replicate 501 [0xD83D; 0xDE00]%N))) ≤ 1000
  ∧ @validateField asciiHost (jstr "message") (mjoin (replicate 501 [0xD83D; 0xDE00]%N))
    = failure (jstr "Message must not exceed 1000 characters")
              (mjoin (replicate 501 [0xD83D; 0xDE00]%N)).
Proof.
  split.
  - assert (codePointCount
              (collapseSanitize (mjoin (replicate 501 [0xD83D; 0xDE00]%N))) = 501)
      as -> by (by vm_compute).
    apply (bool_decide_unpack _). by vm_compute.
  - by vm_compute.
Qed.

Lemma message_spam_rejected_witness :
  collapseSanitize (jstr " see http://a.b https://c.d and HTTP://x ") ≠ []
  ∧ length (collapseSanitize (jstr " see http://a.b https://c.d and HTTP://x ")) ≤ 1000
  ∧ @validateField asciiHost (jstr "message")
      (jstr " see http://a.b https://c.d and HTTP://x ")
    = failure (jstr "Message contains too many links")
              (collapseSanitize (jstr " see http://a.b https://c.d and HTTP://x ")).
Proof.
  assert (collapseSanitize (jstr " see http://a.b https://c.d and HTTP://x ") ≠ [])
    as H1 by (vm_compute; discriminate).
  assert (length (collapseSanitize (jstr " see http://a.b https://c.d and HTTP://x "))
          ≤ 1000) as H2 by (apply (bool_decide_unpack _); vm_compute; reflexivity).
  split; [exact H1|]. split; [exact H2|].
  apply (proj1 (@message_spam_rejected asciiHost
                  (jstr " see http://a.b https://c.d and HTTP://x ") H1 H2)).
  apply (bool_decide_unpack _). vm_compute. reflexivity.
Defined.

Lemma validateForm_agree_witness :
  @validateForm asciiHost (list_to_map [(jstr "name", jstr "Jo"); (jstr "nickname", jstr "x")])
  = @validateForm asciiHost (list_to_map [(jstr "name", jstr "Jo"); (jstr "message", [])]).
Proof.
  apply (@validateForm_agree asciiHost).
  apply Forall_forall. apply (bool_decide_unpack _). vm_compute. reflexivity.
Defined.

Lemma validateFieldsFast_agrees_with_validateForm_witness :
  goodForm.*1 ≡ₚ @ruleFields asciiHost
  ∧ (@validateFieldsFast asciiHost goodForm = None
     ↔ isValid (@validateForm asciiHost (list_to_map goodForm)) = true).
Proof.
  split; [reflexivity|].
  apply (proj1 (@validateFieldsFast_agrees_with_validateForm asciiHost goodForm
                  (reflexivity _))).
Defined.

(** ** Instances of the further properties *)

Lemma validateField_revalidate_witness :
  HostLaws asciiHost
  ∧ @validateField asciiHost (jstr "email")
      (sanitizedValue (@validateField asciiHost (jstr "email") (jstr "  USER@Example.com ")))
    = @validateField asciiHost (jstr "email") (jstr "  USER@Example.com ").
Proof.
  split; [exact asciiHost_laws|].
  apply (@validateField_revalidate asciiHost asciiHost_laws).
Defined.

Lemma validateField_ignores_padding_witness :
  is_Some (@getRules asciiHost (jstr "name"))
  ∧ Forall (λ c, isWhiteSpace c = true) (jstr "  ")
  ∧ Forall (λ c, isWhiteSpace c = true) (jstr " ")
  ∧ @validateField asciiHost (jstr "name") (jstr "  " ++ jstr "Jo" ++ jstr " ")
    = @validateField asciiHost (jstr "name") (jstr "Jo").
Proof.
  assert (is_Some (@getRules asciiHost (jstr "name"))) as H0
    by (eexists; reflexivity).
  assert (Forall (λ c, isWhiteSpace c = true) (jstr "  ")) as H1
    by (repeat constructor).
  assert (Forall (λ c, isWhiteSpace c = true) (jstr " ")) as H2
    by (repeat constructor).
  split; [exact H0|]. split; [exact H1|]. split; [exact H2|].
  apply (@validateField_ignores_padding asciiHost _ _ _ _ H0 H1 H2).
Defined.

Lemma validateForm_lookup_witness :
  jstr "email" ∈ @ruleFields asciiHost
  ∧ sanitizedData (@validateForm asciiHost (list_to_map badForm)) !! jstr "email"
    = Some (sanitizedValue
              (@validateField asciiHost (jstr "email")
                 (default [] ((list_to_map badForm : gmap jsstring jsstring)
                              !! jstr "email")))).
Proof.
  assert (jstr "email" ∈ @ruleFields asciiHost) as H
    by (apply (bool_decide_unpack _); vm_compute; reflexivity).
  split; [exact H|].
  apply (proj1 (@validateForm_lookup asciiHost (list_to_map badForm) (jstr "email") H)).
Defined.

Lemma validateForm_revalidate_witness :
  HostLaws asciiHost
  ∧ @validateForm asciiHost
      (sanitizedData (@validateForm asciiHost (list_to_map goodForm)))
    = @validateForm asciiHost (list_to_map goodForm).
Proof.
  split; [exact asciiHost_laws|].
  apply (@validateForm_revalidate asciiHost asciiHost_laws).
Defined.

Lemma sanitizeString_not_idempotent_witness :
  jstr "a" ≠ [] ∧ length (jstr "a") < 1000
  ∧ Forall (λ c, isWhiteSpace c = false ∧ isAngleBracket c = false) (jstr "a")
  ∧ sanitizeString (Str (jstr "< " ++ jstr "a")) = jstr " a"
  ∧ sanitizeString (Str (sanitizeString (Str (jstr "< " ++ jstr "a")))) = jstr "a".
Proof.
  assert (jstr "a" ≠ []) as H1 by (vm_compute; discriminate).
  assert (length (jstr "a") < 1000) as H2 by (vm_compute; lia).
  assert (Forall (λ c, isWhiteSpace c = false ∧ isAngleBracket c = false) (jstr "a"))
    as H3 by (repeat constructor).
  split; [exact H1|]. split; [exact H2|]. split; [exact H3|].
  apply (sanitizeString_not_idempotent (jstr "a") H1 H2 H3).
Defined.

Lemma required_fields_reject_blank_witness :
  @toLowerCase asciiHost [] = []
  ∧ isEmpty (Str (jstr "  ")) = true
  ∧ (jstr "phone" ∈ @getRequiredFields asciiHost
     ↔ valid (@validateField asciiHost (jstr "phone") (jstr "  ")) = false).
Proof.
  split; [reflexivity|]. split; [reflexivity|].
  apply (proj1 (proj2 (@required_fields_reject_blank asciiHost (jstr "phone") (jstr "  ")
                         eq_refl eq_refl))).
Defined.

Lemma validateForm_valid_iff_entries_witness :
  @toLowerCase asciiHost [] = []
  ∧ NoDup goodForm.*1
  ∧ (isValid (@validateForm asciiHost (list_to_map goodForm)) = true
     ↔ @validateFieldsFast asciiHost goodForm = None
       ∧ ∀ fieldName, fieldName ∈ @getRequiredFields asciiHost →
                      fieldName ∈ goodForm.*1).
Proof.
  assert (NoDup goodForm.*1) as H
    by (apply (bool_decide_unpack _); vm_compute; reflexivity).
  split; [reflexivity|]. split; [exact H|].
  apply (@validateForm_valid_iff_entries asciiHost goodForm eq_refl H).
Defined.

Lemma debounce_invariant_witness :
  returnsOnly (λ (a : nat) (_ : @Debounce.World nat nat),
                 {| Debounce.reenters := [];
                    Debounce.outcome := Debounce.Returns (S a) |}) S
  ∧ Debounce.run (λ (a : nat) (_ : @Debounce.World nat nat),
                    {| Debounce.reenters := [];
                       Debounce.outcome := Debounce.Returns (S a) |})
      None Debounce.initial
      [Debounce.Call 1; Debounce.Call 2; Debounce.Wait 300; Debounce.Expire 2]
    = Some {| Debounce.now := 300; Debounce.timers := []; Debounce.nextHandle := 3;
              Debounce.timeoutId := None; Debounce.promises := 2;
              Debounce.resolved := [(1, 3)] |}
  ∧ NoDup [(1, 3)].*1.
Proof.
  split; [intros a w; reflexivity|]. split; [reflexivity|].
  apply (proj1 (proj2 (debounce_invariant _ None S
                         [Debounce.Call 1; Debounce.Call 2; Debounce.Wait 300;
                          Debounce.Expire 2] _ (λ a w, eq_refl) eq_refl))).
Defined.

Lemma debounce_call_supersedes_witness :
  returnsOnly (λ (a : nat) (_ : @Debounce.World nat nat),
                 {| Debounce.reenters := [];
                    Debounce.outcome := Debounce.Returns (S a) |}) S
  ∧ Debounce.run (λ (a : nat) (_ : @Debounce.World nat nat),
                    {| Debounce.reenters := [];
                       Debounce.outcome := Debounce.Returns (S a) |})
      None Debounce.initial [Debounce.Call 1]
    = Some {| Debounce.now := 0;
              Debounce.timers := [{| Debounce.handle := 1; Debounce.due := 300;
                                     Debounce.args := 1; Debounce.promise := 0 |}];
              Debounce.nextHandle := 2; Debounce.timeoutId := Some 1;
              Debounce.promises := 1; Debounce.resolved := [] |}
  ∧ Debounce.run (λ (a : nat) (_ : @Debounce.World nat nat),
                    {| Debounce.reenters := [];
                       Debounce.outcome := Debounce.Returns (S a) |})
      None
      {| Debounce.now := 0;
         Debounce.timers := [{| Debounce.handle := 1; Debounce.due := 300;
                                Debounce.args := 1; Debounce.promise := 0 |}];
         Debounce.nextHandle := 2; Debounce.timeoutId := Some 1;
         Debounce.promises := 1; Debounce.resolved := [] |}
      [Debounce.Call 2; Debounce.Wait 300; Debounce.Expire 2]
    = Some {| Debounce.now := 300; Debounce.timers := []; Debounce.nextHandle := 3;
              Debounce.timeoutId := None; Debounce.promises := 2;
              Debounce.resolved := [(1, 3)] |}
  ∧ 0 < 1
  ∧ (0 ∈ [(1, 3)].*1 → 0 ∈ (@nil (nat * nat)).*1).
Proof.
  split; [intros a w; reflexivity|].
  split; [reflexivity|]. split; [reflexivity|]. split; [lia|].
  apply (debounce_call_supersedes _ None S [Debounce.Call 1] _ 2
           [Debounce.Wait 300; Debounce.Expire 2] _ 0 (λ a w, eq_refl)
           eq_refl eq_refl).
  simpl. lia.
Defined.

Lemma debounce_quiet_call_resolves_witness :
  returnsOnly (λ (a : nat) (_ : @Debounce.World nat nat),
                 {| Debounce.reenters := [];
                    Debounce.outcome := Debounce.Returns (S a) |}) S
  ∧ Debounce.run (λ (a : nat) (_ : @Debounce.World nat nat),
                    {| Debounce.reenters := [];
                       Debounce.outcome := Debounce.Returns (S a) |})
      None Debounce.initial [] = Some Debounce.initial
  ∧ default 300 None ≤ 300
  ∧ ∃ w',
      Debounce.run (λ (a : nat) (_ : @Debounce.World nat nat),
                      {| Debounce.reenters := [];
                         Debounce.outcome := Debounce.Returns (S a) |})
        None Debounce.initial
        [Debounce.Call 7; Debounce.Wait 300; Debounce.Expire 1] = Some w'
      ∧ Debounce.resolved w' = [(0, 8)]
      ∧ Debounce.timers w' = [] ∧ Debounce.timeoutId w' = None.
Proof.
  split; [intros a w; reflexivity|]. split; [reflexivity|]. split; [simpl; lia|].
  apply (debounce_quiet_call_resolves _ None S [] Debounce.initial 7 300
           (λ a w, eq_refl) eq_refl).
  simpl. lia.
Defined.
